(** * Collateralization analysis: the numerical core and its requests

    A shallow embedding of the two modules of the repository that compute,

    - [data/hydration_request.py]: the StableSwap invariant solver
      [calculate_d], its convergence test [has_converged] and the marginal
      price [price_at_balance]; the request layer around them, which fetches
      the balances of a pool account from the chain
      ([request_token_balances], [request_price]) and caches the price in
      the pair ([Stableswap_Pair.get_price]);
    - [analysis/analysis.py]: the drawdown statistic [get_initial_drawdown]
      and the value-at-risk multiplier [get_threshold_multiplier];

    together with the properties of these functions that the specification
    states, and further ones that the code shows.  The Python code is
    written once, over an interface of float operations ([FloatOps]).  The
    properties are proved for every instance of the interface where the
    arithmetic does not matter, and on [binary64], the IEEE 754 double
    precision numbers the interpreter computes with (Rocq's primitive
    floats), where it does: rounding, overflow, underflow and NaN are those
    of the doubles.  A second instance, [exact], the rational numbers, only
    serves to run the request layer on an example.

    Layout: the Python runtime and the float interface; the program; the
    properties that hold in every arithmetic; bounds on the rounding of the
    binary64 operations ([Rounding]); the program on doubles ([Binary64]);
    then the further properties: errors and bounds in every arithmetic, the
    request layer, the operations of the doubles that do not round
    ([ExactRounding]), the doubles ([Binary64Facts]), the order of the
    doubles and the sample that the multiplier is computed from
    ([DoubleOrder]), the relative error of products and quotients and the
    two prices of a pair ([RoundingError]), and an example of the request
    layer ([ExactFacts]). *)

From Stdlib Require Import ZArith List Bool String Lia.
From Stdlib Require Import Floats QArith Qabs Qpower Lqa.
From Stdlib Require Import Sorted Permutation.
Import ListNotations.

Set Implicit Arguments.

(* ================================================================== *)
(** * The Python runtime the code relies on                            *)
(* ================================================================== *)

(** The exception classes that the modelled code can raise.  [Exception]
    is the plain [Exception(msg)] that [get_threshold_multiplier] raises
    itself; the others are raised by the interpreter. *)
Inductive exn : Type :=
| ZeroDivisionError
| OverflowError
| ValueError
| TypeError
| IndexError
| KeyError
| Exception (msg : string).

(** An evaluation either returns a value or raises. *)
Inductive result (A : Type) : Type :=
| Ok (a : A)
| Raise (e : exn).
Arguments Ok {A} a.
Arguments Raise {A} e.

Definition bind {A B : Type} (r : result A) (k : A -> result B) : result B :=
  match r with
  | Ok a => k a
  | Raise e => Raise e
  end.

Notation "x <- e ;; k" := (bind e (fun x => k))
  (at level 61, e at next level, right associativity).

(** [for x in xs: acc.append(f x)], stopping at the first exception. *)
Fixpoint mapM {A B : Type} (f : A -> result B) (xs : list A) : result (list B) :=
  match xs with
  | [] => Ok []
  | x :: xs' => y <- f x ;; ys <- mapM f xs' ;; Ok (y :: ys)
  end.

(** [len(l)]. *)
Definition len {A : Type} (l : list A) : Z := Z.of_nat (List.length l).

(** [l[i]] on a list: a negative index counts from the end, an index out of
    range raises [IndexError]. *)
Definition getitem {A : Type} (l : list A) (i : Z) : result A :=
  let k := if (i <? 0)%Z then (i + len l)%Z else i in
  if (k <? 0)%Z then Raise IndexError
  else match nth_error l (Z.to_nat k) with
       | Some x => Ok x
       | None => Raise IndexError
       end.

(** [l[:k]]: the first [k] elements, all of [l] when [k] is larger than
    its length; a negative [k] drops the last [-k] elements. *)
Definition slice_to {A : Type} (l : list A) (k : Z) : list A :=
  if (k <? 0)%Z then firstn (Z.to_nat (len l + k)) l
  else firstn (Z.to_nat k) l.

(** What [int(x)] finds in a float. *)
Inductive int_conv : Type :=
| IsInt (z : Z)     (* finite: the value truncated toward zero *)
| IsNaN             (* int(nan) raises ValueError *)
| IsInf.            (* int(inf) raises OverflowError *)

(** A [dict] as the list of its items in insertion order: [d[k] = v]
    replaces the value of a key that is present and appends a key that is
    new; [d[k]] raises [KeyError] for a key that is absent. *)
Section Dict.

Variables K V : Type.
Variable eqb : K -> K -> bool.

Fixpoint dict_set (d : list (K * V)) (k : K) (v : V) : list (K * V) :=
  match d with
  | [] => [(k, v)]
  | (k', v') :: d' =>
      if eqb k' k then (k', v) :: d' else (k', v') :: dict_set d' k v
  end.

Fixpoint dict_get (d : list (K * V)) (k : K) : result V :=
  match d with
  | [] => Raise KeyError
  | (k', v) :: d' => if eqb k' k then Ok v else dict_get d' k
  end.

End Dict.

(* ================================================================== *)
(** * The float interface                                              *)
(* ================================================================== *)

(** The operations of Python's [float] (and of numpy's [float64]) that the
    code uses.  [fdiv] is the total IEEE quotient; the interpreter's check
    for a zero divisor is written out in [truediv] below.  [of_int] is the
    implicit conversion of an [int] operand, [None] when the integer is
    beyond the float range (the interpreter raises [OverflowError]). *)
Class FloatOps : Type := {
  F : Type;
  f0 : F;                      (* 0.0 *)
  f1 : F;                      (* 1.0 *)
  fadd : F -> F -> F;
  fsub : F -> F -> F;
  fmul : F -> F -> F;
  fdiv : F -> F -> F;
  fabs : F -> F;
  feqb : F -> F -> bool;       (* x == y *)
  fltb : F -> F -> bool;       (* x < y *)
  fleb : F -> F -> bool;       (* x <= y *)
  of_int : Z -> option F;
  to_int : F -> int_conv
}.

(** ** IEEE 754 binary64 *)

(** [float(z)]: the integer rounded to the nearest double, ties to even. *)
Definition b64_of_int (z : Z) : option float :=
  match binary_normalize prec emax z 0 false with
  | S754_infinity _ => None
  | sf => Some (SF2Prim sf)
  end.

(** [int(x)]: the float's value truncated toward zero. *)
Definition b64_to_int (x : float) : int_conv :=
  match Prim2SF x with
  | S754_zero _ => IsInt 0
  | S754_finite s m e =>
      let a := if (0 <=? e)%Z then Z.shiftl (Zpos m) e
               else Z.shiftr (Zpos m) (- e) in
      IsInt (if s then (- a)%Z else a)
  | S754_infinity _ => IsInf
  | S754_nan => IsNaN
  end.

Definition binary64 : FloatOps := {|
  F := float;
  f0 := PrimFloat.zero;
  f1 := PrimFloat.one;
  fadd := PrimFloat.add;
  fsub := PrimFloat.sub;
  fmul := PrimFloat.mul;
  fdiv := PrimFloat.div;
  fabs := PrimFloat.abs;
  feqb := PrimFloat.eqb;
  fltb := PrimFloat.ltb;
  fleb := PrimFloat.leb;
  of_int := b64_of_int;
  to_int := b64_to_int
|}.

(** ** Exact rational arithmetic *)

(** The rationals have no infinities and no NaN: [fdiv] by zero is Rocq's
    conventional [x / 0 == 0], which no statement below relies on.  No
    property of the numerical code is proved on this instance alone: it
    instantiates the request layer in the examples of [ExactFacts]. *)
Definition exact : FloatOps := {|
  F := Q;
  f0 := 0%Q;
  f1 := 1%Q;
  fadd := Qplus;
  fsub := Qminus;
  fmul := Qmult;
  fdiv := Qdiv;
  fabs := Qabs;
  feqb := Qeq_bool;
  fltb := fun x y => negb (Qle_bool y x);
  fleb := Qle_bool;
  of_int := fun z => Some (inject_Z z);
  to_int := fun x => IsInt (Z.quot (Qnum x) (Zpos (Qden x)))
|}.

(* ================================================================== *)
(** * The program                                                      *)
(* ================================================================== *)

Section Program.

Context {N : FloatOps}.

(** ** Interpreter operations on floats *)

(** An [int] operand meeting a float is converted first. *)
Definition float_of_int (z : Z) : result F :=
  match of_int z with
  | Some x => Ok x
  | None => Raise OverflowError
  end.

(** [z * x] and [x * z] for an int [z] and a float [x]. *)
Definition imulf (z : Z) (x : F) : result F :=
  zf <- float_of_int z ;; Ok (fmul zf x).

Definition fmuli (x : F) (z : Z) : result F :=
  zf <- float_of_int z ;; Ok (fmul x zf).

(** [x / y] on Python floats: a zero divisor raises. *)
Definition truediv (x y : F) : result F :=
  if feqb y f0 then Raise ZeroDivisionError else Ok (fdiv x y).

(** [int(x)]. *)
Definition py_int (x : F) : result Z :=
  match to_int x with
  | IsInt z => Ok z
  | IsNaN => Raise ValueError
  | IsInf => Raise OverflowError
  end.

(** [sorted(l)]: ascending and stable.  CPython's sort only ever asks
    [y < x]; on a list whose elements [<] orders (no NaN) every stable sort
    returns the same list, and insertion is the simplest of them. *)
Fixpoint insert_asc (x : F) (l : list F) : list F :=
  match l with
  | [] => [x]
  | y :: l' => if fltb y x then y :: insert_asc x l' else x :: l
  end.

Definition sorted (l : list F) : list F := fold_right insert_asc [] l.

(** [l.sort(reverse=True)]: on a list whose elements [<] orders (no NaN),
    the descending arrangement in which elements that compare equal keep
    their order; insertion from the right builds it.  With a NaN among the
    elements no arrangement is in order and the list that CPython's merge
    sort returns depends on the runs it finds: the statements about the
    ranking of the samples ([DoubleOrder]) are for samples without NaN. *)
Fixpoint insert_desc (x : F) (l : list F) : list F :=
  match l with
  | [] => [x]
  | y :: l' => if fltb x y then y :: insert_desc x l' else x :: l
  end.

Definition sort_reverse (l : list F) : list F := fold_right insert_desc [] l.

(** [sum(l)]: the running sum from the left, starting at [0].  (CPython
    from 3.12 on compensates the rounding errors of a float sum; for the two
    balances of a token pair the result is the same.) *)
Definition sum (l : list F) : F := fold_left fadd l f0.

(** The value [min] keeps: the first element unless a later one is smaller. *)
Definition min_from (x : F) (rest : list F) : F :=
  fold_left (fun m y => if fltb y m then y else m) rest x.

(** [min(l)]; an empty argument raises [ValueError]. *)
Definition py_min (l : list F) : result F :=
  match l with
  | [] => Raise ValueError
  | x :: rest => Ok (min_from x rest)
  end.

(** ** data/hydration_request.py *)

(** The fields of [Stableswap_Pair] that the computation reads. *)
Record Stableswap_Pair : Type := {
  _amplification : Z;
  _trade_fee : F;
  _precision : F
}.

(** What [calculate_d] hands back: the int [0], a float, or [None]. *)
Inductive pyval : Type :=
| VInt (z : Z)
| VFloat (x : F)
| VNone.

Variable _token_pair : Stableswap_Pair.

Definition has_converged (v0 v1 : F) : bool :=
  let diff := fabs (fsub v0 v1) in
  if (fleb v1 v0 && fltb diff (_precision _token_pair))
     || (fltb v0 v1 && fleb diff (_precision _token_pair))
  then true
  else false.

(** [for x in xp_sorted: d_p *= d / (x * len(balances))]. *)
Fixpoint d_p_loop (d : F) (n : Z) (xs : list F) (d_p : F) : result F :=
  match xs with
  | [] => Ok d_p
  | x :: xs' =>
      xn <- fmuli x n ;;
      q <- truediv d xn ;;
      d_p_loop d n xs' (fmul d_p q)
  end.

(** One pass through the body of the outer loop, up to the new [d]. *)
Definition newton_step (ann n_coins : Z) (s : F) (xp_sorted : list F) (d : F)
  : result F :=
  d_p <- d_p_loop d n_coins xp_sorted d ;;
  a1 <- imulf ann s ;;
  a2 <- fmuli d_p n_coins ;;
  b1 <- imulf (ann - 1) d ;;
  b2 <- imulf (n_coins + 1) d_p ;;
  truediv (fmul (fadd a1 a2) d) (fadd b1 b2).

(** [for i in range(max_iterations): ...]; when the range is used up the
    function body ends and the call evaluates to [None]. *)
Fixpoint calculate_d_loop (ann n_coins : Z) (s : F) (xp_sorted : list F)
  (iterations : nat) (d : F) : result pyval :=
  match iterations with
  | O => Ok VNone
  | S k =>
      let d_prev := d in
      d' <- newton_step ann n_coins s xp_sorted d ;;
      if has_converged d_prev d' then Ok (VFloat d')
      else calculate_d_loop ann n_coins s xp_sorted k d'
  end.

Definition calculate_d (balances : list F) (max_iterations : Z) : result pyval :=
  let reserves := balances in
  let n_coins := len balances in
  let ann := (_amplification _token_pair * n_coins)%Z in
  let xp_sorted := sorted reserves in
  let s := sum xp_sorted in
  if feqb s f0 then Ok (VInt 0)
  else calculate_d_loop ann n_coins s xp_sorted (Z.to_nat max_iterations) s.

(** The default of the [max_iterations] argument. *)
Definition default_max_iterations : Z := 128.

(** [c * d] where either operand is what [calculate_d] returned. *)
Definition py_mul (a b : pyval) : result pyval :=
  match a, b with
  | VInt x, VInt y => Ok (VInt (x * y))
  | VInt x, VFloat y => r <- imulf x y ;; Ok (VFloat r)
  | VFloat x, VInt y => r <- fmuli x y ;; Ok (VFloat r)
  | VFloat x, VFloat y => Ok (VFloat (fmul x y))
  | VNone, _ | _, VNone => Raise TypeError
  end.

(** [a / y] for a float divisor [y]. *)
Definition py_div_float (a : pyval) (y : F) : result F :=
  match a with
  | VInt x => xf <- float_of_int x ;; truediv xf y
  | VFloat x => truediv x y
  | VNone => Raise TypeError
  end.

(** [x + c] for a float [x]. *)
Definition float_add_py (x : F) (c : pyval) : result F :=
  match c with
  | VInt z => zf <- float_of_int z ;; Ok (fadd x zf)
  | VFloat y => Ok (fadd x y)
  | VNone => Raise TypeError
  end.

(** [for x in sorted_bal: c = c * d / (n * x)]. *)
Fixpoint c_loop (d : pyval) (n : Z) (xs : list F) (c : pyval) : result pyval :=
  match xs with
  | [] => Ok c
  | x :: xs' =>
      cd <- py_mul c d ;;
      nx <- imulf n x ;;
      c' <- py_div_float cd nx ;;
      c_loop d n xs' (VFloat c')
  end.

Definition price_at_balance (balances : list F) (i j : Z) : result F :=
  let n := len balances in
  let ann := (_amplification _token_pair * n)%Z in
  d <- calculate_d balances default_max_iterations ;;
  let sorted_bal := sorted balances in
  c <- c_loop d n sorted_bal d ;;
  xi <- getitem balances i ;;
  xj <- getitem balances j ;;
  t1 <- imulf ann xi ;;
  t2 <- float_add_py t1 c ;;
  t3 <- imulf ann xj ;;
  t4 <- float_add_py t3 c ;;
  t5 <- truediv (fmul xj t2) t4 ;;
  truediv t5 xi.

(** ** analysis/analysis.py *)

(** [series[0]] on a pandas series: the entry labelled [0], which is the
    first one; an empty series has no such label. *)
Definition series_first (series : list F) : result F :=
  match series with
  | [] => Raise KeyError
  | x :: _ => Ok x
  end.

(** The series holds numpy [float64] values, whose division does not
    raise on a zero divisor: it is the IEEE quotient [fdiv]. *)
Definition get_initial_drawdown (series : list F) : result F :=
  m <- py_min series ;;
  first <- series_first series ;;
  Ok (fsub (fdiv m first) f1).

(** Modelled from the spec: the class [Simulation], whose attribute [paths]
    the method reads, is not among the source files.  The specification
    describes what it holds as a collection of price paths "of equal or
    varying length", each an ordered sequence of values indexed from step
    0: a list of lists. *)
Definition Paths : Type := list (list F).

(** [paths[0]], the first path; [KeyError] when there is none. *)
Definition series_first_path (paths : Paths) : result (list F) :=
  match paths with
  | [] => Raise KeyError
  | p :: _ => Ok p
  end.

(** The message of the exception raised for an [at_step] out of range. *)
Definition step_error : string :=
  "Step must be smaller or equal to the length of the path.".

(** The statements after the loop, from the sort on. *)
Definition threshold_from_drawdowns (initial_drawdowns : list F) (alpha : F)
  : result F :=
  let initial_drawdowns' := sort_reverse initial_drawdowns in
  pos <- imulf (len initial_drawdowns') alpha ;;
  index <- py_int pos ;;
  value_at_risk <- getitem initial_drawdowns' index ;;
  Ok (fdiv f1 (fadd f1 value_at_risk)).

(** The method, with [self._simulation.paths] as its argument [paths].
    The default of [at_step] is [None]. *)
Definition get_threshold_multiplier (paths : Paths) (alpha : F)
  (at_step : option Z) : result F :=
  let at_step := match at_step with None => (-1)%Z | Some k => k end in
  path0 <- series_first_path paths ;;
  if (len path0 <? at_step)%Z then Raise (Exception step_error)
  else
    initial_drawdowns <-
      mapM (fun path => get_initial_drawdown (slice_to path at_step)) paths ;;
    threshold_from_drawdowns initial_drawdowns alpha.

End Program.

Arguments Stableswap_Pair : clear implicits.
Arguments pyval : clear implicits.

(* ================================================================== *)
(** * The program: requests to the chain                               *)
(* ================================================================== *)

(** The rest of [data/hydration_request.py]: the objects, and the methods
    that fetch the balances of a pool account and price them. *)

(** [Hydration_Token]. *)
Record Hydration_Token : Type := {
  _id : Z;
  _name : string;
  _decimals : Z
}.

(** The chain client, [SubstrateInterface], is a library of its own.  The
    code uses three of its requests, and the model takes the answers of the
    node to them as given:
    - [query(module='System', storage_function='Number').value];
    - [rpc_request("chain_getBlockHash", [block_number])['result']], for a
      block number or [None];
    - [query_map(module="Tokens", storage_function="Accounts",
      params=[account], block_hash=...)], as the list of what the loop
      reads of each item: the key [k.value_serialized] and
      [dct.value_serialized.get('free')], which is [None] when the entry
      has no such field.
    Each request can fail; the exception is then the client's. *)
Record SubstrateInterface : Type := {
  query_System_Number : result Z;
  rpc_chain_getBlockHash : option Z -> result (option string);
  query_map_Tokens_Accounts :
    string -> option string -> result (list (Z * option Z))
}.

(** Two operations of the interpreter on [int]s that the float interface
    does not have: [a / b], the quotient of two ints as a float, and
    [10 ** d] for a negative [d], which is a float. *)
Class IntOps (N : FloatOps) : Type := {
  int_truediv : Z -> Z -> result F;
  pow10_float : Z -> F
}.

Section Request.

Context {N : FloatOps} {IO : IntOps N}.

(** [Stableswap_Pair] with all the attributes that [__init__] sets: the
    tokens, the account and the cached price, beside the numbers that the
    solver reads ([_amplification], [_trade_fee] and [_precision], the
    record [Stableswap_Pair] above).  [_price] is [None] until a price is
    set. *)
Record Stableswap_Pair_object : Type := {
  _base_token : Hydration_Token;
  _quote_token : Hydration_Token;
  _account : string;
  _numbers : Stableswap_Pair N;
  _price : option F
}.

(** The setter of [price]. *)
Definition set_price (self : Stableswap_Pair_object) (price : F)
  : Stableswap_Pair_object :=
  {| _base_token := _base_token self;
     _quote_token := _quote_token self;
     _account := _account self;
     _numbers := _numbers self;
     _price := Some price |}.

(** [Hydration_Request].  [block_number] is the attribute that
    [request_price] creates; before, it is absent ([None]). *)
Record Hydration_Request : Type := {
  _token_pair : Stableswap_Pair_object;
  _client : SubstrateInterface;
  _block_number : option Z;
  block_number : option Z
}.

(** [Hydration_Request(token_pair, client, block_number)]. *)
Definition new_request (token_pair : Stableswap_Pair_object)
  (client : SubstrateInterface) (block_number : option Z) : Hydration_Request :=
  {| _token_pair := token_pair;
     _client := client;
     _block_number := block_number;
     block_number := None |}.

Definition fetch_current_block (self : Hydration_Request) : result Z :=
  query_System_Number (_client self).

Definition fetch_blockhash_by_block_number (self : Hydration_Request)
  (block_number : option Z) : result (option string) :=
  rpc_chain_getBlockHash (_client self) block_number.

(** [dct.get('free') / (10 ** token._decimals)]: [None] cannot be divided;
    the power is an int for an exponent that is not negative and a float
    otherwise. *)
Definition scaled_balance (free : option Z) (decimals : Z) : result F :=
  match free with
  | None => Raise TypeError
  | Some a =>
      if (0 <=? decimals)%Z then int_truediv a (10 ^ decimals)
      else af <- float_of_int a ;; truediv af (pow10_float decimals)
  end.

(** [for token in (base, quote): token_dict[token._id] = token]. *)
Definition token_dict_of (pair : Stableswap_Pair_object)
  : list (Z * Hydration_Token) :=
  let base := _base_token pair in
  let quote := _quote_token pair in
  dict_set Z.eqb (dict_set Z.eqb [] (_id base) base) (_id quote) quote.

(** The loop over the entries of the account. *)
Fixpoint balances_loop (token_dict : list (Z * Hydration_Token))
  (entries : list (Z * option Z)) (balances : list (string * F))
  : result (list (string * F)) :=
  match entries with
  | [] => Ok balances
  | (k, free) :: rest =>
      token <- dict_get Z.eqb token_dict k ;;
      balance <- scaled_balance free (_decimals token) ;;
      balances_loop token_dict rest
        (dict_set String.eqb balances (_name token) balance)
  end.

Definition request_token_balances (self : Hydration_Request)
  : result (list (string * F)) :=
  let token_dict := token_dict_of (_token_pair self) in
  block_hash <- fetch_blockhash_by_block_number self (_block_number self) ;;
  entries <- query_map_Tokens_Accounts (_client self)
               (_account (_token_pair self)) block_hash ;;
  balances_loop token_dict entries [].

(** The method returns the price and leaves the request object in a new
    state: the assignment of its first statement is to [block_number], not
    to [_block_number].  [price_at_balance] is called with its default
    indices, [i = 1] and [j = 0]. *)
Definition request_price (self : Hydration_Request)
  : result F * Hydration_Request :=
  let fetched :=
    match _block_number self with
    | None =>
        n <- fetch_current_block self ;;
        Ok {| _token_pair := _token_pair self;
              _client := _client self;
              _block_number := _block_number self;
              block_number := Some n |}
    | Some _ => Ok self
    end in
  match fetched with
  | Raise e => (Raise e, self)
  | Ok self' =>
      let pair := _token_pair self' in
      (balances <- request_token_balances self' ;;
       base <- dict_get String.eqb balances (_name (_base_token pair)) ;;
       quote <- dict_get String.eqb balances (_name (_quote_token pair)) ;;
       price_at_balance (_numbers pair) [base; quote] 1 0,
       self')
  end.

(** [1 / price]. *)
Definition reciprocal (price : F) : result F :=
  one <- float_of_int 1 ;; truediv one price.

(** [Stableswap_Pair.get_price]: what the call returns or raises, and the
    pair object afterwards.  (The default of [client] is a connection that
    is opened when the class is defined; the model takes the client as an
    argument.) *)
Definition get_price (self : Stableswap_Pair_object)
  (client : SubstrateInterface) (block_number : option Z) (inverse : bool)
  : result F * Stableswap_Pair_object :=
  let request := new_request self client block_number in
  match fst (request_price request) with
  | Raise e => (Raise e, self)
  | Ok price =>
      if negb inverse then (Ok price, set_price self price)
      else
        match reciprocal price with
        | Raise e => (Raise e, self)
        | Ok p => (reciprocal price, set_price self p)
        end
  end.

End Request.

(* ================================================================== *)
(** * Properties that hold in every arithmetic                         *)
(* ================================================================== *)

(** ** The runtime *)

Lemma bind_Ok {A B : Type} (r : result A) (k : A -> result B) (b : B) :
  bind r k = Ok b -> exists a, r = Ok a /\ k a = Ok b.
Proof.
  destruct r as [a | e]; simpl; intros H.
  - exists a. split; [reflexivity | exact H].
  - discriminate H.
Qed.

Lemma bind_Raise {A B : Type} (r : result A) (k : A -> result B) (e : exn) :
  bind r k = Raise e ->
  r = Raise e \/ exists a, r = Ok a /\ k a = Raise e.
Proof.
  destruct r as [a | e']; simpl; intros H.
  - right. exists a. split; [reflexivity | exact H].
  - left. congruence.
Qed.

Lemma mapM_total {A B : Type} (f : A -> result B) (g : A -> B) (xs : list A) :
  Forall (fun x => f x = Ok (g x)) xs -> mapM f xs = Ok (map g xs).
Proof.
  induction 1 as [| x xs Hx _ IH]; simpl.
  - reflexivity.
  - rewrite Hx. simpl. rewrite IH. reflexivity.
Qed.

Lemma mapM_Raise {A B : Type} (f : A -> result B) (xs : list A) (e : exn) :
  mapM f xs = Raise e -> exists x, In x xs /\ f x = Raise e.
Proof.
  induction xs as [| x xs IH]; simpl; intros H.
  - discriminate H.
  - destruct (f x) as [y | e'] eqn:Hfx; simpl in H.
    + destruct (mapM f xs) as [ys | e''] eqn:Hxs; simpl in H.
      * discriminate H.
      * destruct (IH H) as [x' [Hin Hx']]. exists x'. auto.
    + exists x. split; [now left | congruence].
Qed.

Lemma len_nonneg {A : Type} (l : list A) : (0 <= len l)%Z.
Proof. unfold len. lia. Qed.

Lemma len_map {A B : Type} (f : A -> B) (l : list A) : len (map f l) = len l.
Proof. unfold len. rewrite length_map. reflexivity. Qed.

Lemma slice_to_minus_one {A : Type} (l : list A) :
  slice_to l (-1) = removelast l.
Proof.
  unfold slice_to, len. simpl.
  rewrite removelast_firstn_len. f_equal. lia.
Qed.

Lemma slice_to_all {A : Type} (l : list A) (k : Z) :
  (len l <= k)%Z -> slice_to l k = l.
Proof.
  unfold slice_to, len. intros H.
  destruct (k <? 0)%Z eqn:Hk.
  - apply Z.ltb_lt in Hk. lia.
  - apply firstn_all2. lia.
Qed.

Lemma getitem_nth {A : Type} (l : list A) (k : Z) :
  (0 <= k < len l)%Z ->
  exists v, nth_error l (Z.to_nat k) = Some v /\ getitem l k = Ok v.
Proof.
  unfold getitem, len. intros [H0 H1].
  destruct (k <? 0)%Z eqn:Hk; [apply Z.ltb_lt in Hk; lia |].
  cbv zeta. rewrite Hk.
  destruct (nth_error l (Z.to_nat k)) as [v |] eqn:Hn.
  - exists v. split; reflexivity.
  - apply nth_error_None in Hn. lia.
Qed.

Lemma getitem_In {A : Type} (l : list A) (i : Z) (v : A) :
  getitem l i = Ok v -> In v l.
Proof.
  unfold getitem.
  destruct ((if (i <? 0)%Z then (i + len l)%Z else i) <? 0)%Z; [discriminate |].
  destruct (nth_error l _) as [x |] eqn:Hn; [| discriminate].
  intros H. injection H as <-. eapply nth_error_In. exact Hn.
Qed.

Lemma getitem_in_range {A : Type} (l : list A) (i : Z) :
  (- len l <= i < len l)%Z -> exists v, getitem l i = Ok v.
Proof.
  unfold getitem, len. intros H.
  set (k := if (i <? 0)%Z then (i + Z.of_nat (List.length l))%Z else i).
  assert (Hk : (0 <= k < Z.of_nat (List.length l))%Z).
  { unfold k. destruct (i <? 0)%Z eqn:Hi.
    - apply Z.ltb_lt in Hi. lia.
    - apply Z.ltb_ge in Hi. lia. }
  destruct (k <? 0)%Z eqn:Hk0; [apply Z.ltb_lt in Hk0; lia |].
  destruct (nth_error l (Z.to_nat k)) as [v |] eqn:Hn.
  - exists v. reflexivity.
  - apply nth_error_None in Hn. lia.
Qed.

Section Generic.

Context {N : FloatOps}.

(** ** Sorting *)

(** A list is descending when no element is smaller than its successor. *)
Definition descending (l : list F) : Prop :=
  Sorted (fun a b => fltb a b = false) l.

Lemma insert_desc_perm (x : F) (l : list F) :
  Permutation (x :: l) (insert_desc x l).
Proof.
  induction l as [| y l IH]; simpl.
  - apply Permutation_refl.
  - destruct (fltb x y).
    + eapply perm_trans; [apply perm_swap |].
      apply perm_skip. exact IH.
    + apply Permutation_refl.
Qed.

Lemma sort_reverse_perm (l : list F) : Permutation l (sort_reverse l).
Proof.
  induction l as [| x l IH]; simpl.
  - apply perm_nil.
  - eapply perm_trans; [apply perm_skip; exact IH |].
    apply insert_desc_perm.
Qed.

Lemma sort_reverse_length (l : list F) :
  List.length (sort_reverse l) = List.length l.
Proof. symmetry. apply Permutation_length, sort_reverse_perm. Qed.

Lemma insert_asc_perm (x : F) (l : list F) :
  Permutation (x :: l) (insert_asc x l).
Proof.
  induction l as [| y l IH]; simpl.
  - apply Permutation_refl.
  - destruct (fltb y x).
    + eapply perm_trans; [apply perm_swap |]. apply perm_skip. exact IH.
    + apply Permutation_refl.
Qed.

Lemma sorted_perm (l : list F) : Permutation l (sorted l).
Proof.
  induction l as [| x l IH]; simpl.
  - apply perm_nil.
  - eapply perm_trans; [apply perm_skip; exact IH |]. apply insert_asc_perm.
Qed.

Section Asymmetric.

Hypothesis fltb_asym : forall x y : F, fltb x y = true -> fltb y x = false.

Lemma insert_desc_hd (a x : F) (l : list F) :
  fltb a x = false -> HdRel (fun a b => fltb a b = false) a l ->
  HdRel (fun a b => fltb a b = false) a (insert_desc x l).
Proof.
  intros Hax Hl. destruct l as [| y l]; simpl.
  - constructor. exact Hax.
  - destruct (fltb x y); constructor.
    + inversion Hl; assumption.
    + exact Hax.
Qed.

Lemma insert_desc_sorted (x : F) (l : list F) :
  descending l -> descending (insert_desc x l).
Proof.
  unfold descending. induction 1 as [| y l Hs IH Hhd]; simpl.
  - repeat constructor.
  - destruct (fltb x y) eqn:Hxy.
    + constructor; [exact IH |].
      apply insert_desc_hd; [apply fltb_asym; exact Hxy | exact Hhd].
    + constructor; [constructor; assumption |].
      constructor. exact Hxy.
Qed.

Lemma sort_reverse_sorted (l : list F) : descending (sort_reverse l).
Proof.
  induction l as [| x l IH]; simpl.
  - constructor.
  - apply insert_desc_sorted. exact IH.
Qed.

End Asymmetric.

End Generic.

Section Solver.

Context {N : FloatOps}.
Variable tp : Stableswap_Pair N.

(** ** The convergence test *)

(** The test in the words of the specification: with [diff = |prev - next|],
    converged if ([next <= prev] and [diff < precision]) or ([next > prev]
    and [diff <= precision]). *)
Definition converged_spec (precision prev next : F) : Prop :=
  let diff := fabs (fsub prev next) in
  (fleb next prev = true /\ fltb diff precision = true) \/
  (fltb prev next = true /\ fleb diff precision = true).

(** ** What the solver can return and raise *)

Lemma float_of_int_Raise (z : Z) (e : exn) :
  float_of_int z = Raise e -> e = OverflowError.
Proof.
  unfold float_of_int. destruct (of_int z); congruence.
Qed.

Lemma imulf_Raise (z : Z) (x : F) (e : exn) :
  imulf z x = Raise e -> e = OverflowError.
Proof.
  unfold imulf. intros H. apply bind_Raise in H.
  destruct H as [H | [a [_ H]]]; [| discriminate H].
  eapply float_of_int_Raise; eassumption.
Qed.

Lemma fmuli_Raise (x : F) (z : Z) (e : exn) :
  fmuli x z = Raise e -> e = OverflowError.
Proof.
  unfold fmuli. intros H. apply bind_Raise in H.
  destruct H as [H | [a [_ H]]]; [| discriminate H].
  eapply float_of_int_Raise; eassumption.
Qed.

Lemma truediv_Raise (x y : F) (e : exn) :
  truediv x y = Raise e -> e = ZeroDivisionError.
Proof.
  unfold truediv. destruct (feqb y f0); congruence.
Qed.

(** The exceptions of the arithmetic: a zero divisor, or an int operand
    beyond the float range. *)
Definition arithmetic_exn (e : exn) : Prop :=
  e = ZeroDivisionError \/ e = OverflowError.

Lemma d_p_loop_Raise (d : F) (n : Z) (xs : list F) (d_p : F) (e : exn) :
  d_p_loop d n xs d_p = Raise e -> arithmetic_exn e.
Proof.
  revert d_p. induction xs as [| x xs IH]; simpl; intros d_p H.
  - discriminate H.
  - apply bind_Raise in H. destruct H as [H | [xn [_ H]]].
    + right. eapply fmuli_Raise; eassumption.
    + apply bind_Raise in H. destruct H as [H | [q [_ H]]].
      * left. eapply truediv_Raise; eassumption.
      * eapply IH; eassumption.
Qed.

Lemma newton_step_Raise (ann n_coins : Z) (s : F) (xs : list F) (d : F) (e : exn) :
  newton_step ann n_coins s xs d = Raise e -> arithmetic_exn e.
Proof.
  unfold newton_step. intros H.
  apply bind_Raise in H. destruct H as [H | [d_p [_ H]]].
  { eapply d_p_loop_Raise; eassumption. }
  apply bind_Raise in H. destruct H as [H | [a1 [_ H]]].
  { right. eapply imulf_Raise; eassumption. }
  apply bind_Raise in H. destruct H as [H | [a2 [_ H]]].
  { right. eapply fmuli_Raise; eassumption. }
  apply bind_Raise in H. destruct H as [H | [b1 [_ H]]].
  { right. eapply imulf_Raise; eassumption. }
  apply bind_Raise in H. destruct H as [H | [b2 [_ H]]].
  { right. eapply imulf_Raise; eassumption. }
  left. eapply truediv_Raise; eassumption.
Qed.

Lemma calculate_d_loop_Raise (ann n_coins : Z) (s : F) (xs : list F)
  (iterations : nat) (d : F) (e : exn) :
  calculate_d_loop tp ann n_coins s xs iterations d = Raise e ->
  arithmetic_exn e.
Proof.
  revert d. induction iterations as [| k IH]; simpl; intros d H.
  - discriminate H.
  - apply bind_Raise in H. destruct H as [H | [d' [_ H]]].
    + eapply newton_step_Raise; eassumption.
    + destruct (has_converged tp d d'); [discriminate H |].
      eapply IH; eassumption.
Qed.

(** X4.  The solver has no error of its own: whatever it raises comes
    from the arithmetic, a zero divisor or an int beyond the float
    range. *)
Lemma calculate_d_Raise (balances : list F) (max_iterations : Z) (e : exn) :
  calculate_d tp balances max_iterations = Raise e -> arithmetic_exn e.
Proof.
  unfold calculate_d.
  destruct (feqb (sum (sorted balances)) f0); [discriminate |].
  apply calculate_d_loop_Raise.
Qed.

(** [never_converges k d]: starting from [d], each of the next [k] Newton
    updates is computed and fails the convergence test. *)
Fixpoint never_converges (ann n_coins : Z) (s : F) (xp_sorted : list F)
  (k : nat) (d : F) : bool :=
  match k with
  | O => true
  | S k' =>
      match newton_step ann n_coins s xp_sorted d with
      | Ok d' =>
          negb (has_converged tp d d')
          && never_converges ann n_coins s xp_sorted k' d'
      | Raise _ => false
      end
  end.

Lemma calculate_d_loop_exhausted (ann n_coins : Z) (s : F) (xs : list F)
  (k : nat) (d : F) :
  never_converges ann n_coins s xs k d = true ->
  calculate_d_loop tp ann n_coins s xs k d = Ok VNone.
Proof.
  revert d. induction k as [| k IH]; simpl; intros d H.
  - reflexivity.
  - destruct (newton_step ann n_coins s xs d) as [d' | e]; [| discriminate H].
    simpl. apply andb_prop in H. destruct H as [Hc Hrest].
    apply negb_true_iff in Hc. rewrite Hc. apply IH. exact Hrest.
Qed.

(** A loop that returns a float returns an iterate that passed the test. *)
Lemma calculate_d_loop_converged (ann n_coins : Z) (s : F) (xs : list F)
  (k : nat) (d x : F) :
  calculate_d_loop tp ann n_coins s xs k d = Ok (VFloat x) ->
  exists d_prev, newton_step ann n_coins s xs d_prev = Ok x
                 /\ has_converged tp d_prev x = true.
Proof.
  revert d. induction k as [| k IH]; simpl; intros d H.
  - discriminate H.
  - destruct (newton_step ann n_coins s xs d) as [d' | e] eqn:Hs;
      [| discriminate H].
    simpl in H. destruct (has_converged tp d d') eqn:Hc.
    + injection H as <-. exists d. auto.
    + eapply IH; eassumption.
Qed.

End Solver.

Section SolverClaims.

Context {N : FloatOps}.
Variable tp : Stableswap_Pair N.

(** C2.  For all successive iterates [prev] and [next] and every precision
    of the token pair, [has_converged] accepts exactly when the test of the
    specification holds: with [diff = |prev - next|], either [next <= prev]
    and [diff < precision] (strict), or [next > prev] and
    [diff <= precision] (non-strict). *)
Theorem has_converged_iff_spec (prev next : F) :
  has_converged tp prev next = true
  <-> converged_spec (_precision tp) prev next.
Proof.
  unfold has_converged, converged_spec. cbv zeta.
  destruct (fleb next prev), (fltb (fabs (fsub prev next)) (_precision tp)),
    (fltb prev next), (fleb (fabs (fsub prev next)) (_precision tp));
    simpl; split; intros H;
    try reflexivity; try discriminate H; auto;
    destruct H as [[H1 H2] | [H1 H2]]; discriminate.
Qed.

(** X3.  A float returned by [calculate_d] is a Newton update that passed
    the convergence test against the iterate before it. *)
Theorem calculate_d_returns_converged
  (balances : list F) (max_iterations : Z) (x : F) :
  calculate_d tp balances max_iterations = Ok (VFloat x) ->
  exists d_prev : F,
    newton_step (_amplification tp * len balances) (len balances)
                (sum (sorted balances)) (sorted balances) d_prev = Ok x
    /\ converged_spec (_precision tp) d_prev x.
Proof.
  unfold calculate_d.
  destruct (feqb (sum (sorted balances)) f0); [discriminate |].
  intros H. apply calculate_d_loop_converged in H.
  destruct H as [d_prev [Hstep Hconv]].
  exists d_prev. split; [exact Hstep |].
  unfold has_converged in Hconv. unfold converged_spec. cbv zeta.
  destruct (fleb x d_prev), (fltb (fabs (fsub d_prev x)) (_precision tp)),
    (fltb d_prev x), (fleb (fabs (fsub d_prev x)) (_precision tp));
    simpl in Hconv; try discriminate Hconv; auto.
Qed.

(** Whenever the sum of the balances is not zero and none of the
    [max_iterations] Newton updates passes the convergence test,
    [calculate_d] returns [None]: it does not raise. *)
Lemma calculate_d_exhausted
  (balances : list F) (max_iterations : Z) :
  let n_coins := len balances in
  let ann := (_amplification tp * n_coins)%Z in
  let xp_sorted := sorted balances in
  let s := sum xp_sorted in
  feqb s f0 = false ->
  never_converges tp ann n_coins s xp_sorted (Z.to_nat max_iterations) s = true ->
  calculate_d tp balances max_iterations = Ok VNone.
Proof.
  cbv zeta. intros Hs Hnever. unfold calculate_d. rewrite Hs.
  apply calculate_d_loop_exhausted. exact Hnever.
Qed.

(** C6, the amended claim.  When the balances sum to zero (the sum the
    code computes: of the sorted balances, from the left), [calculate_d]
    returns the int [0] for every iteration bound.  [price_at_balance] does
    not validate its input: if moreover the smallest balance [x] gives
    [n * x == 0], as in a pool with no funds at all, the first pass of its
    loop divides by that zero and the call raises [ZeroDivisionError]. *)
Theorem degenerate_pool (balances : list F) :
  feqb (sum (sorted balances)) f0 = true ->
  (forall max_iterations : Z,
      calculate_d tp balances max_iterations = Ok (VInt 0))
  /\ (forall (x : F) (rest : list F) (zf nf : F) (i j : Z),
         sorted balances = x :: rest ->
         of_int 0 = Some zf ->
         of_int (len balances) = Some nf ->
         feqb (fmul nf x) f0 = true ->
         price_at_balance tp balances i j = Raise ZeroDivisionError).
Proof.
  intros Hs. split.
  - intros max_iterations. unfold calculate_d. rewrite Hs. reflexivity.
  - intros x rest zf nf i j Hsorted Hz Hn Hnx.
    unfold price_at_balance, calculate_d. rewrite Hs. simpl.
    rewrite Hsorted. simpl.
    unfold imulf, float_of_int. rewrite Hn. simpl.
    unfold float_of_int. rewrite Hz. simpl.
    unfold truediv. rewrite Hnx. reflexivity.
Qed.

End SolverClaims.

Section Drawdowns.

Context {N : FloatOps}.

(** The drawdown sample of a path, [min(path) / path[0] - 1]. *)
Definition drawdown (path : list F) : F :=
  match path with
  | [] => f0
  | x :: rest => fsub (fdiv (min_from x rest) x) f1
  end.

(** The [at_step] the method works with once the default is resolved. *)
Definition resolved_step (at_step : option Z) : Z :=
  match at_step with
  | None => (-1)%Z
  | Some k => k
  end.

(** On a series that has a first element the drawdown is computed and
    returned, whatever that element is: nothing checks the divisor. *)
Lemma get_initial_drawdown_nonempty (x : F) (rest : list F) :
  get_initial_drawdown (x :: rest) = Ok (drawdown (x :: rest)).
Proof. reflexivity. Qed.

Lemma get_initial_drawdown_Ok (series : list F) :
  series <> [] -> get_initial_drawdown series = Ok (drawdown series).
Proof.
  destruct series as [| x rest]; [congruence | reflexivity].
Qed.

Lemma get_initial_drawdown_Raise (series : list F) (e : exn) :
  get_initial_drawdown series = Raise e -> e = ValueError.
Proof.
  destruct series as [| x rest]; cbn; intros H.
  - injection H as <-. reflexivity.
  - discriminate H.
Qed.

Lemma mapM_ext {A B : Type} (f g : A -> result B) (xs : list A) :
  (forall x, f x = g x) -> mapM f xs = mapM g xs.
Proof.
  intros H. induction xs as [| x xs IH]; simpl.
  - reflexivity.
  - rewrite H, IH. reflexivity.
Qed.

Lemma threshold_from_drawdowns_Raise (ds : list F) (alpha : F) (e : exn) :
  threshold_from_drawdowns ds alpha = Raise e ->
  e = OverflowError \/ e = ValueError \/ e = IndexError.
Proof.
  unfold threshold_from_drawdowns. intros H.
  apply bind_Raise in H. destruct H as [H | [pos [_ H]]].
  { left. eapply imulf_Raise; eassumption. }
  apply bind_Raise in H. destruct H as [H | [index [_ H]]].
  { unfold py_int in H. destruct (to_int pos); try discriminate H;
      injection H as <-; auto. }
  apply bind_Raise in H. destruct H as [H | [v [_ H]]]; [| discriminate H].
  unfold getitem in H.
  destruct (_ <? 0)%Z; [injection H as <-; auto |].
  destruct (nth_error _ _); [discriminate H | injection H as <-; auto].
Qed.

(** The method from the loop on, for a collection that passed the check. *)
Lemma get_threshold_multiplier_checked
  (path0 : list F) (others : list (list F)) (alpha : F) (at_step : option Z) :
  (resolved_step at_step <= len path0)%Z ->
  get_threshold_multiplier (path0 :: others) alpha at_step =
  (initial_drawdowns <-
     mapM (fun path => get_initial_drawdown
                         (slice_to path (resolved_step at_step)))
          (path0 :: others) ;;
   threshold_from_drawdowns initial_drawdowns alpha).
Proof.
  intros H. unfold get_threshold_multiplier.
  fold (resolved_step at_step). cbn [series_first_path bind].
  destruct (len path0 <? resolved_step at_step)%Z eqn:Hlt.
  - apply Z.ltb_lt in Hlt. lia.
  - reflexivity.
Qed.

(** A collection that passes the check and whose paths, cut at the step,
    all have a first element: the loop collects their drawdowns. *)
Lemma get_threshold_multiplier_total
  (path0 : list F) (others : list (list F)) (alpha : F) (at_step : option Z) :
  (resolved_step at_step <= len path0)%Z ->
  Forall (fun path => slice_to path (resolved_step at_step) <> [])
         (path0 :: others) ->
  get_threshold_multiplier (path0 :: others) alpha at_step =
  threshold_from_drawdowns
    (map (fun path => drawdown (slice_to path (resolved_step at_step)))
         (path0 :: others))
    alpha.
Proof.
  intros Hstep Hne.
  rewrite get_threshold_multiplier_checked by exact Hstep.
  rewrite (mapM_total _
    (fun path => drawdown (slice_to path (resolved_step at_step)))).
  - reflexivity.
  - eapply Forall_impl; [| exact Hne].
    intros path Hp. apply get_initial_drawdown_Ok. exact Hp.
Qed.

Lemma threshold_from_drawdowns_value
  (ds : list F) (alpha nf : F) (k : Z) (v : F) :
  of_int (len ds) = Some nf ->
  to_int (fmul nf alpha) = IsInt k ->
  getitem (sort_reverse ds) k = Ok v ->
  threshold_from_drawdowns ds alpha = Ok (fdiv f1 (fadd f1 v)).
Proof.
  intros Hn Hk Hget. unfold threshold_from_drawdowns.
  assert (Hlen : len (sort_reverse ds) = len ds).
  { unfold len. rewrite sort_reverse_length. reflexivity. }
  rewrite Hlen. unfold imulf, float_of_int. rewrite Hn. cbn [bind].
  unfold py_int. rewrite Hk. cbn [bind]. rewrite Hget. reflexivity.
Qed.

(** When [at_step] is not given the method works with [at_step = -1], and
    every drawdown sample is computed on the path without its last
    element. *)
Lemma default_step_removes_last (paths : list (list F)) (alpha : F) :
  get_threshold_multiplier paths alpha None =
  (_ <- series_first_path paths ;;
   initial_drawdowns <-
     mapM (fun path => get_initial_drawdown (removelast path)) paths ;;
   threshold_from_drawdowns initial_drawdowns alpha).
Proof.
  destruct paths as [| path0 others].
  - reflexivity.
  - rewrite get_threshold_multiplier_checked
      by (simpl; pose proof (len_nonneg path0); lia).
    cbn [series_first_path bind resolved_step].
    f_equal. apply mapM_ext. intros path.
    rewrite slice_to_minus_one. reflexivity.
Qed.

(** C8, the amended claim.  For every collection and every given
    [at_step] that exceeds the length of the first path, the method raises
    its range exception before it computes any drawdown. *)
Theorem step_beyond_first_path_raises
  (path0 : list F) (others : list (list F)) (alpha : F) (step : Z) :
  (len path0 < step)%Z ->
  get_threshold_multiplier (path0 :: others) alpha (Some step)
  = Raise (Exception step_error).
Proof.
  intros H. unfold get_threshold_multiplier. cbn [series_first_path bind].
  apply Z.ltb_lt in H. rewrite H. reflexivity.
Qed.

(** C10.  [at_step] is compared with the length of the first path only:
    for every collection whose first path has at least [at_step] elements
    the method does not raise the range exception (nor any [Exception] of
    another message), however short the other paths are. *)
Theorem step_checked_against_first_path_only
  (path0 : list F) (others : list (list F)) (alpha : F) (step : Z) :
  (step <= len path0)%Z ->
  forall msg : string,
    get_threshold_multiplier (path0 :: others) alpha (Some step)
    <> Raise (Exception msg).
Proof.
  intros H msg Hraise.
  rewrite get_threshold_multiplier_checked in Hraise by exact H.
  apply bind_Raise in Hraise. destruct Hraise as [Hr | [ds [_ Hr]]].
  - apply mapM_Raise in Hr. destruct Hr as [path [_ Hr]].
    apply get_initial_drawdown_Raise in Hr. discriminate Hr.
  - apply threshold_from_drawdowns_Raise in Hr.
    destruct Hr as [Hr | [Hr | Hr]]; discriminate Hr.
Qed.

End Drawdowns.

(** ** Elements of slices and minima *)

Lemma firstn_In {A : Type} (n : nat) (l : list A) (x : A) :
  In x (firstn n l) -> In x l.
Proof.
  revert l. induction n as [| n IH]; intros [| y l]; simpl; try tauto.
  intros [H | H]; [left; exact H | right; apply IH; exact H].
Qed.

Lemma slice_to_In {A : Type} (l : list A) (k : Z) (x : A) :
  In x (slice_to l k) -> In x l.
Proof.
  unfold slice_to. destruct (k <? 0)%Z; apply firstn_In.
Qed.

Lemma min_from_In {N : FloatOps} (x : F) (rest : list F) :
  In (min_from x rest) (x :: rest).
Proof.
  unfold min_from. revert x. induction rest as [| y rest IH]; intros x.
  - left. reflexivity.
  - cbn [fold_left]. destruct (fltb y x).
    + right. apply IH.
    + destruct (IH x) as [H | H]; [left; exact H | right; right; exact H].
Qed.

(* ================================================================== *)
(** * Rounding in the binary64 format                                  *)
(* ================================================================== *)

(** The operations of the doubles are specified by the functions [SFadd],
    [SFsub] and [SFdiv] of the standard library on [spec_float], a sign, a
    mantissa [m] and an exponent [e] standing for [m * 2^e].  This module
    bounds what their rounding returns for operands between 0 and 1: it
    is what the sign argument of the specification ("every drawdown sample
    is at most 0") needs on the actual floats. *)
Module Rounding.

Local Open Scope Z_scope.

Lemma fexp64_eq (t : Z) : fexp prec emax t = Z.max (t - 53) (-1074).
Proof. reflexivity. Qed.

Lemma digits2_pos_size (p : positive) : digits2_pos p = Pos.size p.
Proof. induction p; simpl; congruence. Qed.

Lemma Zdigits2_log2 (m : Z) : 0 < m -> Zdigits2 m = Z.log2 m + 1.
Proof.
  destruct m as [| p | p]; try lia. intros _.
  simpl. rewrite digits2_pos_size.
  destruct p; simpl; lia.
Qed.

Lemma Zdigits2_nonneg (m : Z) : 0 <= Zdigits2 m.
Proof. destruct m; simpl; lia. Qed.

Lemma digits_lt_pow (m k : Z) :
  0 < m -> 0 <= k -> (m < 2 ^ k <-> Zdigits2 m <= k).
Proof.
  intros Hm Hk. rewrite Zdigits2_log2 by exact Hm.
  rewrite (Z.log2_lt_pow2 m k Hm). lia.
Qed.

Lemma digits_pow_le (m k : Z) :
  0 < m -> 0 <= k -> (2 ^ k <= m <-> k + 1 <= Zdigits2 m).
Proof.
  intros Hm Hk. rewrite Zdigits2_log2 by exact Hm.
  rewrite (Z.log2_le_pow2 m k Hm). lia.
Qed.

Lemma digits_mono (a b : Z) : 0 < a -> a <= b -> Zdigits2 a <= Zdigits2 b.
Proof.
  intros Ha Hab. rewrite !Zdigits2_log2 by lia.
  pose proof (Z.log2_le_mono a b Hab). lia.
Qed.

Lemma digits_div_pow2 (m p : Z) :
  0 < m -> 0 <= p -> p < Zdigits2 m ->
  0 < m / 2 ^ p /\ Zdigits2 (m / 2 ^ p) = Zdigits2 m - p.
Proof.
  intros Hm Hp Hlt.
  rewrite (Zdigits2_log2 Hm) in Hlt.
  assert (Hpow : 2 ^ p <= m).
  { apply Z.log2_le_pow2; lia. }
  assert (Hq : 0 < m / 2 ^ p).
  { apply Z.div_str_pos. split; [apply Z.pow_pos_nonneg; lia | exact Hpow]. }
  split; [exact Hq |].
  rewrite !Zdigits2_log2 by lia.
  rewrite <- Z.shiftr_div_pow2 by lia.
  rewrite Z.log2_shiftr by lia. lia.
Qed.

(** ** Shifting a mantissa to the right *)

Lemma pow2_pos (k : Z) : 0 <= k -> 0 < 2 ^ k.
Proof. intros H. apply Z.pow_pos_nonneg; lia. Qed.

Lemma shr_1_m (mrs : shr_record) :
  0 <= shr_m mrs -> shr_m (shr_1 mrs) = shr_m mrs / 2.
Proof.
  destruct mrs as [m r s]. cbn [shr_m]. intros H.
  destruct m as [| [q | q |] | q]; cbn [shr_1 shr_m]; try lia.
  - reflexivity.
  - rewrite Pos2Z.inj_xI. Z.div_mod_to_equations. lia.
  - rewrite Pos2Z.inj_xO. Z.div_mod_to_equations. lia.
  - reflexivity.
Qed.

Lemma pow2_xO (p : positive) : 2 ^ Zpos p~0 = 2 ^ Zpos p * 2 ^ Zpos p.
Proof.
  rewrite (Pos2Z.inj_xO p). rewrite <- Z.pow_add_r by lia. f_equal. lia.
Qed.

Lemma pow2_xI (p : positive) : 2 ^ Zpos p~1 = 2 * (2 ^ Zpos p * 2 ^ Zpos p).
Proof.
  rewrite (Pos2Z.inj_xI p). rewrite Z.pow_add_r by lia.
  rewrite <- pow2_xO. rewrite (Pos2Z.inj_xO p). change (2 ^ 1) with 2. lia.
Qed.

Lemma iter_shr_m (p : positive) (mrs : shr_record) :
  0 <= shr_m mrs ->
  shr_m (SpecFloat.iter_pos shr_1 p mrs) = shr_m mrs / 2 ^ Zpos p.
Proof.
  revert mrs. induction p as [p IH | p IH |]; intros mrs H; cbn [SpecFloat.iter_pos].
  - assert (H1 : 0 <= shr_m (shr_1 mrs)).
    { rewrite shr_1_m by exact H. apply Z.div_pos; lia. }
    assert (H2 : 0 <= shr_m (SpecFloat.iter_pos shr_1 p (shr_1 mrs))).
    { rewrite IH by exact H1. apply Z.div_pos; [exact H1 | apply pow2_pos; lia]. }
    rewrite IH by exact H2. rewrite IH by exact H1.
    rewrite shr_1_m by exact H.
    pose proof (@pow2_pos (Zpos p) ltac:(lia)) as Hp.
    rewrite !Z.div_div by lia.
    f_equal. rewrite pow2_xI. lia.
  - assert (H1 : 0 <= shr_m (SpecFloat.iter_pos shr_1 p mrs)).
    { rewrite IH by exact H. apply Z.div_pos; [exact H | apply pow2_pos; lia]. }
    rewrite IH by exact H1. rewrite IH by exact H.
    pose proof (@pow2_pos (Zpos p) ltac:(lia)) as Hp.
    rewrite Z.div_div by lia.
    f_equal. rewrite pow2_xO. reflexivity.
  - rewrite shr_1_m by exact H. reflexivity.
Qed.

Lemma shr_1_exact (m : Z) :
  0 <= m -> m mod 2 = 0 ->
  shr_1 (Build_shr_record m false false) = Build_shr_record (m / 2) false false.
Proof.
  intros Hm Heven.
  destruct m as [| [q | q |] | q]; cbn [shr_1 orb]; try lia; try reflexivity.
  - rewrite (Pos2Z.inj_xI q) in Heven. Z.div_mod_to_equations. lia.
  - rewrite (Pos2Z.inj_xO q). f_equal. Z.div_mod_to_equations. lia.
  - discriminate Heven.
Qed.

Lemma iter_shr_exact (p : positive) (m : Z) :
  0 <= m -> m mod 2 ^ Zpos p = 0 ->
  SpecFloat.iter_pos shr_1 p (Build_shr_record m false false)
  = Build_shr_record (m / 2 ^ Zpos p) false false.
Proof.
  revert m. induction p as [p IH | p IH |]; intros m Hm Hmod; cbn [SpecFloat.iter_pos].
  - pose proof (@pow2_pos (Zpos p) ltac:(lia)) as Hp.
    rewrite pow2_xI in *.
    apply Z.mod_divide in Hmod; [| lia]. destruct Hmod as [k Hk].
    rewrite shr_1_exact; [| exact Hm |].
    2:{ apply Z.mod_divide; [lia |].
        exists (k * (2 ^ Z.pos p * 2 ^ Z.pos p)). lia. }
    assert (Hm2 : m / 2 = k * 2 ^ Z.pos p * 2 ^ Z.pos p).
    { rewrite Hk. replace (k * (2 * (2 ^ Z.pos p * 2 ^ Z.pos p)))
        with ((k * 2 ^ Z.pos p * 2 ^ Z.pos p) * 2) by lia.
      apply Z.div_mul. lia. }
    rewrite IH; [| lia |].
    + rewrite IH.
      * f_equal. rewrite !Z.div_div by lia. reflexivity.
      * apply Z.div_pos; lia.
      * rewrite Hm2. rewrite Z.div_mul by lia.
        apply Z.mod_mul. lia.
    + rewrite Hm2. apply Z.mod_divide; [lia |].
      exists (k * 2 ^ Z.pos p). lia.
  - pose proof (@pow2_pos (Zpos p) ltac:(lia)) as Hp.
    rewrite pow2_xO in *.
    apply Z.mod_divide in Hmod; [| lia]. destruct Hmod as [k Hk].
    rewrite IH; [| exact Hm |].
    + rewrite IH.
      * f_equal. rewrite Z.div_div by lia. reflexivity.
      * apply Z.div_pos; lia.
      * rewrite Hk. replace (k * (2 ^ Z.pos p * 2 ^ Z.pos p))
          with ((k * 2 ^ Z.pos p) * 2 ^ Z.pos p) by lia.
        rewrite Z.div_mul by lia. apply Z.mod_mul. lia.
    + apply Z.mod_divide; [lia |]. exists (k * 2 ^ Z.pos p). lia.
  - change (2 ^ 1) with 2 in *. apply shr_1_exact; assumption.
Qed.

(** ** Rounding to nearest *)

Lemma loc_of_shr_record_of_loc (m : Z) (l : location) :
  loc_of_shr_record (shr_record_of_loc m l) = l.
Proof. destruct l as [| [ | | ]]; reflexivity. Qed.

Lemma shr_m_of_loc (m : Z) (l : location) : shr_m (shr_record_of_loc m l) = m.
Proof. destruct l as [| [ | | ]]; reflexivity. Qed.

Lemma round_nearest_even_bounds (m : Z) (l : location) :
  m <= round_nearest_even m l <= m + 1.
Proof.
  destruct l as [| [ | | ]]; simpl; try lia.
  destruct (Z.even m); lia.
Qed.

(** [m * 2^e <= 1], for a mantissa [m >= 0]. *)
Definition le1 (m e : Z) : Prop := e <= 0 /\ m <= 2 ^ (- e).

Lemma le1_digits (m e : Z) : 0 < m -> le1 m e -> Zdigits2 m + e <= 1.
Proof.
  intros Hm [He Hle].
  assert (Hlt : m < 2 ^ (- e + 1)).
  { rewrite Z.pow_add_r by lia. change (2 ^ 1) with 2.
    pose proof (@pow2_pos (- e) ltac:(lia)). lia. }
  apply digits_lt_pow in Hlt; lia.
Qed.

Lemma shr_fexp_le1 (m e : Z) (l : location) (mrs' : shr_record) (e' : Z) :
  0 <= m -> le1 m e ->
  shr_fexp prec emax m e l = (mrs', e') ->
  0 <= shr_m mrs'
  /\ le1 (shr_m mrs') e'
  /\ (shr_m mrs' = 2 ^ (- e') ->
      m = 2 ^ (- e)
      /\ (l = loc_Exact -> loc_of_shr_record mrs' = loc_Exact)).
Proof.
  intros Hm Hle1 Hshr. pose proof Hle1 as [He Hle].
  unfold shr_fexp, shr in Hshr. rewrite fexp64_eq in Hshr.
  destruct (Z.max (Zdigits2 m + e - 53) (-1074) - e) as [| p | p] eqn:Hn.
  - injection Hshr as <- <-. rewrite shr_m_of_loc.
    split; [exact Hm |]. split; [exact Hle1 |].
    intros Heq. split; [exact Heq |].
    intros ->. apply loc_of_shr_record_of_loc.
  - injection Hshr as <- <-.
    rewrite iter_shr_m by (rewrite shr_m_of_loc; exact Hm).
    rewrite shr_m_of_loc.
    pose proof (@pow2_pos (Zpos p) ltac:(lia)) as Hp.
    assert (He' : e + Z.pos p <= 0).
    { destruct (Z.eq_dec m 0) as [-> | Hm0].
      - simpl in Hn. lia.
      - pose proof (@le1_digits m e ltac:(lia) Hle1). lia. }
    assert (Hpow : 2 ^ (- e) = 2 ^ (- (e + Z.pos p)) * 2 ^ Z.pos p).
    { rewrite <- Z.pow_add_r by lia. f_equal. lia. }
    assert (Hdiv : m / 2 ^ Z.pos p <= 2 ^ (- (e + Z.pos p))).
    { apply Z.div_le_upper_bound; [exact Hp |]. lia. }
    split; [apply Z.div_pos; lia |].
    split; [split; assumption |].
    intros Heq.
    assert (Hmeq : m = 2 ^ (- e)).
    { pose proof (Z.mul_div_le m (2 ^ Z.pos p) Hp). nia. }
    split; [exact Hmeq |].
    intros ->. cbn [shr_record_of_loc].
    rewrite iter_shr_exact; [reflexivity | exact Hm |].
    rewrite Hmeq, Hpow. apply Z.mod_mul. lia.
  - injection Hshr as <- <-. rewrite shr_m_of_loc.
    split; [exact Hm |]. split; [exact Hle1 |].
    intros Heq. split; [exact Heq |].
    intros ->. apply loc_of_shr_record_of_loc.
Qed.

(** Rounding a value that is at most 1 gives at most 1. *)
Lemma binary_round_aux_le1 (s : bool) (mx ex : Z) (lx : location) :
  0 <= mx -> le1 mx ex -> (mx = 2 ^ (- ex) -> lx = loc_Exact) ->
  binary_round_aux prec emax s mx ex lx = S754_zero s
  \/ exists (m : positive) (e : Z),
       binary_round_aux prec emax s mx ex lx = S754_finite s m e
       /\ le1 (Zpos m) e.
Proof.
  intros Hm Hle1 Hexact. unfold binary_round_aux.
  destruct (shr_fexp prec emax mx ex lx) as [mrs' e'] eqn:H1.
  destruct (@shr_fexp_le1 _ _ _ _ _ Hm Hle1 H1) as [Hm1 [Hle1' Heq1]].
  set (m2 := round_nearest_even (shr_m mrs') (loc_of_shr_record mrs')).
  assert (Hm2 : 0 <= m2 /\ le1 m2 e').
  { pose proof (round_nearest_even_bounds (shr_m mrs') (loc_of_shr_record mrs'))
      as Hb. fold m2 in Hb.
    destruct Hle1' as [He' Hle'].
    split; [lia |]. split; [exact He' |].
    destruct (Z.eq_dec (shr_m mrs') (2 ^ (- e'))) as [Heq | Hneq].
    - destruct (Heq1 Heq) as [Hmx Hloc].
      unfold m2. rewrite (Hloc (Hexact Hmx)). simpl. lia.
    - lia. }
  destruct Hm2 as [Hm2 Hle2].
  destruct (shr_fexp prec emax m2 e' loc_Exact) as [mrs'' e''] eqn:H2.
  destruct (@shr_fexp_le1 _ _ _ _ _ Hm2 Hle2 H2) as [Hm3 [Hle3 _]].
  destruct (shr_m mrs'') as [| m3 | m3] eqn:Hm3eq.
  - left. reflexivity.
  - right. exists m3, e''.
    destruct Hle3 as [He3 Hle3].
    replace (e'' <=? emax - prec) with true.
    + split; [reflexivity | split; assumption].
    + symmetry. apply Z.leb_le. change (emax - prec) with 971. lia.
  - lia.
Qed.

(** [m * 2^e >= 1] for a mantissa of at most 53 digits, in the form the
    comparison with [1.0] reads it. *)
Definition ge1 (m e : Z) : Prop := -52 < e \/ (e = -52 /\ 2 ^ 52 <= m).

Lemma shr_fexp_magnitude (m e : Z) (l : location) (mrs' : shr_record) (e' : Z) :
  0 < m -> 1 <= Zdigits2 m + e ->
  shr_fexp prec emax m e l = (mrs', e') ->
  0 < shr_m mrs'
  /\ Zdigits2 (shr_m mrs') + e' = Zdigits2 m + e
  /\ fexp prec emax (Zdigits2 (shr_m mrs') + e') <= e'.
Proof.
  intros Hm Hd Hshr.
  unfold shr_fexp, shr in Hshr. rewrite fexp64_eq in Hshr. rewrite fexp64_eq.
  destruct (Z.max (Zdigits2 m + e - 53) (-1074) - e) as [| p | p] eqn:Hn.
  - injection Hshr as <- <-. rewrite shr_m_of_loc.
    split; [exact Hm |]. split; lia.
  - injection Hshr as <- <-.
    rewrite iter_shr_m by (rewrite shr_m_of_loc; lia).
    rewrite shr_m_of_loc.
    destruct (@digits_div_pow2 m (Zpos p)) as [Hq Hdq]; lia.
  - injection Hshr as <- <-. rewrite shr_m_of_loc.
    split; [exact Hm |]. split; lia.
Qed.

(** Rounding a value that is at least 1 gives at least 1. *)
Lemma binary_round_aux_ge1 (mx ex : Z) (lx : location) :
  0 < mx -> 1 <= Zdigits2 mx + ex ->
  binary_round_aux prec emax false mx ex lx = S754_infinity false
  \/ exists (m : positive) (e : Z),
       binary_round_aux prec emax false mx ex lx = S754_finite false m e
       /\ ge1 (Zpos m) e.
Proof.
  intros Hm Hd. unfold binary_round_aux.
  destruct (shr_fexp prec emax mx ex lx) as [mrs' e'] eqn:H1.
  destruct (@shr_fexp_magnitude _ _ _ _ _ Hm Hd H1) as [Hm1 [Hd1 _]].
  set (m2 := round_nearest_even (shr_m mrs') (loc_of_shr_record mrs')).
  pose proof (round_nearest_even_bounds (shr_m mrs') (loc_of_shr_record mrs'))
    as Hb. fold m2 in Hb.
  assert (Hm2 : 0 < m2) by lia.
  assert (Hd2 : 1 <= Zdigits2 m2 + e').
  { pose proof (@digits_mono (shr_m mrs') m2 Hm1 ltac:(lia)). lia. }
  destruct (shr_fexp prec emax m2 e' loc_Exact) as [mrs'' e''] eqn:H2.
  destruct (@shr_fexp_magnitude _ _ _ _ _ Hm2 Hd2 H2) as [Hm3 [Hd3 Hf3]].
  destruct (shr_m mrs'') as [| m3 | m3] eqn:Hm3eq; try lia.
  destruct (e'' <=? emax - prec); [| left; reflexivity].
  right. exists m3, e''. split; [reflexivity |].
  rewrite fexp64_eq in Hf3. unfold ge1.
  destruct (Z.eq_dec e'' (-52)) as [He | He]; [| left; lia].
  right. split; [exact He |].
  apply digits_pow_le; lia.
Qed.

(** ** Aligned mantissas: sums and differences with [1.0] *)

Lemma iter_xO (m d : positive) : Zpos (Pos.iter xO m d) = Zpos m * 2 ^ Zpos d.
Proof.
  induction d as [| d IH] using Pos.peano_ind.
  - simpl. lia.
  - rewrite Pos.iter_succ. rewrite (Pos2Z.inj_xO (Pos.iter xO m d)), IH.
    rewrite Pos2Z.inj_succ, Z.pow_succ_r by lia. lia.
Qed.

Lemma shl_align_fst (mx : positive) (ex ez : Z) :
  ez <= ex ->
  Zpos (fst (shl_align mx ex ez)) = Zpos mx * 2 ^ (ex - ez).
Proof.
  intros H. unfold shl_align.
  destruct (ez - ex) as [| d | d] eqn:Hd; cbn [fst].
  - replace (ex - ez) with 0 by lia. lia.
  - lia.
  - rewrite iter_xO. f_equal. f_equal. lia.
Qed.

Lemma shl_align_le1 (mx : positive) (ex ez : Z) :
  le1 (Zpos mx) ex ->
  le1 (Zpos (fst (shl_align mx ex ez))) (snd (shl_align mx ex ez)).
Proof.
  intros [He Hle]. unfold shl_align.
  destruct (ez - ex) as [| d | d] eqn:Hd; cbn [fst snd].
  - split; assumption.
  - split; assumption.
  - rewrite iter_xO. split; [lia |].
    replace (- ez) with (- ex + Zpos d) by lia.
    rewrite Z.pow_add_r by lia.
    pose proof (@pow2_pos (Zpos d) ltac:(lia)). nia.
Qed.

Lemma binary_round_le1 (s : bool) (mx : positive) (ex : Z) :
  le1 (Zpos mx) ex ->
  binary_round prec emax s mx ex = S754_zero s
  \/ exists (m : positive) (e : Z),
       binary_round prec emax s mx ex = S754_finite s m e /\ le1 (Zpos m) e.
Proof.
  intros H. unfold binary_round.
  pose proof (@shl_align_le1 mx ex
                (fexp prec emax (Zpos (digits2_pos mx) + ex)) H) as Hal.
  destruct (shl_align mx ex (fexp prec emax (Zpos (digits2_pos mx) + ex)))
    as [mz ez].
  cbn [fst snd] in Hal.
  apply binary_round_aux_le1; [lia | exact Hal | reflexivity].
Qed.

(** The spec floats in [0, 1], in [-1, 0] and in [1, +inf]. *)

Definition in_unit (x : spec_float) : Prop :=
  x = S754_zero false
  \/ exists (m : positive) (e : Z), x = S754_finite false m e /\ le1 (Zpos m) e.

Definition in_neg_unit (x : spec_float) : Prop :=
  (exists s : bool, x = S754_zero s)
  \/ exists (m : positive) (e : Z), x = S754_finite true m e /\ le1 (Zpos m) e.

Definition at_least_one (x : spec_float) : Prop :=
  x = S754_infinity false
  \/ exists (m : positive) (e : Z), x = S754_finite false m e /\ ge1 (Zpos m) e.

Definition SF_one : spec_float := S754_finite false 4503599627370496 (-52).

Lemma le1_one : le1 4503599627370496 (-52).
Proof. split; [lia | reflexivity]. Qed.

Lemma le1_aligned (m : positive) (e ez : Z) :
  ez <= e -> le1 (Zpos m) e -> Zpos m * 2 ^ (e - ez) <= 2 ^ (- ez).
Proof.
  intros Hz [He Hle].
  replace (- ez) with (- e + (e - ez)) by lia.
  rewrite Z.pow_add_r by lia.
  pose proof (@pow2_pos (e - ez) ltac:(lia)). nia.
Qed.

Lemma one_aligned (ez : Z) :
  ez <= -52 -> Zpos (fst (shl_align 4503599627370496 (-52) ez)) = 2 ^ (- ez).
Proof.
  intros H. rewrite shl_align_fst by exact H.
  change 4503599627370496 with (2 ^ 52).
  rewrite <- Z.pow_add_r by lia. f_equal. lia.
Qed.

Lemma SFsub_one_range (q : spec_float) :
  in_unit q -> in_neg_unit (SFsub prec emax q SF_one).
Proof.
  intros [-> | [m [e [-> Hle]]]].
  - right. exists 4503599627370496%positive, (-52). split; [reflexivity |].
    exact le1_one.
  - unfold SF_one. cbn [SFsub cond_Zopp].
    set (ez := Z.min e (-52)).
    rewrite one_aligned by (unfold ez; lia).
    rewrite shl_align_fst by (unfold ez; lia).
    pose proof (@le1_aligned m e ez ltac:(unfold ez; lia) Hle) as Hal.
    assert (Hpos : 0 < Z.pos m * 2 ^ (e - ez)).
    { pose proof (@pow2_pos (e - ez) ltac:(unfold ez; lia)). nia. }
    destruct (Z.pos m * 2 ^ (e - ez) - 2 ^ (- ez)) as [| d | d] eqn:Hd;
      cbn [binary_normalize].
    + left. exists false. reflexivity.
    + lia.
    + destruct (@binary_round_le1 true d ez) as [Hz | Hf].
      * split; [unfold ez; lia | lia].
      * left. exists true. exact Hz.
      * right. exact Hf.
Qed.

Lemma SFadd_one_range (v : spec_float) :
  in_neg_unit v -> in_unit (SFadd prec emax SF_one v).
Proof.
  intros [[s ->] | [m [e [-> Hle]]]].
  - right. exists 4503599627370496%positive, (-52). split; [reflexivity |].
    exact le1_one.
  - unfold SF_one. cbn [SFadd cond_Zopp].
    set (ez := Z.min (-52) e).
    rewrite one_aligned by (unfold ez; lia).
    rewrite shl_align_fst by (unfold ez; lia).
    pose proof (@le1_aligned m e ez ltac:(unfold ez; lia) Hle) as Hal.
    assert (Hpos : 0 < Z.pos m * 2 ^ (e - ez)).
    { pose proof (@pow2_pos (e - ez) ltac:(unfold ez; lia)). nia. }
    destruct (2 ^ (- ez) + - (Z.pos m * 2 ^ (e - ez))) as [| d | d] eqn:Hd;
      cbn [binary_normalize].
    + left. reflexivity.
    + destruct (@binary_round_le1 false d ez) as [Hz | Hf].
      * split; [unfold ez; lia | lia].
      * left. exact Hz.
      * right. exact Hf.
    + lia.
Qed.

(** ** Quotients *)

Lemma new_location_zero (nb : Z) : new_location nb 0 = loc_Exact.
Proof.
  unfold new_location, new_location_even, new_location_odd.
  destruct (Z.even nb); reflexivity.
Qed.

Lemma div_core_shift (m1 s : Z) :
  0 <= s ->
  match s with
  | Zpos _ => Z.shiftl m1 s
  | Z0 => m1
  | Zneg _ => 0
  end = m1 * 2 ^ s.
Proof.
  intros Hs. destruct s as [| p | p]; try lia.
  apply Z.shiftl_mul_pow2. lia.
Qed.

(** The quotient of [1.0] by a float in [0, 1]. *)
Lemma SFdiv_one_range (w : spec_float) :
  in_unit w -> at_least_one (SFdiv prec emax SF_one w).
Proof.
  intros [-> | [mw [ew [-> Hle]]]].
  - left. reflexivity.
  - unfold SF_one. cbn [SFdiv xorb]. unfold SFdiv_core_binary.
    cbn [Zdigits2]. change (Z.pos (digits2_pos 4503599627370496)) with 53.
    set (d2 := Z.pos (digits2_pos mw)).
    assert (Hd2 : d2 = Zdigits2 (Zpos mw)) by reflexivity.
    rewrite fexp64_eq.
    set (e' := Z.min (Z.max (53 + -52 - (d2 + ew) - 53) (-1074)) (-52 - ew)).
    set (s := -52 - ew - e').
    assert (Hs : 0 <= s) by (unfold s, e'; lia).
    rewrite (@div_core_shift 4503599627370496 s Hs).
    pose proof (Z.div_eucl_eq (4503599627370496 * 2 ^ s) (Zpos mw) ltac:(lia))
      as Heucl.
    pose proof (Z.mod_pos_bound (4503599627370496 * 2 ^ s) (Zpos mw) ltac:(lia))
      as Hmod.
    unfold Z.modulo in Hmod.
    assert (Hquot : (4503599627370496 * 2 ^ s) / Zpos mw
                    = fst (Z.div_eucl (4503599627370496 * 2 ^ s) (Zpos mw)))
      by reflexivity.
    destruct (Z.div_eucl (4503599627370496 * 2 ^ s) (Z.pos mw)) as [q r].
    cbn [fst] in Hquot.
    pose proof Hle as [Hew Hmw].
    pose proof (@le1_digits (Zpos mw) ew ltac:(lia) Hle) as Ht.
    rewrite <- Hd2 in Ht.
    assert (Hd2pos : 1 <= d2) by (unfold d2; lia).
    set (M := Z.min d2 (- ew)).
    set (K := 52 + s - M).
    assert (HK : 0 <= K) by (unfold K, M, s, e'; lia).
    assert (HM : 0 <= M) by (unfold M; lia).
    assert (HmwM : Zpos mw <= 2 ^ M).
    { unfold M. destruct (Z.min_spec d2 (- ew)) as [[_ ->] | [_ ->]].
      - assert (Zpos mw < 2 ^ d2); [| lia].
        apply digits_lt_pow; lia.
      - exact Hmw. }
    assert (Hnum : 4503599627370496 * 2 ^ s = 2 ^ K * 2 ^ M).
    { change 4503599627370496 with (2 ^ 52).
      rewrite <- !Z.pow_add_r by lia. f_equal. unfold K. lia. }
    assert (Hq : 2 ^ K <= q).
    { rewrite <- Hquot. apply Z.div_le_lower_bound; [lia |].
      rewrite Hnum. pose proof (@pow2_pos K HK). nia. }
    assert (Hqpos : 0 < q) by (pose proof (@pow2_pos K HK); lia).
    assert (Hdq : 1 <= Zdigits2 q + e').
    { assert (Hdq' : K + 1 <= Zdigits2 q)
        by (apply digits_pow_le; assumption).
      unfold K, M, s in Hdq'. lia. }
    destruct (@binary_round_aux_ge1 q e' (new_location (Z.pos mw) r) Hqpos Hdq)
      as [Hinf | Hfin].
    + left. exact Hinf.
    + right. exact Hfin.
Qed.

Lemma at_least_one_leb (r : spec_float) :
  at_least_one r -> SFleb SF_one r = true.
Proof.
  intros [-> | [m [e [-> Hge]]]].
  - reflexivity.
  - unfold SFleb, SF_one. cbn [SFcompare].
    destruct Hge as [He | [-> Hm]].
    + assert (Hc : (-52 ?= e) = Lt) by (apply Z.compare_lt_iff; exact He).
      rewrite Hc. reflexivity.
    + change (-52 ?= -52) with Eq. cbv iota.
      change (Pos.compare_cont Eq 4503599627370496 m)
        with (Z.pos 4503599627370496 ?= Z.pos m).
      destruct (Z.pos 4503599627370496 ?= Z.pos m) eqn:Hc; try reflexivity.
      apply Z.compare_gt_iff in Hc.
      assert (H52 : 2 ^ 52 = 4503599627370496) by reflexivity.
      rewrite H52 in Hm. lia.
Qed.

Lemma valid_canonical (s : bool) (m : positive) (e : Z) :
  SpecFloat.valid_binary prec emax (S754_finite s m e) = true ->
  Z.max (Zdigits2 (Zpos m) + e - 53) (-1074) = e.
Proof.
  cbn [SpecFloat.valid_binary]. unfold bounded, canonical_mantissa.
  intros H. apply andb_prop in H. destruct H as [H _].
  apply Z.eqb_eq in H. rewrite fexp64_eq in H. exact H.
Qed.

Lemma SFleb_finite_pos (m1 m2 : positive) (e1 e2 : Z) :
  SFleb (S754_finite false m1 e1) (S754_finite false m2 e2) = true ->
  e1 < e2 \/ (e1 = e2 /\ Zpos m1 <= Zpos m2).
Proof.
  unfold SFleb. cbn [SFcompare].
  destruct (e1 ?= e2) eqn:He.
  - apply Z.compare_eq_iff in He.
    change (Pos.compare_cont Eq m1 m2) with (Z.pos m1 ?= Z.pos m2).
    destruct (Z.pos m1 ?= Z.pos m2) eqn:Hm; try discriminate; intros _; right.
    + apply Z.compare_eq_iff in Hm. lia.
    + change (Z.pos m1 < Z.pos m2) in Hm. lia.
  - intros _. left. exact He.
  - discriminate.
Qed.

Lemma SFltb_finite_pos (m1 m2 : positive) (e1 e2 : Z) :
  SFltb (S754_finite false m1 e1) (S754_finite false m2 e2) = true ->
  e1 < e2 \/ (e1 = e2 /\ Zpos m1 < Zpos m2).
Proof.
  unfold SFltb. cbn [SFcompare].
  destruct (e1 ?= e2) eqn:He.
  - apply Z.compare_eq_iff in He.
    change (Pos.compare_cont Eq m1 m2) with (Z.pos m1 ?= Z.pos m2).
    destruct (Z.pos m1 ?= Z.pos m2) eqn:Hm; try discriminate; intros _; right.
    change (Z.pos m1 < Z.pos m2) in Hm. lia.
  - intros _. left. exact He.
  - discriminate.
Qed.

Lemma SFleb_finite_pos_intro (m1 m2 : positive) (e1 e2 : Z) :
  e1 < e2 \/ (e1 = e2 /\ Zpos m1 <= Zpos m2) ->
  SFleb (S754_finite false m1 e1) (S754_finite false m2 e2) = true.
Proof.
  unfold SFleb. cbn [SFcompare]. intros [He | [He Hm]].
  - change ((e1 ?= e2) = Lt) in He. rewrite He. reflexivity.
  - apply Z.compare_eq_iff in He. rewrite He.
    change (Pos.compare_cont Eq m1 m2) with (Z.pos m1 ?= Z.pos m2).
    destruct (Z.pos m1 ?= Z.pos m2) eqn:Hc; try reflexivity.
    apply Z.compare_gt_iff in Hc. lia.
Qed.

(** Two valid positive floats in order: their values and magnitudes. *)
Lemma ordered_values (m1 m2 : positive) (e1 e2 : Z) :
  SpecFloat.valid_binary prec emax (S754_finite false m1 e1) = true ->
  SpecFloat.valid_binary prec emax (S754_finite false m2 e2) = true ->
  SFleb (S754_finite false m1 e1) (S754_finite false m2 e2) = true ->
  e1 <= e2
  /\ Zpos m1 <= Zpos m2 * 2 ^ (e2 - e1)
  /\ Zdigits2 (Zpos m1) + e1 <= Zdigits2 (Zpos m2) + e2.
Proof.
  intros Hv1 Hv2 Hle.
  apply valid_canonical in Hv1. apply valid_canonical in Hv2.
  apply SFleb_finite_pos in Hle. destruct Hle as [He | [-> Hm]].
  - assert (Hd2 : Zdigits2 (Z.pos m2) = 53) by lia.
    assert (Hd1 : Zdigits2 (Z.pos m1) <= 53) by lia.
    assert (H1 : Z.pos m1 < 2 ^ 53) by (apply digits_lt_pow; lia).
    assert (H2 : 2 ^ 52 <= Z.pos m2) by (apply digits_pow_le; lia).
    split; [lia |]. split; [| lia].
    assert (Hp : 2 ^ 1 <= 2 ^ (e2 - e1)) by (apply Z.pow_le_mono_r; lia).
    change (2 ^ 1) with 2 in Hp.
    assert (H53 : 2 ^ 53 = 2 ^ 52 * 2) by reflexivity.
    nia.
  - split; [lia |]. rewrite Z.sub_diag. change (2 ^ 0) with 1.
    split; [lia |].
    pose proof (@digits_mono (Z.pos m1) (Z.pos m2) ltac:(lia) Hm). lia.
Qed.

(** The quotient of two valid positive floats in order is in [0, 1]. *)
Lemma SFdiv_ordered_range (m1 m2 : positive) (e1 e2 : Z) :
  SpecFloat.valid_binary prec emax (S754_finite false m1 e1) = true ->
  SpecFloat.valid_binary prec emax (S754_finite false m2 e2) = true ->
  SFleb (S754_finite false m1 e1) (S754_finite false m2 e2) = true ->
  in_unit (SFdiv prec emax (S754_finite false m1 e1) (S754_finite false m2 e2)).
Proof.
  intros Hv1 Hv2 Hle.
  destruct (@ordered_values _ _ _ _ Hv1 Hv2 Hle) as [He [Hval Hdig]].
  cbn [SFdiv xorb]. unfold SFdiv_core_binary.
  rewrite fexp64_eq.
  set (e' := Z.min (Z.max (Zdigits2 (Z.pos m1) + e1
                           - (Zdigits2 (Z.pos m2) + e2) - 53) (-1074))
                   (e1 - e2)).
  set (s := e1 - e2 - e').
  assert (Hs : 0 <= s) by (unfold s, e'; lia).
  assert (He' : e' <= -53) by (unfold e'; lia).
  rewrite (@div_core_shift (Zpos m1) s Hs).
  pose proof (Z.div_eucl_eq (Zpos m1 * 2 ^ s) (Zpos m2) ltac:(lia)) as Heucl.
  pose proof (Z.mod_pos_bound (Zpos m1 * 2 ^ s) (Zpos m2) ltac:(lia)) as Hmod.
  unfold Z.modulo in Hmod.
  destruct (Z.div_eucl (Zpos m1 * 2 ^ s) (Z.pos m2)) as [q r].
  pose proof (@pow2_pos s Hs) as Hps.
  assert (Hpow : 2 ^ (- e') = 2 ^ (e2 - e1) * 2 ^ s).
  { rewrite <- Z.pow_add_r by lia. f_equal. unfold s. lia. }
  assert (Hnum : Zpos m1 * 2 ^ s <= Zpos m2 * 2 ^ (- e')).
  { rewrite Hpow. nia. }
  assert (Hq0 : 0 <= q) by nia.
  assert (Hq : q <= 2 ^ (- e')).
  { pose proof (@pow2_pos (- e') ltac:(lia)). nia. }
  destruct (@binary_round_aux_le1 false q e' (new_location (Z.pos m2) r))
    as [Hz | Hf].
  - exact Hq0.
  - split; [lia | exact Hq].
  - intros Heq. assert (Hr : r = 0) by nia.
    rewrite Hr. apply new_location_zero.
  - left. exact Hz.
  - right. exact Hf.
Qed.

End Rounding.

(* ================================================================== *)
(** * The program on IEEE 754 doubles                                  *)
(* ================================================================== *)

Module Binary64.

Set Warnings "-inexact-float".

Open Scope float_scope.

(** A pool configuration: amplification 100, fee 0.3 %, and a precision
    below the spacing of the doubles at the size of the invariant. *)
Definition pool : Stableswap_Pair binary64 :=
  @Build_Stableswap_Pair binary64 100 0.003 1e-18.

(** ** The order of the doubles *)

Lemma SFcompare_antisym (x y : spec_float) :
  SFcompare y x = option_map CompOpp (SFcompare x y).
Proof.
  destruct x as [sx | sx | | sx mx ex], y as [sy | sy | | sy my ey];
    simpl; try reflexivity;
    try (destruct sx; reflexivity); try (destruct sy; reflexivity);
    try (destruct sx, sy; reflexivity).
  destruct sx, sy; simpl; try reflexivity;
    rewrite (Z.compare_antisym ex ey);
    destruct (ex ?= ey)%Z; simpl; try reflexivity;
    rewrite (Pos.compare_cont_antisym mx my Eq); reflexivity.
Qed.

Lemma ltb_asym_binary64 (x y : float) : (x <? y) = true -> (y <? x) = false.
Proof.
  rewrite !FloatAxioms.ltb_spec. unfold SFltb.
  rewrite (SFcompare_antisym (Prim2SF x) (Prim2SF y)).
  destruct (SFcompare (Prim2SF x) (Prim2SF y)) as [[ | | ] |];
    simpl; congruence.
Qed.

(** Without NaN, "not smaller" is "at least". *)
Lemma ltb_false_leb (x y : float) :
  is_nan x = false -> is_nan y = false ->
  (x <? y) = false -> (y <=? x) = true.
Proof.
  unfold is_nan. rewrite !FloatAxioms.eqb_spec, FloatAxioms.ltb_spec, FloatAxioms.leb_spec.
  unfold SFeqb, SFltb, SFleb.
  rewrite (SFcompare_antisym (Prim2SF x) (Prim2SF y)).
  destruct (Prim2SF x) as [sx | sx | | sx mx ex],
           (Prim2SF y) as [sy | sy | | sy my ey];
    simpl; try discriminate; intros _ _;
    try (destruct sx; simpl; congruence);
    try (destruct sy; simpl; congruence);
    try (destruct sx, sy; simpl; congruence).
  destruct sx, sy; simpl; try congruence;
    destruct (ex ?= ey)%Z; simpl; try congruence;
    destruct (Pos.compare_cont Eq mx my); simpl; congruence.
Qed.

(** A double that compares equal to [0.0] is a zero. *)
Lemma eqb_zero_inv (x : float) :
  (x =? 0) = true -> exists s : bool, Prim2SF x = S754_zero s.
Proof.
  rewrite FloatAxioms.eqb_spec.
  change (Prim2SF 0) with (S754_zero false).
  unfold SFeqb.
  destruct (Prim2SF x) as [s | s | | s m e]; simpl.
  - intros _. exists s. reflexivity.
  - destruct s; discriminate.
  - discriminate.
  - destruct s; discriminate.
Qed.

(** The quotient by a zero is never finite, and stays so under [- 1]. *)
Lemma div_zero_sub_one_not_finite (m x : float) :
  (x =? 0) = true -> is_finite (m / x - 1) = false.
Proof.
  intros Hx. destruct (eqb_zero_inv Hx) as [s Hs].
  assert (Hq : Prim2SF (m / x) = S754_nan
               \/ exists sq, Prim2SF (m / x) = S754_infinity sq).
  { rewrite div_spec, Hs. unfold SF64div, SFdiv.
    destruct (Prim2SF m) as [sm | sm | | sm mm em]; eauto. }
  assert (Hv : Prim2SF (m / x - 1) = S754_nan
               \/ exists sv, Prim2SF (m / x - 1) = S754_infinity sv).
  { rewrite sub_spec.
    change (Prim2SF 1) with (S754_finite false 4503599627370496 (-52)).
    destruct Hq as [Hq | [sq Hq]]; rewrite Hq; simpl; eauto. }
  unfold is_finite, is_nan, is_infinity.
  rewrite !FloatAxioms.eqb_spec, abs_spec.
  change (Prim2SF infinity) with (S754_infinity false).
  destruct Hv as [Hv | [[ | ] Hv]]; rewrite Hv; reflexivity.
Qed.

(** ** Bounds on the multiplier *)

Import Rounding.

(** Positive and finite: above zero and below infinity. *)
Definition positive_finite (x : float) : bool := (0 <? x) && (x <? infinity).

Lemma positive_finite_SF (x : float) :
  positive_finite x = true ->
  exists (m : positive) (e : Z), Prim2SF x = S754_finite false m e.
Proof.
  unfold positive_finite. rewrite !FloatAxioms.ltb_spec.
  change (Prim2SF 0) with (S754_zero false).
  change (Prim2SF infinity) with (S754_infinity false).
  intros H. apply andb_prop in H. destruct H as [H0 Hinf].
  destruct (Prim2SF x) as [s | s | | s m e].
  - discriminate H0.
  - destruct s; [discriminate H0 | discriminate Hinf].
  - discriminate H0.
  - destruct s; [discriminate H0 |]. exists m, e. reflexivity.
Qed.

Lemma Prim2SF_one : Prim2SF 1 = SF_one.
Proof. reflexivity. Qed.

(** The multiplier of one path: with [0 < m <= x] finite, the sample
    [m / x - 1] gives [1 / (1 + sample) >= 1]. *)
Lemma multiplier_at_least_one (m x : float) :
  positive_finite m = true -> positive_finite x = true ->
  (m <=? x) = true ->
  (1 <=? 1 / (1 + (m / x - 1))) = true.
Proof.
  intros Hm Hx Hle.
  destruct (positive_finite_SF m Hm) as [m1 [e1 H1]].
  destruct (positive_finite_SF x Hx) as [m2 [e2 H2]].
  pose proof (Prim2SF_valid m) as Hv1. rewrite H1 in Hv1.
  pose proof (Prim2SF_valid x) as Hv2. rewrite H2 in Hv2.
  rewrite FloatAxioms.leb_spec, H1, H2 in Hle.
  rewrite FloatAxioms.leb_spec.
  rewrite div_spec, add_spec, sub_spec, div_spec.
  rewrite Prim2SF_one, H1, H2.
  apply at_least_one_leb.
  apply SFdiv_one_range.
  apply SFadd_one_range.
  apply SFsub_one_range.
  apply SFdiv_ordered_range; assumption.
Qed.

Lemma leb_refl_positive_finite (x : float) :
  positive_finite x = true -> (x <=? x) = true.
Proof.
  intros Hx. destruct (positive_finite_SF x Hx) as [m [e H]].
  rewrite FloatAxioms.leb_spec, H.
  apply SFleb_finite_pos_intro. right. split; [reflexivity | lia].
Qed.

Lemma ltb_leb_trans_positive_finite (y c x : float) :
  positive_finite y = true -> positive_finite c = true ->
  positive_finite x = true ->
  (y <? c) = true -> (c <=? x) = true -> (y <=? x) = true.
Proof.
  intros Hy Hc Hx Hyc Hcx.
  destruct (positive_finite_SF y Hy) as [my [ey Hy']].
  destruct (positive_finite_SF c Hc) as [mc [ec Hc']].
  destruct (positive_finite_SF x Hx) as [mx [ex Hx']].
  rewrite FloatAxioms.ltb_spec, Hy', Hc' in Hyc.
  rewrite FloatAxioms.leb_spec, Hc', Hx' in Hcx.
  rewrite FloatAxioms.leb_spec, Hy', Hx'.
  apply SFltb_finite_pos in Hyc. apply SFleb_finite_pos in Hcx.
  apply SFleb_finite_pos_intro. lia.
Qed.

(** ** The solver *)

(** C1, on the code.  For the balances [1000.0, 3000.0], amplification 100
    and precision [1e-18], none of the 128 Newton updates passes the
    convergence test (the iterates end up alternating between two doubles
    [9e-13] apart), and [calculate_d] returns [None]: no error is raised. *)
Theorem calculate_d_returns_None_on_exhaustion :
  never_converges pool 200 2 4000 [1000; 3000] 128 4000 = true
  /\ calculate_d pool [1000; 3000] default_max_iterations = Ok VNone.
Proof.
  split; [vm_compute; reflexivity |].
  apply (@calculate_d_exhausted binary64 pool [1000; 3000] 128);
    vm_compute; reflexivity.
Qed.

(** The caller of the solver then fails on the [None]. *)
Example price_at_balance_after_exhaustion :
  price_at_balance pool [1000; 3000] 1 0 = Raise TypeError.
Proof. vm_compute. reflexivity. Qed.

(** A pool configuration with a precision of [1e-4], which the iteration
    reaches. *)
Definition pool_4 : Stableswap_Pair binary64 :=
  @Build_Stableswap_Pair binary64 100 0.003 0.0001.

Lemma calculate_d_returns_converged_witness :
  exists d_prev : float,
    @newton_step binary64 200 2 4000 [1000; 3000] d_prev
    = Ok 3993.4316430885178
    /\ @converged_spec binary64 0.0001 d_prev 3993.4316430885178.
Proof.
  apply (@calculate_d_returns_converged binary64 pool_4 [1000; 3000] 128
           3993.4316430885178).
  vm_compute. reflexivity.
Defined.

(** A balance of zero makes the first Newton step divide by zero. *)
Lemma calculate_d_Raise_witness :
  calculate_d pool [0; 1] default_max_iterations = Raise ZeroDivisionError
  /\ arithmetic_exn ZeroDivisionError.
Proof.
  split; [vm_compute; reflexivity |].
  apply (@calculate_d_Raise binary64 pool [0; 1] default_max_iterations).
  vm_compute. reflexivity.
Defined.

(** C6, the claim as stated fails.  On the pool without funds the price
    computation performs the division by zero and raises
    [ZeroDivisionError]; on a zero-sum vector without a zero entry it
    returns a price. *)
Lemma price_of_degenerate_pool :
  calculate_d pool [0; 0] default_max_iterations = Ok (VInt 0)
  /\ price_at_balance pool [0; 0] 1 0 = Raise ZeroDivisionError
  /\ calculate_d pool [-1; 1] default_max_iterations = Ok (VInt 0)
  /\ price_at_balance pool [-1; 1] 1 0 = Ok 1.
Proof. repeat split; vm_compute; reflexivity. Qed.

Lemma degenerate_pool_witness :
  @feqb binary64 (sum (@sorted binary64 [0; 0])) f0 = true
  /\ calculate_d pool [0; 0] default_max_iterations = Ok (VInt 0)
  /\ price_at_balance pool [0; 0] 1 0 = Raise ZeroDivisionError.
Proof.
  destruct (@degenerate_pool binary64 pool [0; 0] eq_refl) as [Hd Hp].
  split; [reflexivity |].
  split; [apply Hd |].
  apply (Hp 0 [0] 0 2); reflexivity.
Defined.

(** ** The drawdown statistic *)

(** C3, on the code.  The default [at_step] is [-1], so each sample is
    taken on the path without its last element: for the single path
    [1.0, 0.5] the default call sees only [1.0] and returns [1.0], where
    the call on the whole path returns [2.0]. *)
Theorem default_step_drops_last_element :
  (forall (paths : list (list float)) (alpha : float),
      @get_threshold_multiplier binary64 paths alpha None =
      (_ <- @series_first_path binary64 paths ;;
       initial_drawdowns <-
         mapM (fun path => @get_initial_drawdown binary64 (removelast path))
              paths ;;
       @threshold_from_drawdowns binary64 initial_drawdowns alpha))
  /\ @get_threshold_multiplier binary64 [[1; 0.5]] 0.5 None = Ok 1
  /\ @get_threshold_multiplier binary64 [[1; 0.5]] 0.5 (Some 2%Z) = Ok 2.
Proof.
  split; [intros paths alpha; apply default_step_removes_last |].
  split; vm_compute; reflexivity.
Qed.

(** The example of the specification, from the samples on: of
    [-0.5, -0.3, -0.1, 0, 0] at [alpha = 0.5] the sample at index
    [int(5 * 0.5) = 2] of the descending order is [-0.1], and the
    multiplier is [1 / 0.9]. *)
Example quantile_example :
  @sort_reverse binary64 [-0.5; -0.3; -0.1; 0; 0] = [0; 0; -0.1; -0.3; -0.5]
  /\ @py_int binary64 (5 * 0.5) = Ok 2%Z
  /\ @threshold_from_drawdowns binary64 [-0.5; -0.3; -0.1; 0; 0] 0.5
     = Ok (1 / 0.9).
Proof. repeat split; vm_compute; reflexivity. Qed.

(** C7, the claim as stated fails.  A path that starts at zero gives the
    sample [0/0 - 1], a NaN, which the method returns as its result. *)
Lemma drawdown_of_zero_start :
  @get_initial_drawdown binary64 [0; 1] = Ok nan
  /\ @get_threshold_multiplier binary64 [[0; 1]] 0.5 (Some 2%Z) = Ok nan.
Proof. split; vm_compute; reflexivity. Qed.

(** C7, the amended claim.  For every path whose first element equals 0,
    [get_initial_drawdown] raises nothing: it returns the IEEE value of
    [min(path) / 0 - 1], which is a NaN or an infinity.  A collection in
    which some path, cut at [at_step], is such a path is processed without
    a check: the method computes its result from samples among which is
    that value. *)
Theorem zero_start_gives_non_finite_sample (x : float) (rest : list float) :
  (x =? 0) = true ->
  (exists v : float,
      @get_initial_drawdown binary64 (x :: rest) = Ok v
      /\ is_finite v = false)
  /\ (forall (path0 : list float) (others : list (list float))
        (alpha : float) (at_step : option Z),
         (resolved_step at_step <= len path0)%Z ->
         Forall (fun path => slice_to path (resolved_step at_step) <> [])
                (path0 :: others) ->
         In (x :: rest)
            (map (fun path => slice_to path (resolved_step at_step))
                 (path0 :: others)) ->
         exists samples : list float,
           @get_threshold_multiplier binary64 (path0 :: others) alpha at_step
           = @threshold_from_drawdowns binary64 samples alpha
           /\ Exists (fun v => is_finite v = false) samples).
Proof.
  intros Hx.
  assert (Hv : is_finite (@drawdown binary64 (x :: rest)) = false).
  { apply div_zero_sub_one_not_finite. exact Hx. }
  split.
  - exists (@drawdown binary64 (x :: rest)). split; [reflexivity | exact Hv].
  - intros path0 others alpha at_step Hstep Hne Hin.
    exists (map (fun path =>
                   @drawdown binary64 (slice_to path (resolved_step at_step)))
                (path0 :: others)).
    split.
    + rewrite (@get_threshold_multiplier_checked binary64) by exact Hstep.
      rewrite (mapM_total _
        (fun path => @drawdown binary64 (slice_to path (resolved_step at_step)))).
      * reflexivity.
      * eapply Forall_impl; [| exact Hne].
        intros path Hp. apply get_initial_drawdown_Ok. exact Hp.
    + apply Exists_exists. exists (@drawdown binary64 (x :: rest)).
      split; [| exact Hv].
      apply in_map_iff in Hin. destruct Hin as [path [Hpath Hin]].
      apply in_map_iff. exists path. split; [| exact Hin].
      exact (f_equal (@drawdown binary64) Hpath).
Qed.

Lemma zero_start_witness :
  (0 =? 0) = true
  /\ exists v : float,
       @get_initial_drawdown binary64 [0; 1] = Ok v /\ is_finite v = false.
Proof.
  split; [reflexivity |].
  exact (proj1 (@zero_start_gives_non_finite_sample 0 [1] eq_refl)).
Defined.

(** C8, the claim as stated fails.  [at_step = 3] exceeds the length of
    the second path, and the method computes that path's drawdown on all of
    it and returns a multiplier. *)
Lemma step_beyond_second_path :
  (@len float [1; 0.5]%float < 3)%Z
  /\ @get_threshold_multiplier binary64 [[1; 2; 3]; [1; 0.5]] 0.5 (Some 3%Z)
     = Ok 2.
Proof. split; vm_compute; reflexivity. Qed.

Lemma step_beyond_first_path_witness :
  (@len float [1; 2]%float < 3)%Z
  /\ @get_threshold_multiplier binary64 [[1; 2]; [1; 0.5; 0.25]] 0.5 (Some 3%Z)
     = Raise (Exception step_error).
Proof.
  split; [reflexivity |].
  apply (@step_beyond_first_path_raises binary64). reflexivity.
Defined.

Lemma step_checked_against_first_path_witness :
  (3 <= @len float [1; 2; 3]%float)%Z
  /\ (@len float [1; 0.5]%float < 3)%Z
  /\ @get_threshold_multiplier binary64 [[1; 2; 3]; [1; 0.5]] 0.5 (Some 3%Z)
     <> Raise (Exception step_error).
Proof.
  split; [discriminate |].
  split; [reflexivity |].
  apply (@step_checked_against_first_path_only binary64). discriminate.
Defined.

(** The minimum of a path of positive finite doubles is at most its first
    element. *)
Lemma min_from_leb_first (x : float) (rest : list float) :
  Forall (fun y => positive_finite y = true) (x :: rest) ->
  positive_finite (@min_from binary64 x rest) = true
  /\ (@min_from binary64 x rest <=? x) = true.
Proof.
  intros Hall.
  assert (Hx : positive_finite x = true) by (inversion Hall; assumption).
  split.
  - rewrite Forall_forall in Hall. apply Hall.
    exact (@min_from_In binary64 x rest).
  - assert (Hrest : Forall (fun y => positive_finite y = true) rest)
      by (inversion Hall; assumption).
    clear Hall. unfold min_from.
    assert (Hgen : forall cur : float,
               positive_finite cur = true -> (cur <=? x) = true ->
               (fold_left (fun m y : float => if @fltb binary64 y m then y else m)
                          rest cur <=? x) = true).
    { induction Hrest as [| y rest Hy _ IH]; intros cur Hcur Hle.
      - exact Hle.
      - cbn [fold_left]. destruct (@fltb binary64 y cur) eqn:Hlt.
        + apply IH; [exact Hy |].
          eapply ltb_leb_trans_positive_finite;
            [exact Hy | exact Hcur | exact Hx | exact Hlt | exact Hle].
        + apply IH; assumption. }
    apply Hgen; [exact Hx |]. apply leb_refl_positive_finite. exact Hx.
Qed.

(** C9.  For every non-empty collection of paths of positive (finite)
    doubles, every [at_step] that passes the range check and leaves each
    path a first element, and every [alpha] for which the index
    [int(n * alpha)] is in range, the multiplier is returned and is at least
    1: each drawdown sample [min(path) / path[0] - 1] lies in [[-1, 0]], so
    [1 + sample] lies in [[0, 1]] and its reciprocal in [[1, +inf]], in
    the rounded arithmetic of the doubles. *)
Theorem threshold_multiplier_at_least_one
  (path0 : list float) (others : list (list float)) (alpha : float)
  (at_step : option Z) (nf : float) (k : Z) :
  let paths := path0 :: others in
  let step := resolved_step at_step in
  (step <= len path0)%Z ->
  Forall (fun path => slice_to path step <> []) paths ->
  Forall (Forall (fun y => positive_finite y = true)) paths ->
  b64_of_int (len paths) = Some nf ->
  b64_to_int (nf * alpha) = IsInt k ->
  (- len paths <= k < len paths)%Z ->
  exists r : float,
    @get_threshold_multiplier binary64 paths alpha at_step = Ok r
    /\ (1 <=? r) = true.
Proof.
  intros paths step Hstep Hne Hpos Hn Hk Hrange. subst paths step.
  rewrite (@get_threshold_multiplier_total binary64) by assumption.
  match goal with
  | |- context [threshold_from_drawdowns ?s _] => set (samples := s)
  end.
  assert (Hlen : len samples = len (path0 :: others)) by apply len_map.
  rewrite <- Hlen in Hn, Hrange.
  destruct (@getitem_in_range (@F binary64) (@sort_reverse binary64 samples) k)
    as [v Hget].
  { assert (Hl : len (@sort_reverse binary64 samples) = len samples).
    { unfold len. rewrite sort_reverse_length. reflexivity. }
    rewrite Hl. exact Hrange. }
  exists (1 / (1 + v)). split.
  - exact (@threshold_from_drawdowns_value binary64 samples alpha nf k v
             Hn Hk Hget).
  - assert (Hin : In v samples).
    { apply Permutation_in with (l := @sort_reverse binary64 samples).
      - apply Permutation_sym. apply sort_reverse_perm.
      - eapply getitem_In. exact Hget. }
    apply in_map_iff in Hin. destruct Hin as [path [Hv Hpath]].
    assert (Hpp : Forall (fun y => positive_finite y = true)
                         (slice_to path (resolved_step at_step))).
    { rewrite Forall_forall in Hpos. specialize (Hpos path Hpath).
      rewrite Forall_forall in *. intros y Hy. apply Hpos.
      eapply slice_to_In. exact Hy. }
    rewrite Forall_forall in Hne. specialize (Hne path Hpath).
    cbn [F binary64] in Hne, Hpp, Hv.
    destruct (@slice_to float path (resolved_step at_step)) as [| x rest];
      [congruence |].
    destruct (min_from_leb_first Hpp) as [Hm Hle].
    assert (Hx : positive_finite x = true) by (inversion Hpp; assumption).
    rewrite <- Hv. cbn [drawdown fsub fdiv f1 binary64].
    apply multiplier_at_least_one; assumption.
Qed.

(** Five paths of two steps, of samples about [-0.5, -0.3, -0.1, 0, 0]. *)
Definition example_paths : list (list float) :=
  [[1; 0.5]; [1; 0.7]; [1; 0.9]; [1; 1]; [1; 2]].

Lemma at_least_one_witness :
  exists r : float,
    @get_threshold_multiplier binary64 example_paths 0.5 (Some 2%Z) = Ok r
    /\ (1 <=? r) = true.
Proof.
  apply (@threshold_multiplier_at_least_one
           [1; 0.5] [[1; 0.7]; [1; 0.9]; [1; 1]; [1; 2]] 0.5 (Some 2%Z) 5 2%Z).
  - discriminate.
  - repeat constructor; discriminate.
  - repeat constructor.
  - reflexivity.
  - reflexivity.
  - split; [discriminate | reflexivity].
Defined.

End Binary64.

(* ================================================================== *)
(** * Further properties in every arithmetic                           *)
(* ================================================================== *)

Section SolverBound.

Context {N : FloatOps}.
Variable tp : Stableswap_Pair N.

(** ** The iteration bound *)

(** A loop that ends before its range is used up ends the same way in
    every longer range. *)
Lemma calculate_d_loop_more (ann n_coins : Z) (s : F) (xs : list F)
  (k j : nat) (d : F) (r : result (pyval N)) :
  calculate_d_loop tp ann n_coins s xs k d = r -> r <> Ok VNone ->
  calculate_d_loop tp ann n_coins s xs (k + j) d = r.
Proof.
  revert d. induction k as [| k IH]; simpl; intros d H Hr.
  - congruence.
  - destruct (newton_step ann n_coins s xs d) as [d' | e]; simpl in *.
    + destruct (has_converged tp d d'); [exact H |].
      apply IH; assumption.
    + exact H.
Qed.

(** X5.  The iteration bound matters only when it is hit: whatever
    [calculate_d] returns or raises within [max_iterations] updates, other
    than [None], it returns or raises for every larger bound. *)
Theorem calculate_d_bound_monotone
  (balances : list F) (max_iterations max_iterations' : Z)
  (r : result (pyval N)) :
  (max_iterations <= max_iterations')%Z ->
  calculate_d tp balances max_iterations = r ->
  r <> Ok VNone ->
  calculate_d tp balances max_iterations' = r.
Proof.
  intros Hle H Hr. unfold calculate_d in *.
  destruct (feqb (sum (sorted balances)) f0); [exact H |].
  replace (Z.to_nat max_iterations')
    with (Z.to_nat max_iterations
          + (Z.to_nat max_iterations' - Z.to_nat max_iterations))%nat by lia.
  apply calculate_d_loop_more; assumption.
Qed.

(** ** The errors of [price_at_balance] *)

Lemma sorted_nonempty (l : list F) : l <> [] -> sorted l <> [].
Proof.
  intros Hl Hs. apply Hl.
  apply Permutation_nil. rewrite <- Hs. apply Permutation_sym, sorted_perm.
Qed.

(** X6.  [price_at_balance] does not check what the solver returned: when
    [calculate_d] runs out of iterations on a non-empty balance vector, the
    [None] it returns reaches [c * d] and the call raises [TypeError]. *)
Theorem price_at_balance_of_None (balances : list F) (i j : Z) :
  balances <> [] ->
  calculate_d tp balances default_max_iterations = Ok VNone ->
  price_at_balance tp balances i j = Raise TypeError.
Proof.
  intros Hne Hd. unfold price_at_balance. rewrite Hd. cbn [bind].
  pose proof (sorted_nonempty Hne) as Hs.
  destruct (sorted balances) as [| x xs]; [congruence |].
  reflexivity.
Qed.

Lemma py_mul_Raise (a b : pyval N) (e : exn) :
  py_mul a b = Raise e -> e = OverflowError \/ e = TypeError.
Proof.
  destruct a as [x | x |], b as [y | y |]; simpl; intros H;
    try discriminate H; try (injection H as <-; auto).
  - apply bind_Raise in H. destruct H as [H | [r [_ H]]]; [| discriminate H].
    left. eapply imulf_Raise; eassumption.
  - apply bind_Raise in H. destruct H as [H | [r [_ H]]]; [| discriminate H].
    left. eapply fmuli_Raise; eassumption.
Qed.

Lemma py_div_float_Raise (a : pyval N) (y : F) (e : exn) :
  py_div_float a y = Raise e ->
  e = ZeroDivisionError \/ e = OverflowError \/ e = TypeError.
Proof.
  destruct a as [x | x |]; simpl; intros H.
  - apply bind_Raise in H. destruct H as [H | [xf [_ H]]].
    + right. left. eapply float_of_int_Raise; eassumption.
    + left. eapply truediv_Raise; eassumption.
  - left. eapply truediv_Raise; eassumption.
  - injection H as <-. auto.
Qed.

Lemma float_add_py_Raise (x : F) (c : pyval N) (e : exn) :
  float_add_py x c = Raise e -> e = OverflowError \/ e = TypeError.
Proof.
  destruct c as [z | y |]; simpl; intros H.
  - apply bind_Raise in H. destruct H as [H | [zf [_ H]]]; [| discriminate H].
    left. eapply float_of_int_Raise; eassumption.
  - discriminate H.
  - injection H as <-. auto.
Qed.

Lemma getitem_Raise {A : Type} (l : list A) (i : Z) (e : exn) :
  getitem l i = Raise e -> e = IndexError.
Proof.
  unfold getitem.
  destruct (_ <? 0)%Z; [congruence |].
  destruct (nth_error _ _); congruence.
Qed.

(** The exceptions of the price computation. *)
Definition price_exn (e : exn) : Prop :=
  e = ZeroDivisionError \/ e = OverflowError \/ e = TypeError
  \/ e = IndexError.

Lemma c_loop_Raise (d : pyval N) (n : Z) (xs : list F) (c : pyval N) (e : exn) :
  c_loop d n xs c = Raise e ->
  e = ZeroDivisionError \/ e = OverflowError \/ e = TypeError.
Proof.
  revert c. induction xs as [| x xs IH]; simpl; intros c H.
  - discriminate H.
  - apply bind_Raise in H. destruct H as [H | [cd [_ H]]].
    { apply py_mul_Raise in H. tauto. }
    apply bind_Raise in H. destruct H as [H | [nx [_ H]]].
    { apply imulf_Raise in H. tauto. }
    apply bind_Raise in H. destruct H as [H | [c' [_ H]]].
    { apply py_div_float_Raise in H. tauto. }
    eapply IH; eassumption.
Qed.

(** X7.  [price_at_balance] raises nothing but a [ZeroDivisionError] or an
    [OverflowError] of the arithmetic, the [TypeError] of a solver result
    that is [None], and the [IndexError] of an index outside the balance
    vector; in particular no exception of its own reports an invalid
    input. *)
Theorem price_at_balance_Raise (balances : list F) (i j : Z) (e : exn) :
  price_at_balance tp balances i j = Raise e -> price_exn e.
Proof.
  unfold price_at_balance, price_exn. intros H.
  apply bind_Raise in H. destruct H as [H | [d [_ H]]].
  { unfold calculate_d in H.
    destruct (feqb (sum (sorted balances)) f0); [discriminate H |].
    apply calculate_d_loop_Raise in H. unfold arithmetic_exn in H. tauto. }
  apply bind_Raise in H. destruct H as [H | [c [_ H]]].
  { apply c_loop_Raise in H. tauto. }
  apply bind_Raise in H. destruct H as [H | [xi [_ H]]].
  { apply getitem_Raise in H. tauto. }
  apply bind_Raise in H. destruct H as [H | [xj [_ H]]].
  { apply getitem_Raise in H. tauto. }
  apply bind_Raise in H. destruct H as [H | [t1 [_ H]]].
  { apply imulf_Raise in H. tauto. }
  apply bind_Raise in H. destruct H as [H | [t2 [_ H]]].
  { apply float_add_py_Raise in H. tauto. }
  apply bind_Raise in H. destruct H as [H | [t3 [_ H]]].
  { apply imulf_Raise in H. tauto. }
  apply bind_Raise in H. destruct H as [H | [t4 [_ H]]].
  { apply float_add_py_Raise in H. tauto. }
  apply bind_Raise in H. destruct H as [H | [t5 [_ H]]].
  { apply truediv_Raise in H. tauto. }
  apply truediv_Raise in H. tauto.
Qed.

(** X8.  An index outside the balance vector is found only after the
    solver and the loop over the balances have run: when these succeed,
    [price_at_balance] raises [IndexError] for every [i] that is not in
    [-n .. n-1]. *)
Theorem price_at_balance_index_out_of_range
  (balances : list F) (i j : Z) (d c : pyval N) :
  calculate_d tp balances default_max_iterations = Ok d ->
  c_loop d (len balances) (sorted balances) d = Ok c ->
  (i < - len balances \/ len balances <= i)%Z ->
  price_at_balance tp balances i j = Raise IndexError.
Proof.
  intros Hd Hc Hi. unfold price_at_balance. rewrite Hd. cbn [bind].
  rewrite Hc. cbn [bind].
  assert (Hget : getitem balances i = Raise IndexError).
  { unfold getitem, len in *.
    destruct (i <? 0)%Z eqn:Hneg.
    - apply Z.ltb_lt in Hneg.
      destruct (i + Z.of_nat (List.length balances) <? 0)%Z eqn:Hk;
        [reflexivity |].
      apply Z.ltb_ge in Hk. lia.
    - apply Z.ltb_ge in Hneg.
      destruct (i <? 0)%Z eqn:Hk; [reflexivity |].
      destruct (nth_error balances (Z.to_nat i)) as [v |] eqn:Hn;
        [| reflexivity].
      assert (Hlt : (Z.to_nat i < List.length balances)%nat).
      { apply nth_error_Some. congruence. }
      lia. }
  rewrite Hget. reflexivity.
Qed.

End SolverBound.

Section DrawdownErrors.

Context {N : FloatOps}.

(** ** The errors of [get_threshold_multiplier] *)

(** X9.  What [get_threshold_multiplier] raises, and why: [KeyError] for an
    empty collection and for nothing else; its own exception, with the one
    message, for a non-empty collection; otherwise the [ValueError] of
    [min] on a path left empty (or of [int] on a NaN), the [OverflowError]
    of the index computation, or the [IndexError] of the selection.  It
    never raises [ZeroDivisionError] or [TypeError]. *)
Theorem get_threshold_multiplier_Raise
  (paths : list (list F)) (alpha : F) (at_step : option Z) (e : exn) :
  get_threshold_multiplier paths alpha at_step = Raise e ->
  (e = KeyError /\ paths = [])
  \/ (e = Exception step_error
      /\ exists path0 others, paths = path0 :: others
                              /\ (len path0 < resolved_step at_step)%Z)
  \/ (paths <> []
      /\ (e = ValueError \/ e = OverflowError \/ e = IndexError)).
Proof.
  destruct paths as [| path0 others]; intros H.
  - left. cbn in H. injection H as <-. auto.
  - right. unfold get_threshold_multiplier in H.
    fold (resolved_step at_step) in H. cbn [series_first_path bind] in H.
    destruct (len path0 <? resolved_step at_step)%Z eqn:Hlt.
    + left. injection H as <-. split; [reflexivity |].
      exists path0, others. split; [reflexivity |].
      apply Z.ltb_lt. exact Hlt.
    + right. split; [discriminate |].
      apply bind_Raise in H. destruct H as [H | [ds [_ H]]].
      * apply mapM_Raise in H. destruct H as [path [_ H]].
        apply get_initial_drawdown_Raise in H. auto.
      * apply threshold_from_drawdowns_Raise in H. tauto.
Qed.

(** The loop stops at the first path that raises. *)
Lemma mapM_first_Raise {A B : Type} (f : A -> result B) (xs : list A) (e : exn) :
  (forall x e', f x = Raise e' -> e' = e) ->
  Exists (fun x => exists e', f x = Raise e') xs ->
  mapM f xs = Raise e.
Proof.
  intros Hf. induction 1 as [x xs [e' Hx] | x xs _ IH]; simpl.
  - rewrite Hx. cbn. f_equal. eapply Hf. exact Hx.
  - destruct (f x) as [y | e'] eqn:Hx; cbn.
    + rewrite IH. reflexivity.
    + f_equal. eapply Hf. exact Hx.
Qed.

(** X10.  A path that the cut at [at_step] leaves empty makes the method
    raise the [ValueError] of [min] on an empty sequence: for every
    collection that passes the range check and holds such a path; in
    particular for every non-empty collection at [at_step = 0], and, with
    the default [at_step], for every collection whose first path has a
    single element. *)
Theorem empty_cut_raises_ValueError :
  (forall (path0 : list F) (others : list (list F)) (alpha : F)
          (at_step : option Z),
      (resolved_step at_step <= len path0)%Z ->
      Exists (fun path => slice_to path (resolved_step at_step) = [])
             (path0 :: others) ->
      get_threshold_multiplier (path0 :: others) alpha at_step
      = Raise ValueError)
  /\ (forall (path0 : list F) (others : list (list F)) (alpha : F),
         get_threshold_multiplier (path0 :: others) alpha (Some 0%Z)
         = Raise ValueError)
  /\ (forall (x : F) (others : list (list F)) (alpha : F),
         get_threshold_multiplier ([x] :: others) alpha None
         = Raise ValueError).
Proof.
  assert (Hgen : forall (path0 : list F) (others : list (list F)) (alpha : F)
          (at_step : option Z),
      (resolved_step at_step <= len path0)%Z ->
      Exists (fun path => slice_to path (resolved_step at_step) = [])
             (path0 :: others) ->
      get_threshold_multiplier (path0 :: others) alpha at_step
      = Raise ValueError).
  { intros path0 others alpha at_step Hstep Hex.
    rewrite get_threshold_multiplier_checked by exact Hstep.
    rewrite (@mapM_first_Raise _ _ _ _ ValueError).
    - reflexivity.
    - intros path e' H. eapply get_initial_drawdown_Raise. exact H.
    - eapply Exists_impl; [| exact Hex].
      intros path Hp. cbv beta in Hp. rewrite Hp.
      exists ValueError. reflexivity. }
  split; [exact Hgen |]. split.
  - intros path0 others alpha. apply Hgen.
    + cbn. apply len_nonneg.
    + apply Exists_cons_hd. reflexivity.
  - intros x others alpha. apply Hgen.
    + cbn. lia.
    + apply Exists_cons_hd. reflexivity.
Qed.

(** An index outside the samples. *)
Lemma threshold_from_drawdowns_IndexError
  (ds : list F) (alpha nf : F) (k : Z) :
  of_int (len ds) = Some nf ->
  to_int (fmul nf alpha) = IsInt k ->
  (k < - len ds \/ len ds <= k)%Z ->
  threshold_from_drawdowns ds alpha = Raise IndexError.
Proof.
  intros Hn Hk Hrange. unfold threshold_from_drawdowns.
  assert (Hl : len (sort_reverse ds) = len ds).
  { unfold len. rewrite sort_reverse_length. reflexivity. }
  rewrite Hl. unfold imulf, float_of_int. rewrite Hn. cbn [bind].
  unfold py_int. rewrite Hk. cbn [bind].
  assert (Hget : getitem (sort_reverse ds) k = Raise IndexError).
  { unfold getitem. rewrite Hl.
    destruct (k <? 0)%Z eqn:Hneg.
    - apply Z.ltb_lt in Hneg.
      destruct (k + len ds <? 0)%Z eqn:Hk0; [reflexivity |].
      apply Z.ltb_ge in Hk0. pose proof (len_nonneg ds). lia.
    - rewrite Hneg.
      destruct (nth_error (sort_reverse ds) (Z.to_nat k)) as [v |] eqn:Hnth;
        [| reflexivity].
      assert (Hlt : (Z.to_nat k < List.length (sort_reverse ds))%nat).
      { apply nth_error_Some. congruence. }
      apply Z.ltb_ge in Hneg. unfold len in Hl, Hrange. lia. }
  rewrite Hget. reflexivity.
Qed.

(** X11.  The index [int(n * alpha)] is not checked against the number of
    samples: for every collection whose samples are all computed, an index
    outside [-n .. n-1] makes the method raise [IndexError]. *)
Theorem quantile_index_out_of_range
  (path0 : list F) (others : list (list F)) (alpha : F) (at_step : option Z)
  (nf : F) (k : Z) :
  let paths := path0 :: others in
  let step := resolved_step at_step in
  (step <= len path0)%Z ->
  Forall (fun path => slice_to path step <> []) paths ->
  of_int (len paths) = Some nf ->
  to_int (fmul nf alpha) = IsInt k ->
  (k < - len paths \/ len paths <= k)%Z ->
  get_threshold_multiplier paths alpha at_step = Raise IndexError.
Proof.
  intros paths step Hstep Hne Hn Hk Hrange. subst paths step.
  rewrite get_threshold_multiplier_total by assumption.
  apply (@threshold_from_drawdowns_IndexError _ alpha nf k);
    try rewrite len_map; assumption.
Qed.

(** The loop over the cut paths is a loop over the list of the cuts. *)
Lemma mapM_map {A B C : Type} (f : B -> result C) (g : A -> B) (xs : list A) :
  mapM (fun x => f (g x)) xs = mapM f (map g xs).
Proof.
  induction xs as [| x xs IH]; simpl.
  - reflexivity.
  - rewrite IH. reflexivity.
Qed.

(** X12.  With a given [at_step] nothing of a path beyond the cut is read:
    two collections whose paths, cut at [at_step], are the same, and whose
    first paths both pass the range check, give the same result or raise
    the same exception. *)
Theorem multiplier_reads_prefixes_only
  (path0 path0' : list F) (others others' : list (list F)) (alpha : F)
  (step : Z) :
  (step <= len path0)%Z -> (step <= len path0')%Z ->
  map (fun path => slice_to path step) (path0 :: others)
  = map (fun path => slice_to path step) (path0' :: others') ->
  get_threshold_multiplier (path0 :: others) alpha (Some step)
  = get_threshold_multiplier (path0' :: others') alpha (Some step).
Proof.
  intros H0 H0' Hcut.
  rewrite !get_threshold_multiplier_checked by assumption.
  cbn [resolved_step].
  rewrite (mapM_map get_initial_drawdown (fun path => slice_to path step)
             (path0 :: others)).
  rewrite (mapM_map get_initial_drawdown (fun path => slice_to path step)
             (path0' :: others')).
  rewrite Hcut. reflexivity.
Qed.

End DrawdownErrors.

(* ================================================================== *)
(** * Properties of the request layer                                  *)
(* ================================================================== *)

(** ** Dictionaries *)

Section DictFacts.

Variables K V : Type.
Variable eqb : K -> K -> bool.
Hypothesis eqb_eq : forall a b : K, eqb a b = true <-> a = b.

Lemma dict_get_set_same (d : list (K * V)) (k : K) (v : V) :
  dict_get eqb (dict_set eqb d k v) k = Ok v.
Proof.
  induction d as [| [k' v'] d IH]; simpl.
  - rewrite (proj2 (eqb_eq k k) eq_refl). reflexivity.
  - destruct (eqb k' k) eqn:Hk; simpl; rewrite Hk; [reflexivity | exact IH].
Qed.

Lemma dict_get_set_other (d : list (K * V)) (k k' : K) (v : V) :
  k <> k' -> dict_get eqb (dict_set eqb d k v) k' = dict_get eqb d k'.
Proof.
  intros Hne. induction d as [| [k0 v0] d IH]; simpl.
  - destruct (eqb k k') eqn:Hk; [| reflexivity].
    apply eqb_eq in Hk. contradiction.
  - destruct (eqb k0 k) eqn:Hk; simpl.
    + apply eqb_eq in Hk. subst k0.
      destruct (eqb k k') eqn:Hk'; [| reflexivity].
      apply eqb_eq in Hk'. contradiction.
    + destruct (eqb k0 k'); [reflexivity | exact IH].
Qed.

(** A key that can be looked up came from an assignment. *)
Lemma dict_get_set_inv (d : list (K * V)) (k k' : K) (v v' : V) :
  dict_get eqb (dict_set eqb d k v) k' = Ok v' ->
  (k = k' /\ v = v') \/ (k <> k' /\ dict_get eqb d k' = Ok v').
Proof.
  intros H. destruct (eqb k k') eqn:Hk.
  - apply eqb_eq in Hk. subst k'. rewrite dict_get_set_same in H.
    left. split; congruence.
  - assert (Hne : k <> k').
    { intros ->. rewrite (proj2 (eqb_eq k' k') eq_refl) in Hk. discriminate. }
    rewrite dict_get_set_other in H by exact Hne. right. auto.
Qed.

End DictFacts.

Lemma Z_eqb_eq (a b : Z) : Z.eqb a b = true <-> a = b.
Proof. apply Z.eqb_eq. Qed.

Lemma string_eqb_eq (a b : string) : String.eqb a b = true <-> a = b.
Proof. apply String.eqb_eq. Qed.

Section RequestFacts.

Context {N : FloatOps} {IO : IntOps N}.

(** ** The block number *)

(** The client with another answer to the query for the current block. *)
Definition with_current_block (client : SubstrateInterface) (n : Z)
  : SubstrateInterface :=
  {| query_System_Number := Ok n;
     rpc_chain_getBlockHash := rpc_chain_getBlockHash client;
     query_map_Tokens_Accounts := query_map_Tokens_Accounts client |}.

(** X13.  [request_price] never sets [_block_number]: it leaves the
    attribute as it was, and for a request made without a block number the
    current block is fetched, stored in the other attribute,
    [block_number], and not used: the block hash is requested for [None],
    and the price does not depend on the block number that the node
    reported. *)
Theorem current_block_is_not_used :
  (forall self : Hydration_Request,
      _block_number (snd (request_price self)) = _block_number self)
  /\ (forall (pair : Stableswap_Pair_object) (client : SubstrateInterface)
             (n n' : Z),
         fst (request_price
                (new_request pair (with_current_block client n) None))
         = fst (request_price
                  (new_request pair (with_current_block client n') None))
         /\ block_number
              (snd (request_price
                      (new_request pair (with_current_block client n) None)))
            = Some n).
Proof.
  split.
  - intros self. unfold request_price.
    destruct (_block_number self) as [b |] eqn:Hb; [exact Hb |].
    unfold fetch_current_block.
    destruct (query_System_Number (_client self)); cbn; [reflexivity | exact Hb].
  - intros pair client n n'. split; reflexivity.
Qed.

(** ** The entries of the account *)

Lemma token_dict_get (pair : Stableswap_Pair_object) (k : Z)
  (token : Hydration_Token) :
  dict_get Z.eqb (token_dict_of pair) k = Ok token ->
  (k = _id (_quote_token pair) /\ token = _quote_token pair)
  \/ (k = _id (_base_token pair) /\ token = _base_token pair
      /\ _id (_base_token pair) <> _id (_quote_token pair)).
Proof.
  unfold token_dict_of. intros H.
  apply (@dict_get_set_inv _ _ _ Z_eqb_eq) in H.
  destruct H as [[<- <-] | [Hne H]]; [left; auto |].
  apply (@dict_get_set_inv _ _ _ Z_eqb_eq) in H.
  destruct H as [[<- <-] | [_ H]]; [| discriminate H].
  right. auto.
Qed.

Lemma token_dict_missing (pair : Stableswap_Pair_object) (k : Z) :
  k <> _id (_base_token pair) -> k <> _id (_quote_token pair) ->
  dict_get Z.eqb (token_dict_of pair) k = Raise KeyError.
Proof.
  intros Hb Hq. unfold token_dict_of.
  rewrite (@dict_get_set_other _ _ _ Z_eqb_eq) by congruence.
  rewrite (@dict_get_set_other _ _ _ Z_eqb_eq) by congruence.
  reflexivity.
Qed.

(** The loop up to an entry: entries that are processed do not stop it. *)
Lemma balances_loop_app (token_dict : list (Z * Hydration_Token))
  (done rest : list (Z * option Z)) (balances : list (string * F)) :
  balances_loop token_dict (done ++ rest) balances =
  (balances' <- balances_loop token_dict done balances ;;
   balances_loop token_dict rest balances').
Proof.
  revert balances. induction done as [| [k free] done IH]; intros balances.
  - reflexivity.
  - cbn [app balances_loop].
    destruct (dict_get Z.eqb token_dict k) as [token | e]; [| reflexivity].
    cbn [bind].
    destruct (scaled_balance free (_decimals token)) as [balance | e];
      [| reflexivity].
    cbn [bind]. apply IH.
Qed.

(** X14.  The account may hold only the two tokens of the pair: when the
    entries that the node returns are processed up to one whose key is the
    id of neither token, [request_token_balances] raises [KeyError]. *)
Theorem foreign_token_raises_KeyError
  (self : Hydration_Request) (block_hash : option string)
  (done rest : list (Z * option Z)) (k : Z) (free : option Z)
  (balances : list (string * F)) :
  let pair := _token_pair self in
  fetch_blockhash_by_block_number self (_block_number self) = Ok block_hash ->
  query_map_Tokens_Accounts (_client self) (_account pair) block_hash
  = Ok (done ++ (k, free) :: rest) ->
  balances_loop (token_dict_of pair) done [] = Ok balances ->
  k <> _id (_base_token pair) -> k <> _id (_quote_token pair) ->
  request_token_balances self = Raise KeyError.
Proof.
  intros pair Hhash Hmap Hdone Hb Hq. unfold request_token_balances.
  rewrite Hhash. cbn [bind]. fold pair. rewrite Hmap. cbn [bind].
  rewrite balances_loop_app, Hdone. cbn [bind balances_loop].
  rewrite token_dict_missing by assumption. reflexivity.
Qed.

(** The names under which the loop has stored a balance. *)
Lemma balances_loop_names (token_dict : list (Z * Hydration_Token))
  (entries : list (Z * option Z)) (balances balances' : list (string * F))
  (name : string) (v : F) :
  balances_loop token_dict entries balances = Ok balances' ->
  dict_get String.eqb balances' name = Ok v ->
  (exists v0, dict_get String.eqb balances name = Ok v0)
  \/ exists k token,
       In k (map fst entries)
       /\ dict_get Z.eqb token_dict k = Ok token
       /\ _name token = name.
Proof.
  revert balances. induction entries as [| [k free] entries IH];
    intros balances Hloop Hget.
  - injection Hloop as <-. left. exists v. exact Hget.
  - cbn [balances_loop] in Hloop.
    destruct (dict_get Z.eqb token_dict k) as [token | e] eqn:Htok;
      [| discriminate Hloop].
    cbn [bind] in Hloop.
    destruct (scaled_balance free (_decimals token)) as [balance | e];
      [| discriminate Hloop].
    cbn [bind] in Hloop.
    destruct (IH _ Hloop Hget) as [[v0 Hv0] | [k' [token' [Hin [Ht Hn]]]]].
    + apply (@dict_get_set_inv _ _ _ string_eqb_eq) in Hv0.
      destruct Hv0 as [[Hname _] | [_ Hv0]].
      * right. exists k, token. split; [left; reflexivity | auto].
      * left. exists v0. exact Hv0.
    + right. exists k', token'. split; [right; exact Hin | auto].
Qed.

(** X15.  A price is returned only for an account that holds both tokens:
    whenever [request_price] returns a price for a pair of tokens with
    different names, the entries that the node returned for the account
    include one under the id of the base token and one under the id of the
    quote token. *)
Theorem price_needs_both_tokens (self : Hydration_Request) (p : F) :
  let pair := _token_pair self in
  _name (_base_token pair) <> _name (_quote_token pair) ->
  fst (request_price self) = Ok p ->
  exists (block_hash : option string) (entries : list (Z * option Z)),
    fetch_blockhash_by_block_number self (_block_number self) = Ok block_hash
    /\ query_map_Tokens_Accounts (_client self) (_account pair) block_hash
       = Ok entries
    /\ In (_id (_base_token pair)) (map fst entries)
    /\ In (_id (_quote_token pair)) (map fst entries).
Proof.
  intros pair Hnames H. unfold request_price in H.
  assert (Hcore :
    (balances <- request_token_balances self ;;
     base <- dict_get String.eqb balances (_name (_base_token pair)) ;;
     quote <- dict_get String.eqb balances (_name (_quote_token pair)) ;;
     price_at_balance (_numbers pair) [base; quote] 1 0) = Ok p).
  { destruct (_block_number self) as [b |] eqn:Hb.
    - exact H.
    - destruct (fetch_current_block self) as [n | e]; cbn in H.
      + unfold request_token_balances, fetch_blockhash_by_block_number in *.
        cbn [_token_pair _client _block_number] in H.
        rewrite Hb. exact H.
      + discriminate H. }
  clear H.
  apply bind_Ok in Hcore. destruct Hcore as [balances [Hbal Hcore]].
  apply bind_Ok in Hcore. destruct Hcore as [base [Hbase Hcore]].
  apply bind_Ok in Hcore. destruct Hcore as [quote [Hquote _]].
  unfold request_token_balances in Hbal.
  apply bind_Ok in Hbal. destruct Hbal as [block_hash [Hhash Hbal]].
  apply bind_Ok in Hbal. destruct Hbal as [entries [Hmap Hloop]].
  exists block_hash, entries. split; [exact Hhash |]. split; [exact Hmap |].
  fold pair in Hloop.
  split.
  - destruct (@balances_loop_names _ _ _ _ _ _ Hloop Hbase)
      as [[v0 Hv0] | [k [token [Hin [Htok Hname]]]]]; [discriminate Hv0 |].
    apply token_dict_get in Htok.
    destruct Htok as [[_ ->] | [-> _]]; [congruence | exact Hin].
  - destruct (@balances_loop_names _ _ _ _ _ _ Hloop Hquote)
      as [[v0 Hv0] | [k [token [Hin [Htok Hname]]]]]; [discriminate Hv0 |].
    apply token_dict_get in Htok.
    destruct Htok as [[-> _] | [_ [-> _]]]; [exact Hin | congruence].
Qed.

(** X16.  The balances are matched to the tokens by id and name, not by
    position: for an account that holds exactly the two tokens (of
    different ids and names), in whichever order the node lists them, the
    price is [price_at_balance] of the scaled base balance followed by the
    scaled quote balance, with the default indices [i = 1], [j = 0]. *)
Theorem price_of_two_entries
  (self : Hydration_Request) (block_hash : option string)
  (entries : list (Z * option Z)) (free_base free_quote : option Z)
  (base quote : F) :
  let pair := _token_pair self in
  _id (_base_token pair) <> _id (_quote_token pair) ->
  _name (_base_token pair) <> _name (_quote_token pair) ->
  (_block_number self = None -> exists n, fetch_current_block self = Ok n) ->
  fetch_blockhash_by_block_number self (_block_number self) = Ok block_hash ->
  query_map_Tokens_Accounts (_client self) (_account pair) block_hash
  = Ok entries ->
  Permutation entries [(_id (_base_token pair), free_base);
                       (_id (_quote_token pair), free_quote)] ->
  scaled_balance free_base (_decimals (_base_token pair)) = Ok base ->
  scaled_balance free_quote (_decimals (_quote_token pair)) = Ok quote ->
  fst (request_price self)
  = price_at_balance (_numbers pair) [base; quote] 1 0.
Proof.
  intros pair Hids Hnames Hcur Hhash Hmap Hperm Hsb Hsq.
  assert (Htb : dict_get Z.eqb (token_dict_of pair) (_id (_base_token pair))
                = Ok (_base_token pair)).
  { unfold token_dict_of.
    rewrite (@dict_get_set_other _ _ _ Z_eqb_eq) by congruence.
    apply (@dict_get_set_same _ _ _ Z_eqb_eq). }
  assert (Htq : dict_get Z.eqb (token_dict_of pair) (_id (_quote_token pair))
                = Ok (_quote_token pair)).
  { unfold token_dict_of. apply (@dict_get_set_same _ _ _ Z_eqb_eq). }
  assert (Hcore :
    (balances <- request_token_balances self ;;
     b <- dict_get String.eqb balances (_name (_base_token pair)) ;;
     q <- dict_get String.eqb balances (_name (_quote_token pair)) ;;
     price_at_balance (_numbers pair) [b; q] 1 0)
    = price_at_balance (_numbers pair) [base; quote] 1 0).
  { unfold request_token_balances. rewrite Hhash. cbn [bind].
    fold pair. rewrite Hmap. cbn [bind].
    apply Permutation_sym, Permutation_length_2_inv in Hperm.
    destruct Hperm as [-> | ->]; cbn [balances_loop].
    - rewrite Htb. cbn [bind]. rewrite Hsb. cbn [bind].
      rewrite Htq. cbn [bind]. rewrite Hsq. cbn [bind dict_set].
      destruct (String.eqb (_name (_base_token pair))
                           (_name (_quote_token pair))) eqn:Hn;
        [apply String.eqb_eq in Hn; contradiction |].
      cbn [dict_get]. rewrite String.eqb_refl. cbn [bind].
      rewrite Hn. rewrite String.eqb_refl. reflexivity.
    - rewrite Htq. cbn [bind]. rewrite Hsq. cbn [bind].
      rewrite Htb. cbn [bind]. rewrite Hsb. cbn [bind dict_set].
      destruct (String.eqb (_name (_quote_token pair))
                           (_name (_base_token pair))) eqn:Hn;
        [apply String.eqb_eq in Hn; congruence |].
      cbn [dict_get]. rewrite Hn. rewrite !String.eqb_refl. cbn [bind].
      reflexivity. }
  unfold request_price.
  destruct (_block_number self) as [b |] eqn:Hb.
  - exact Hcore.
  - destruct (Hcur eq_refl) as [n Hn]. rewrite Hn. cbn [bind fst].
    unfold request_token_balances, fetch_blockhash_by_block_number in *.
    cbn [_token_pair _client _block_number].
    rewrite Hb in Hcore. exact Hcore.
Qed.

(** ** The cached price *)

(** X17.  [get_price] stores what it returns: after a call that returns a
    price the attribute [price] of the pair holds that price (the
    reciprocal, with [inverse]), and nothing else of the pair has changed;
    a call that raises leaves the pair as it was.  With [inverse] the
    result is [1 / price], and a price of zero raises
    [ZeroDivisionError]. *)
Theorem get_price_caches_result
  (self : Stableswap_Pair_object) (client : SubstrateInterface)
  (block : option Z) (inverse : bool) :
  let outcome := get_price self client block inverse in
  let requested :=
    fst (request_price (new_request self client block)) in
  (forall p : F, fst outcome = Ok p -> snd outcome = set_price self p)
  /\ (forall e : exn, fst outcome = Raise e -> snd outcome = self)
  /\ (inverse = false -> fst outcome = requested)
  /\ (inverse = true ->
      fst outcome = (price <- requested ;; reciprocal price))
  /\ (forall price : F,
        inverse = true -> requested = Ok price -> feqb price f0 = true ->
        of_int 1 <> None ->
        fst outcome = Raise ZeroDivisionError).
Proof.
  intros outcome requested. subst outcome. unfold get_price.
  fold requested.
  destruct requested as [price | e]; cbn [bind].
  - destruct inverse; cbn [negb].
    + destruct (reciprocal price) as [p1 | e1] eqn:Hr; cbn [fst snd].
      * repeat split; try congruence.
        intros price' _ Hp Hz H1. injection Hp as <-.
        unfold reciprocal, float_of_int, truediv in Hr.
        destruct (of_int 1); [| congruence].
        cbn [bind] in Hr. rewrite Hz in Hr. discriminate Hr.
      * repeat split; try congruence.
        intros price' _ Hp Hz H1. injection Hp as <-.
        unfold reciprocal, float_of_int, truediv in Hr.
        destruct (of_int 1); [| congruence].
        cbn [bind] in Hr. rewrite Hz in Hr. symmetry. exact Hr.
    + cbn [fst snd]. repeat split; try congruence.
  - cbn [fst snd]. destruct inverse; repeat split; try congruence.
Qed.

End RequestFacts.

(* ================================================================== *)
(** * Rounding in the binary64 format: exact results                   *)
(* ================================================================== *)

(** Where the operations of the doubles do not round: the difference of
    two different floats is not zero, the quotient of a float by itself is
    [1.0], the product with [1.0] and the conversion of a small integer are
    exact. *)
Module ExactRounding.

Import Rounding.

Local Open Scope Z_scope.

(** ** Rounding never returns zero above the smallest exponent *)

Lemma shr_fexp_positive (m e : Z) (l : location) (mrs' : shr_record) (e' : Z) :
  0 < m -> -1074 < Zdigits2 m + e ->
  shr_fexp prec emax m e l = (mrs', e') ->
  0 < shr_m mrs' /\ Zdigits2 (shr_m mrs') + e' = Zdigits2 m + e.
Proof.
  intros Hm Hd Hshr.
  unfold shr_fexp, shr in Hshr. rewrite fexp64_eq in Hshr.
  destruct (Z.max (Zdigits2 m + e - 53) (-1074) - e) as [| p | p] eqn:Hn.
  - injection Hshr as <- <-. rewrite shr_m_of_loc. split; [exact Hm | lia].
  - injection Hshr as <- <-.
    rewrite iter_shr_m by (rewrite shr_m_of_loc; lia).
    rewrite shr_m_of_loc.
    destruct (@digits_div_pow2 m (Zpos p)) as [Hq Hdq]; lia.
  - injection Hshr as <- <-. rewrite shr_m_of_loc. split; [exact Hm | lia].
Qed.

Lemma binary_round_aux_nonzero (s : bool) (mx ex : Z) (lx : location) :
  0 < mx -> -1074 < Zdigits2 mx + ex ->
  forall sz : bool, binary_round_aux prec emax s mx ex lx <> S754_zero sz.
Proof.
  intros Hm Hd sz. unfold binary_round_aux.
  destruct (shr_fexp prec emax mx ex lx) as [mrs' e'] eqn:H1.
  destruct (@shr_fexp_positive _ _ _ _ _ Hm Hd H1) as [Hm1 Hd1].
  set (m2 := round_nearest_even (shr_m mrs') (loc_of_shr_record mrs')).
  pose proof (round_nearest_even_bounds (shr_m mrs') (loc_of_shr_record mrs'))
    as Hb. fold m2 in Hb.
  assert (Hm2 : 0 < m2) by lia.
  assert (Hd2 : -1074 < Zdigits2 m2 + e').
  { pose proof (@digits_mono (shr_m mrs') m2 Hm1 ltac:(lia)). lia. }
  destruct (shr_fexp prec emax m2 e' loc_Exact) as [mrs'' e''] eqn:H2.
  destruct (@shr_fexp_positive _ _ _ _ _ Hm2 Hd2 H2) as [Hm3 _].
  destruct (shr_m mrs'') as [| m3 | m3]; try lia.
  destruct (e'' <=? emax - prec); discriminate.
Qed.

Lemma binary_round_nonzero (s : bool) (mx : positive) (ex : Z) :
  -1074 <= ex ->
  forall sz : bool, binary_round prec emax s mx ex <> S754_zero sz.
Proof.
  intros Hex sz. unfold binary_round.
  rewrite fexp64_eq. unfold shl_align.
  destruct (Z.max (Z.pos (digits2_pos mx) + ex - 53) (-1074) - ex)
    as [| d | d] eqn:Hd;
    apply binary_round_aux_nonzero; cbn [Zdigits2]; lia.
Qed.

Lemma binary_normalize_nonzero (m e : Z) :
  m <> 0 -> -1074 <= e ->
  forall sz : bool, binary_normalize prec emax m e false <> S754_zero sz.
Proof.
  intros Hm He sz. destruct m as [| p | p]; [congruence | |];
    cbn [binary_normalize]; apply binary_round_nonzero; exact He.
Qed.

(** ** The difference of two floats in strict order *)

Lemma SFltb_finite_neg (m1 m2 : positive) (e1 e2 : Z) :
  SFltb (S754_finite true m1 e1) (S754_finite true m2 e2) = true ->
  e2 < e1 \/ (e1 = e2 /\ Zpos m2 < Zpos m1).
Proof.
  unfold SFltb. cbn [SFcompare].
  destruct (e1 ?= e2) eqn:He.
  - apply Z.compare_eq_iff in He.
    change (Pos.compare_cont Eq m1 m2) with (Z.pos m1 ?= Z.pos m2).
    destruct (Z.pos m1 ?= Z.pos m2) eqn:Hm; try discriminate; intros _; right.
    apply Z.compare_gt_iff in Hm. lia.
  - discriminate.
  - intros _. left. apply Z.compare_gt_iff in He. lia.
Qed.

(** Canonical mantissas at different exponents: the one at the larger
    exponent is the larger number. *)
Lemma canonical_strict (m1 m2 : positive) (e1 e2 : Z) :
  Z.max (Zdigits2 (Zpos m1) + e1 - 53) (-1074) = e1 ->
  Z.max (Zdigits2 (Zpos m2) + e2 - 53) (-1074) = e2 ->
  e1 < e2 \/ (e1 = e2 /\ Zpos m1 < Zpos m2) ->
  Zpos m1 * 2 ^ (e1 - Z.min e1 e2) < Zpos m2 * 2 ^ (e2 - Z.min e1 e2).
Proof.
  intros H1 H2 [He | [-> Hm]].
  - rewrite Z.min_l by lia. rewrite Z.sub_diag. change (2 ^ 0) with 1.
    assert (Hd2 : Zdigits2 (Z.pos m2) = 53) by lia.
    assert (Hd1 : Zdigits2 (Z.pos m1) <= 53) by lia.
    assert (Hlt : Z.pos m1 < 2 ^ 53) by (apply digits_lt_pow; lia).
    assert (Hge : 2 ^ 52 <= Z.pos m2) by (apply digits_pow_le; lia).
    assert (Hp : 2 ^ 1 <= 2 ^ (e2 - e1)) by (apply Z.pow_le_mono_r; lia).
    change (2 ^ 1) with 2 in Hp.
    assert (H53 : 2 ^ 53 = 2 ^ 52 * 2) by reflexivity.
    nia.
  - rewrite Z.min_id, Z.sub_diag. change (2 ^ 0) with 1. lia.
Qed.

Lemma SFsub_ordered_nonzero (x y : spec_float) :
  SpecFloat.valid_binary prec emax x = true ->
  SpecFloat.valid_binary prec emax y = true ->
  SFltb x y = true ->
  forall sz : bool, SFsub prec emax x y <> S754_zero sz.
Proof.
  intros Hvx Hvy Hlt sz.
  destruct x as [sx | sx | | sx mx ex], y as [sy | sy | | sy my ey];
    try discriminate Hlt;
    try (destruct sx; discriminate);
    try (destruct sy; discriminate);
    try (destruct sx, sy; discriminate).
  apply valid_canonical in Hvx. apply valid_canonical in Hvy.
  cbn [SFsub].
  apply binary_normalize_nonzero; [| lia].
  rewrite !shl_align_fst by lia.
  pose proof (@pow2_pos (ex - Z.min ex ey) ltac:(lia)) as Hpx.
  pose proof (@pow2_pos (ey - Z.min ex ey) ltac:(lia)) as Hpy.
  destruct sx, sy; cbn [cond_Zopp].
  - apply SFltb_finite_neg in Hlt.
    pose proof (@canonical_strict my mx ey ex Hvy Hvx ltac:(lia)) as Hs.
    rewrite (Z.min_comm ey ex) in Hs. lia.
  - nia.
  - discriminate Hlt.
  - apply SFltb_finite_pos in Hlt.
    pose proof (@canonical_strict mx my ex ey Hvx Hvy ltac:(lia)) as Hs.
    lia.
Qed.

(** ** Comparisons with an absolute value *)

Lemma SFabs_ltb_positive (d p : spec_float) :
  SFltb (SFabs d) p = true -> SFltb (S754_zero false) p = true.
Proof.
  destruct d as [sd | sd | | sd md ed], p as [sp | sp | | sp mp ep];
    cbn; try discriminate; try (destruct sp; discriminate);
    try (destruct sp; cbn; congruence).
Qed.

Lemma SFabs_leb_not_positive (d p : spec_float) :
  SFltb (S754_zero false) p = false ->
  SFleb (SFabs d) p = true ->
  exists s : bool, d = S754_zero s.
Proof.
  destruct d as [sd | sd | | sd md ed], p as [sp | sp | | sp mp ep];
    cbn; try discriminate; try (destruct sp; discriminate);
    try (intros _ _; exists sd; reflexivity).
Qed.

(** ** The quotient of a float by itself *)

Lemma SFdiv_self (s : bool) (m : positive) (e : Z) :
  SFdiv prec emax (S754_finite s m e) (S754_finite s m e) = SF_one.
Proof.
  cbn [SFdiv]. unfold SFdiv_core_binary.
  replace (Zdigits2 (Z.pos m) + e - (Zdigits2 (Z.pos m) + e)) with 0 by lia.
  rewrite Z.sub_diag.
  change (Z.min (fexp prec emax 0) 0) with (-53).
  change (0 - -53) with 53.
  rewrite Z.shiftl_mul_pow2 by lia.
  pose proof (Z.div_eucl_eq (Z.pos m * 2 ^ 53) (Z.pos m) ltac:(lia)) as Heucl.
  pose proof (Z.mod_pos_bound (Z.pos m * 2 ^ 53) (Z.pos m) ltac:(lia)) as Hmod.
  unfold Z.modulo in Hmod.
  destruct (Z.div_eucl (Z.pos m * 2 ^ 53) (Z.pos m)) as [q r].
  assert (Hq : q = 2 ^ 53) by nia.
  assert (Hr : r = 0) by nia.
  subst q r. rewrite new_location_zero.
  destruct s; reflexivity.
Qed.

(** ** Floats in [-1, 0] and their order *)

Lemma in_neg_unit_bounds (v : spec_float) :
  SpecFloat.valid_binary prec emax v = true ->
  in_neg_unit v ->
  SFleb (S754_finite true 4503599627370496 (-52)) v = true
  /\ SFleb v (S754_zero false) = true.
Proof.
  intros Hv [[s ->] | [m [e [-> [He Hm]]]]].
  - split; reflexivity.
  - split; [| reflexivity].
    apply valid_canonical in Hv.
    unfold SFleb. cbn [SFcompare].
    destruct (-52 ?= e) eqn:Hc.
    + apply Z.compare_eq_iff in Hc. subst e.
      change (Pos.compare_cont Eq 4503599627370496 m)
        with (Z.pos 4503599627370496 ?= Z.pos m).
      destruct (Z.pos 4503599627370496 ?= Z.pos m) eqn:Hc; try reflexivity.
      change (Z.pos 4503599627370496 < Z.pos m) in Hc.
      change (2 ^ (- -52)) with 4503599627370496 in Hm. lia.
    + change (-52 < e) in Hc.
      assert (Hd : Zdigits2 (Z.pos m) = 53) by lia.
      assert (Hge : 2 ^ 52 <= Z.pos m) by (apply digits_pow_le; lia).
      assert (Hp : 2 ^ (- e) <= 2 ^ 51) by (apply Z.pow_le_mono_r; lia).
      assert (H52 : 2 ^ 52 = 2 * 2 ^ 51) by reflexivity.
      lia.
    + reflexivity.
Qed.

(** ** Integers that are doubles *)

Lemma digits_mul_pow2 (m k : Z) :
  0 < m -> 0 <= k -> Zdigits2 (m * 2 ^ k) = Zdigits2 m + k.
Proof.
  intros Hm Hk. pose proof (@pow2_pos k Hk).
  rewrite !Zdigits2_log2 by nia.
  rewrite Z.log2_mul_pow2 by lia. lia.
Qed.

(** A mantissa that carries [k] zero bits below a canonical mantissa is
    rounded to that mantissa, exactly. *)
Lemma binary_round_aux_exact (s : bool) (m : positive) (e k : Z) :
  0 <= k ->
  Z.max (Zdigits2 (Zpos m) + e - 53) (-1074) = e ->
  e <= 971 ->
  binary_round_aux prec emax s (Zpos m * 2 ^ k) (e - k) loc_Exact
  = S754_finite s m e.
Proof.
  intros Hk Hcan He. unfold binary_round_aux.
  assert (H1 : shr_fexp prec emax (Zpos m * 2 ^ k) (e - k) loc_Exact
               = (Build_shr_record (Zpos m) false false, e)).
  { unfold shr_fexp, shr. rewrite fexp64_eq.
    rewrite digits_mul_pow2 by lia.
    replace (Zdigits2 (Z.pos m) + k + (e - k) - 53)
      with (Zdigits2 (Z.pos m) + e - 53) by lia.
    rewrite Hcan. replace (e - (e - k)) with k by lia.
    destruct k as [| p | p]; try lia.
    - rewrite Z.mul_1_r, Z.sub_0_r. reflexivity.
    - cbn [shr_record_of_loc].
      rewrite iter_shr_exact.
      + rewrite Z.div_mul by (pose proof (@pow2_pos (Zpos p) ltac:(lia)); lia).
        f_equal. lia.
      + pose proof (@pow2_pos (Zpos p) ltac:(lia)). nia.
      + apply Z.mod_mul. pose proof (@pow2_pos (Zpos p) ltac:(lia)). lia. }
  rewrite H1. cbn [shr_m loc_of_shr_record round_nearest_even].
  assert (H2 : shr_fexp prec emax (Zpos m) e loc_Exact
               = (Build_shr_record (Zpos m) false false, e)).
  { unfold shr_fexp, shr. rewrite fexp64_eq, Hcan, Z.sub_diag. reflexivity. }
  rewrite H2. cbn [shr_m].
  replace (e <=? emax - prec) with true; [reflexivity |].
  symmetry. apply Z.leb_le. change (emax - prec) with 971. exact He.
Qed.

(** [float(n)] for [0 < n < 2^53] is [n] itself. *)
Lemma binary_normalize_int (n : Z) :
  0 < n < 2 ^ 53 ->
  exists (m : positive) (e : Z),
    binary_normalize prec emax n 0 false = S754_finite false m e
    /\ Z.max (Zdigits2 (Zpos m) + e - 53) (-1074) = e
    /\ -52 <= e <= 0
    /\ Zpos m = n * 2 ^ (- e).
Proof.
  intros [Hn0 Hn]. destruct n as [| p | p]; try lia.
  cbn [binary_normalize]. unfold binary_round.
  assert (Hd : 1 <= Zdigits2 (Zpos p) <= 53).
  { split; [cbn; lia |]. apply digits_lt_pow; lia. }
  change (Z.pos (digits2_pos p)) with (Zdigits2 (Zpos p)).
  rewrite fexp64_eq, Z.add_0_r.
  set (d := Zdigits2 (Zpos p)) in *.
  replace (Z.max (d - 53) (-1074)) with (d - 53) by lia.
  pose proof (@shl_align_fst p 0 (d - 53) ltac:(lia)) as Hfst.
  assert (Hsnd : snd (shl_align p 0 (d - 53)) = d - 53).
  { unfold shl_align. destruct (d - 53 - 0) as [| q | q] eqn:Hq;
      cbn [snd]; lia. }
  destruct (shl_align p 0 (d - 53)) as [mz ez]. cbn [fst snd] in Hfst, Hsnd.
  subst ez. replace (0 - (d - 53)) with (53 - d) in Hfst by lia.
  assert (Hdz : Zdigits2 (Zpos mz) = 53).
  { rewrite Hfst, digits_mul_pow2 by lia. fold d. lia. }
  exists mz, (d - 53).
  split.
  - pose proof (@binary_round_aux_exact false mz (d - 53) 0 ltac:(lia)
                  ltac:(lia) ltac:(lia)) as H.
    rewrite Z.mul_1_r, Z.sub_0_r in H. exact H.
  - split; [lia |]. split; [lia |].
    rewrite Hfst. f_equal. f_equal. lia.
Qed.

Lemma canonical_valid (s : bool) (m : positive) (e : Z) :
  Z.max (Zdigits2 (Zpos m) + e - 53) (-1074) = e -> e <= 971 ->
  SpecFloat.valid_binary prec emax (S754_finite s m e) = true.
Proof.
  intros Hcan He. cbn [SpecFloat.valid_binary].
  unfold bounded, canonical_mantissa. rewrite fexp64_eq.
  change (Z.pos (digits2_pos m)) with (Zdigits2 (Zpos m)).
  rewrite Hcan, Z.eqb_refl. cbn [andb].
  apply Z.leb_le. change (emax - prec) with 971. exact He.
Qed.

(** A finite float times [1.0] is that float. *)
Lemma SFmul_one (s : bool) (m : positive) (e : Z) :
  SpecFloat.valid_binary prec emax (S754_finite s m e) = true ->
  SFmul prec emax (S754_finite s m e) SF_one = S754_finite s m e.
Proof.
  intros Hv. pose proof (valid_canonical _ _ _ Hv) as Hcan.
  assert (He : e <= 971).
  { cbn [SpecFloat.valid_binary] in Hv. unfold bounded in Hv.
    apply andb_prop in Hv. destruct Hv as [_ Hv].
    apply Z.leb_le in Hv. exact Hv. }
  unfold SF_one. cbn [SFmul]. rewrite xorb_false_r.
  rewrite Pos2Z.inj_mul.
  change (Z.pos 4503599627370496) with (2 ^ 52).
  replace (e + -52) with (e - 52) by lia.
  apply binary_round_aux_exact; lia.
Qed.

End ExactRounding.

(* ================================================================== *)
(** * More on the program on IEEE 754 doubles                          *)
(* ================================================================== *)

Module Binary64Facts.

Set Warnings "-inexact-float".

Import Rounding.
Import ExactRounding.
Import Binary64.

Open Scope float_scope.

(** ** A precision that is not positive *)

(** X18.  The convergence test cannot be met with a precision that is not
    above zero (zero, negative, or NaN): for such a token pair
    [has_converged] rejects every pair of iterates, and [calculate_d]
    never returns a float, whatever the balances and the iteration bound. *)
Theorem precision_must_be_positive (tp : Stableswap_Pair binary64) :
  (0 <? _precision tp) = false ->
  (forall v0 v1 : float, has_converged tp v0 v1 = false)
  /\ (forall (balances : list float) (max_iterations : Z) (x : float),
         calculate_d tp balances max_iterations <> Ok (@VFloat binary64 x)).
Proof.
  intros Hp.
  assert (Hnever : forall v0 v1 : float, has_converged tp v0 v1 = false).
  { intros v0 v1. unfold has_converged. cbn [fabs fsub fleb fltb binary64].
    set (p := _precision tp) in *. cbn [F binary64] in p.
    rewrite FloatAxioms.ltb_spec in Hp.
    change (Prim2SF 0) with (S754_zero false) in Hp.
    assert (HA : (abs (v0 - v1) <? p) = false).
    { destruct (abs (v0 - v1) <? p) eqn:H; [| reflexivity].
      rewrite FloatAxioms.ltb_spec, abs_spec in H.
      apply SFabs_ltb_positive in H. congruence. }
    assert (HB : (v0 <? v1) && (abs (v0 - v1) <=? p) = false).
    { destruct (v0 <? v1) eqn:Hlt; [| reflexivity].
      destruct (abs (v0 - v1) <=? p) eqn:Hle; [| reflexivity].
      exfalso.
      rewrite FloatAxioms.leb_spec, abs_spec in Hle.
      destruct (SFabs_leb_not_positive _ _ Hp Hle) as [s Hz].
      rewrite sub_spec in Hz.
      rewrite FloatAxioms.ltb_spec in Hlt.
      exact (@SFsub_ordered_nonzero _ _ (Prim2SF_valid v0) (Prim2SF_valid v1)
               Hlt s Hz). }
    rewrite HA, HB, andb_false_r. reflexivity. }
  split; [exact Hnever |].
  intros balances max_iterations x H.
  unfold calculate_d in H.
  destruct (@feqb binary64 (sum (@sorted binary64 balances)) f0); [discriminate H |].
  apply calculate_d_loop_converged in H.
  destruct H as [d_prev [_ Hc]]. rewrite Hnever in Hc. discriminate Hc.
Qed.

(** A pool configuration with a precision of zero. *)
Definition pool_0 : Stableswap_Pair binary64 :=
  @Build_Stableswap_Pair binary64 100 0.003 0.

Lemma precision_must_be_positive_witness :
  (0 <? _precision pool_0) = false
  /\ has_converged pool_0 4000 4000 = false.
Proof.
  split; [reflexivity |].
  exact (proj1 (@precision_must_be_positive pool_0 eq_refl) 4000 4000).
Defined.

(** ** Paths that never fall below their start *)

(** Finite and not zero. *)
Definition finite_nonzero (x : float) : bool := is_finite x && negb (x =? 0).

Lemma finite_nonzero_SF (x : float) :
  finite_nonzero x = true ->
  exists (s : bool) (m : positive) (e : Z), Prim2SF x = S754_finite s m e.
Proof.
  unfold finite_nonzero, is_finite, is_nan, is_infinity.
  rewrite !FloatAxioms.eqb_spec, abs_spec.
  change (Prim2SF 0) with (S754_zero false).
  change (Prim2SF infinity) with (S754_infinity false).
  destruct (Prim2SF x) as [s | s | | s m e].
  - cbn. discriminate.
  - destruct s; discriminate.
  - discriminate.
  - intros _. exists s, m, e. reflexivity.
Qed.

Lemma div_self (x : float) : finite_nonzero x = true -> x / x = 1.
Proof.
  intros Hx. destruct (finite_nonzero_SF x Hx) as [s [m [e H]]].
  apply Prim2SF_inj. rewrite div_spec, H, Prim2SF_one.
  apply SFdiv_self.
Qed.

Lemma min_from_start (x : float) (rest : list float) :
  Forall (fun y => (y <? x) = false) rest -> @min_from binary64 x rest = x.
Proof.
  unfold min_from. induction 1 as [| y rest Hy _ IH]; cbn [fold_left].
  - reflexivity.
  - cbn [fltb binary64]. rewrite Hy. exact IH.
Qed.

(** A path with a finite first value other than zero, below which no later
    value falls. *)
Definition never_below_start (path : list float) : Prop :=
  match path with
  | [] => False
  | x :: rest =>
      finite_nonzero x = true /\ Forall (fun y => (y <? x) = false) rest
  end.

Lemma drawdown_never_below_start (path : list float) :
  never_below_start path -> @drawdown binary64 path = 0.
Proof.
  destruct path as [| x rest]; [intros [] |]. intros [Hx Hrest].
  cbn [drawdown fsub fdiv f1 binary64].
  rewrite min_from_start by exact Hrest.
  rewrite div_self by exact Hx. reflexivity.
Qed.

(** X19.  A path that never falls below its first value has no drawdown:
    for every path whose first value is finite and not zero and whose later
    values are not smaller, [get_initial_drawdown] returns exactly [0.0],
    rounding included; and on a collection of such paths the multiplier is
    exactly [1.0], for every [alpha] whose index is in range. *)
Theorem no_drawdown_gives_unit_multiplier :
  (forall path : list float,
      never_below_start path ->
      @get_initial_drawdown binary64 path = Ok 0)
  /\ (forall (path0 : list float) (others : list (list float))
        (alpha : float) (at_step : option Z) (nf : float) (k : Z),
         let paths := path0 :: others in
         let step := resolved_step at_step in
         (step <= len path0)%Z ->
         Forall (fun path => never_below_start (slice_to path step)) paths ->
         b64_of_int (len paths) = Some nf ->
         b64_to_int (nf * alpha) = IsInt k ->
         (- len paths <= k < len paths)%Z ->
         @get_threshold_multiplier binary64 paths alpha at_step = Ok 1).
Proof.
  split.
  - intros path Hp.
    rewrite (@get_initial_drawdown_Ok binary64).
    + rewrite drawdown_never_below_start by exact Hp. reflexivity.
    + destruct path; [destruct Hp | discriminate].
  - intros path0 others alpha at_step nf k paths step Hstep Hall Hn Hk Hrange.
    subst paths step.
    rewrite (@get_threshold_multiplier_total binary64).
    2: exact Hstep.
    2: { eapply Forall_impl; [| exact Hall].
         intros path Hp Hnil. cbv beta in Hp. cbn [F binary64] in Hnil.
         rewrite Hnil in Hp. exact Hp. }
    match goal with
    | |- context [threshold_from_drawdowns ?s _] => set (samples := s)
    end.
    assert (Hlen : len samples = len (path0 :: others)) by apply len_map.
    rewrite <- Hlen in Hn, Hrange.
    destruct (@getitem_in_range (@F binary64) (@sort_reverse binary64 samples) k)
      as [v Hget].
    { assert (Hl : len (@sort_reverse binary64 samples) = len samples).
      { unfold len. rewrite sort_reverse_length. reflexivity. }
      rewrite Hl. exact Hrange. }
    rewrite (@threshold_from_drawdowns_value binary64 samples alpha nf k v
               Hn Hk Hget).
    assert (Hin : In v samples).
    { apply Permutation_in with (l := @sort_reverse binary64 samples).
      - apply Permutation_sym. apply sort_reverse_perm.
      - eapply getitem_In. exact Hget. }
    apply in_map_iff in Hin. destruct Hin as [path [Hv Hpath]].
    rewrite Forall_forall in Hall. specialize (Hall path Hpath).
    rewrite drawdown_never_below_start in Hv by exact Hall.
    subst v. reflexivity.
Qed.

(** ** The range of the drawdown samples *)

(** X20.  On a path of positive finite doubles the drawdown sample is
    returned and lies in [[-1, 0]], rounding included. *)
Theorem drawdown_sample_range (x : float) (rest : list float) :
  Forall (fun y => positive_finite y = true) (x :: rest) ->
  exists v : float,
    @get_initial_drawdown binary64 (x :: rest) = Ok v
    /\ (-1 <=? v) = true /\ (v <=? 0) = true.
Proof.
  intros Hall. exists (@drawdown binary64 (x :: rest)).
  split; [reflexivity |].
  destruct (min_from_leb_first Hall) as [Hm Hle].
  assert (Hx : positive_finite x = true) by (inversion Hall; assumption).
  cbn [drawdown fsub fdiv f1 binary64].
  set (m := @min_from binary64 x rest) in *. cbn [F binary64] in m.
  destruct (positive_finite_SF m Hm) as [m1 [e1 H1]].
  destruct (positive_finite_SF x Hx) as [m2 [e2 H2]].
  pose proof (Prim2SF_valid m) as Hv1. rewrite H1 in Hv1.
  pose proof (Prim2SF_valid x) as Hv2. rewrite H2 in Hv2.
  rewrite FloatAxioms.leb_spec, H1, H2 in Hle.
  pose proof (Prim2SF_valid (m / x - 1)) as Hv.
  rewrite !FloatAxioms.leb_spec.
  change (Prim2SF (-1)) with (S754_finite true 4503599627370496 (-52)).
  change (Prim2SF 0) with (S754_zero false).
  apply in_neg_unit_bounds; [exact Hv |].
  rewrite sub_spec, div_spec, H1, H2.
  change (Prim2SF one) with SF_one.
  apply SFsub_one_range.
  apply SFdiv_ordered_range; assumption.
Qed.

(** ** The order of the balances *)

Lemma leb_antisym_positive_finite (a b : float) :
  positive_finite a = true -> positive_finite b = true ->
  (a <=? b) = true -> (b <=? a) = true -> a = b.
Proof.
  intros Ha Hb Hab Hba.
  destruct (positive_finite_SF a Ha) as [ma [ea Ha']].
  destruct (positive_finite_SF b Hb) as [mb [eb Hb']].
  rewrite FloatAxioms.leb_spec, Ha', Hb' in Hab.
  rewrite FloatAxioms.leb_spec, Ha', Hb' in Hba.
  apply SFleb_finite_pos in Hab. apply SFleb_finite_pos in Hba.
  apply Prim2SF_inj. rewrite Ha', Hb'.
  assert (He : ea = eb) by lia.
  assert (Hm : ma = mb) by lia.
  subst. reflexivity.
Qed.

Lemma leb_trans_positive_finite (a b c : float) :
  positive_finite a = true -> positive_finite b = true ->
  positive_finite c = true ->
  (a <=? b) = true -> (b <=? c) = true -> (a <=? c) = true.
Proof.
  intros Ha Hb Hc Hab Hbc.
  destruct (positive_finite_SF a Ha) as [ma [ea Ha']].
  destruct (positive_finite_SF b Hb) as [mb [eb Hb']].
  destruct (positive_finite_SF c Hc) as [mc [ec Hc']].
  rewrite FloatAxioms.leb_spec, Ha', Hb' in Hab.
  rewrite FloatAxioms.leb_spec, Hb', Hc' in Hbc.
  rewrite FloatAxioms.leb_spec, Ha', Hc'.
  apply SFleb_finite_pos in Hab. apply SFleb_finite_pos in Hbc.
  apply SFleb_finite_pos_intro. lia.
Qed.

Lemma ltb_leb_positive_finite (a b : float) :
  positive_finite a = true -> positive_finite b = true ->
  (a <? b) = true -> (a <=? b) = true.
Proof.
  intros Ha Hb Hab.
  destruct (positive_finite_SF a Ha) as [ma [ea Ha']].
  destruct (positive_finite_SF b Hb) as [mb [eb Hb']].
  rewrite FloatAxioms.ltb_spec, Ha', Hb' in Hab.
  rewrite FloatAxioms.leb_spec, Ha', Hb'.
  apply SFltb_finite_pos in Hab.
  apply SFleb_finite_pos_intro. lia.
Qed.

Lemma not_ltb_leb_positive_finite (a b : float) :
  positive_finite a = true -> positive_finite b = true ->
  (a <? b) = false -> (b <=? a) = true.
Proof.
  intros Ha Hb Hab.
  destruct (positive_finite_SF a Ha) as [ma [ea Ha']].
  destruct (positive_finite_SF b Hb) as [mb [eb Hb']].
  apply ltb_false_leb; [| | exact Hab];
    unfold is_nan; rewrite FloatAxioms.eqb_spec.
  - rewrite Ha'. cbn. rewrite Z.compare_refl, Pos.compare_cont_refl.
    reflexivity.
  - rewrite Hb'. cbn. rewrite Z.compare_refl, Pos.compare_cont_refl.
    reflexivity.
Qed.

(** The order [<=] on the positive finite doubles. *)
Definition ordered (a b : float) : Prop :=
  positive_finite a = true /\ positive_finite b = true /\ (a <=? b) = true.

Lemma insert_asc_ordered (x : float) (l : list float) :
  positive_finite x = true ->
  Forall (fun y => positive_finite y = true) l ->
  StronglySorted ordered l ->
  StronglySorted ordered (@insert_asc binary64 x l).
Proof.
  intros Hx Hl Hs. induction Hs as [| y l Hs IH Hy]; cbn [insert_asc].
  - constructor; constructor.
  - assert (Hpy : positive_finite y = true) by (inversion Hl; assumption).
    assert (Hl' : Forall (fun y => positive_finite y = true) l)
      by (inversion Hl; assumption).
    cbn [fltb binary64]. destruct (y <? x) eqn:Hyx.
    + constructor; [apply IH; exact Hl' |].
      apply Forall_forall. intros z Hz.
      apply (Permutation_in z (Permutation_sym (@insert_asc_perm binary64 x l)))
        in Hz.
      destruct Hz as [<- | Hz].
      * split; [exact Hpy |]. split; [exact Hx |].
        apply ltb_leb_positive_finite; assumption.
      * rewrite Forall_forall in Hy. apply Hy. exact Hz.
    + assert (Hxy : ordered x y).
      { split; [exact Hx |]. split; [exact Hpy |].
        apply not_ltb_leb_positive_finite; assumption. }
      constructor; [constructor; assumption |].
      constructor; [exact Hxy |].
      eapply Forall_impl; [| exact Hy].
      intros z [_ [Hpz Hyz]]. split; [exact Hx |]. split; [exact Hpz |].
      destruct Hxy as [_ [_ Hxy]].
      apply (@leb_trans_positive_finite x y z); assumption.
Qed.

Lemma sorted_ordered (l : list float) :
  Forall (fun y => positive_finite y = true) l ->
  StronglySorted ordered (@sorted binary64 l).
Proof.
  induction 1 as [| x l Hx Hl IH]; cbn [sorted fold_right].
  - constructor.
  - apply insert_asc_ordered; [exact Hx | | exact IH].
    rewrite Forall_forall in *. intros y Hy. apply Hl.
    apply (Permutation_in y (Permutation_sym (@sorted_perm binary64 l))).
    exact Hy.
Qed.

(** Two ascending arrangements of the same balances are the same list. *)
Lemma ordered_unique (l1 l2 : list float) :
  StronglySorted ordered l1 -> StronglySorted ordered l2 ->
  Permutation l1 l2 -> l1 = l2.
Proof.
  intros H1. revert l2. induction H1 as [| a t1 Hs1 IH Ha]; intros l2 H2 Hp.
  - apply Permutation_nil in Hp. congruence.
  - destruct H2 as [| b t2 Hs2 Hb].
    + apply Permutation_sym, Permutation_nil in Hp. discriminate Hp.
    + assert (Hab : a = b).
      { assert (Hin1 : In a (b :: t2))
          by (eapply Permutation_in; [exact Hp | left; reflexivity]).
        assert (Hin2 : In b (a :: t1))
          by (eapply Permutation_in;
              [apply Permutation_sym; exact Hp | left; reflexivity]).
        destruct Hin1 as [Hin1 | Hin1]; [congruence |].
        destruct Hin2 as [Hin2 | Hin2]; [congruence |].
        rewrite Forall_forall in Ha, Hb.
        destruct (Ha b Hin2) as [Hpa [Hpb Hle1]].
        destruct (Hb a Hin1) as [_ [_ Hle2]].
        apply leb_antisym_positive_finite; assumption. }
      subst b. f_equal. apply IH; [exact Hs2 |].
      eapply Permutation_cons_inv. exact Hp.
Qed.

(** X21.  The solver does not depend on the order of the balances: for
    every token pair, every iteration bound and every two arrangements of
    the same positive finite balances, [calculate_d] returns (or raises)
    the same. *)
Theorem calculate_d_permutation
  (tp : Stableswap_Pair binary64) (balances balances' : list float)
  (max_iterations : Z) :
  Forall (fun y => positive_finite y = true) balances ->
  Permutation balances balances' ->
  calculate_d tp balances max_iterations
  = calculate_d tp balances' max_iterations.
Proof.
  intros Hpos Hperm.
  assert (Hpos' : Forall (fun y => positive_finite y = true) balances').
  { rewrite Forall_forall in *. intros y Hy. apply Hpos.
    eapply Permutation_in; [apply Permutation_sym; exact Hperm | exact Hy]. }
  assert (Hs : @sorted binary64 balances = @sorted binary64 balances').
  { apply ordered_unique; try (apply sorted_ordered; assumption).
    eapply perm_trans;
      [apply Permutation_sym; exact (@sorted_perm binary64 balances) |].
    eapply perm_trans; [exact Hperm |].
    exact (@sorted_perm binary64 balances'). }
  assert (Hl : len balances = len balances').
  { unfold len. f_equal. apply Permutation_length. exact Hperm. }
  unfold calculate_d. cbn [F binary64] in *. rewrite Hs, Hl. reflexivity.
Qed.

Lemma no_drawdown_witness :
  never_below_start [1; 2; 1.5]
  /\ @get_initial_drawdown binary64 [1; 2; 1.5] = Ok 0
  /\ @get_threshold_multiplier binary64 [[1; 2; 1.5]; [3; 3; 4]] 0.5
       (Some 3%Z)
     = Ok 1.
Proof.
  destruct no_drawdown_gives_unit_multiplier as [H1 H2].
  assert (Hn : never_below_start [1; 2; 1.5])
    by (split; [reflexivity | repeat constructor]).
  split; [exact Hn |]. split; [apply H1; exact Hn |].
  apply (H2 [1; 2; 1.5] [[3; 3; 4]] 0.5 (Some 3%Z) 2 1%Z).
  - discriminate.
  - repeat constructor.
  - reflexivity.
  - reflexivity.
  - split; [discriminate | reflexivity].
Defined.

Lemma drawdown_sample_range_witness :
  exists v : float,
    @get_initial_drawdown binary64 [1; 0.5; 2] = Ok v
    /\ (-1 <=? v) = true /\ (v <=? 0) = true.
Proof.
  apply (@drawdown_sample_range 1 [0.5; 2]). repeat constructor.
Defined.

Lemma calculate_d_permutation_witness :
  Permutation [1000; 3000] [3000; 1000]
  /\ calculate_d pool_4 [1000; 3000] default_max_iterations
     = calculate_d pool_4 [3000; 1000] default_max_iterations.
Proof.
  split; [apply perm_swap |].
  apply calculate_d_permutation; [repeat constructor | apply perm_swap].
Defined.

(** ** The index at [alpha = 1.0] *)

Lemma b64_of_int_exact (n : Z) :
  (0 < n < 2 ^ 53)%Z ->
  exists nf : float,
    b64_of_int n = Some nf /\ b64_to_int (nf * 1) = IsInt n.
Proof.
  intros Hn.
  destruct (binary_normalize_int Hn) as [m [e [Hnorm [Hcan [He Hm]]]]].
  assert (Hv : SpecFloat.valid_binary prec emax (S754_finite false m e) = true)
    by (apply canonical_valid; [exact Hcan | lia]).
  exists (SF2Prim (S754_finite false m e)). split.
  - unfold b64_of_int. rewrite Hnorm. reflexivity.
  - unfold b64_to_int. rewrite mul_spec, Prim2SF_SF2Prim by exact Hv.
    rewrite Prim2SF_one. unfold SF64mul. rewrite SFmul_one by exact Hv.
    f_equal. rewrite Hm.
    destruct (0 <=? e)%Z eqn:He0.
    + apply Z.leb_le in He0. assert (e = 0%Z) by lia. subst e.
      rewrite Z.shiftl_0_r. cbn. lia.
    + rewrite Z.shiftr_div_pow2 by lia.
      apply Z.div_mul. apply Z.pow_nonzero; lia.
Qed.

(** X22.  At [alpha = 1.0] the index is the number of samples, one past
    the last: for every collection of fewer than [2^53] paths whose samples
    are all computed, [get_threshold_multiplier] raises [IndexError]. *)
Theorem alpha_one_raises_IndexError
  (path0 : list float) (others : list (list float)) (at_step : option Z) :
  let paths := path0 :: others in
  let step := resolved_step at_step in
  (step <= len path0)%Z ->
  Forall (fun path => slice_to path step <> []) paths ->
  (len paths < 2 ^ 53)%Z ->
  @get_threshold_multiplier binary64 paths 1 at_step = Raise IndexError.
Proof.
  intros paths step Hstep Hne Hlen. subst paths step.
  rewrite (@get_threshold_multiplier_total binary64) by assumption.
  match goal with
  | |- context [threshold_from_drawdowns ?s _] => set (samples := s)
  end.
  assert (Hl : len samples = len (path0 :: others)) by apply len_map.
  destruct (@b64_of_int_exact (len samples)) as [nf [Hnf Hint]].
  { rewrite Hl. split; [| exact Hlen]. unfold len. cbn [List.length]. lia. }
  apply (@threshold_from_drawdowns_IndexError binary64 samples 1 nf
           (len samples)).
  - exact Hnf.
  - exact Hint.
  - right. lia.
Qed.

Lemma alpha_one_witness :
  (len example_paths < 2 ^ 53)%Z
  /\ @get_threshold_multiplier binary64 example_paths 1 (Some 2%Z)
     = Raise IndexError.
Proof.
  split; [reflexivity |].
  apply (@alpha_one_raises_IndexError
           [1; 0.5] [[1; 0.7]; [1; 0.9]; [1; 1]; [1; 2]] (Some 2%Z)).
  - discriminate.
  - repeat constructor; discriminate.
  - reflexivity.
Defined.

(** ** Instances of the properties that hold in every arithmetic *)

Lemma calculate_d_bound_monotone_witness :
  (128 <= 1000)%Z
  /\ calculate_d pool_4 [1000; 3000] 128
     = Ok (@VFloat binary64 3993.4316430885178)
  /\ calculate_d pool_4 [1000; 3000] 1000
     = Ok (@VFloat binary64 3993.4316430885178).
Proof.
  split; [discriminate |]. split; [reflexivity |].
  apply (@calculate_d_bound_monotone binary64 pool_4 [1000; 3000]%float
           128 1000).
  - discriminate.
  - reflexivity.
  - discriminate.
Defined.

Lemma price_at_balance_of_None_witness :
  calculate_d pool [1000; 3000] default_max_iterations = Ok VNone
  /\ price_at_balance pool [1000; 3000] 1 0 = Raise TypeError.
Proof.
  split; [reflexivity |].
  apply (@price_at_balance_of_None binary64 pool [1000; 3000]%float 1 0).
  - discriminate.
  - reflexivity.
Defined.

Lemma price_at_balance_Raise_witness :
  price_at_balance pool [0; 0] 1 0 = Raise ZeroDivisionError
  /\ price_exn ZeroDivisionError.
Proof.
  split; [reflexivity |].
  apply (@price_at_balance_Raise binary64 pool [0; 0]%float 1 0).
  reflexivity.
Defined.

Lemma price_at_balance_index_witness :
  (@len float [1000; 3000]%float <= 2)%Z
  /\ price_at_balance pool_4 [1000; 3000] 2 0 = Raise IndexError.
Proof.
  split; [discriminate |].
  eapply (@price_at_balance_index_out_of_range binary64 pool_4
            [1000; 3000]%float 2 0).
  - reflexivity.
  - reflexivity.
  - right. discriminate.
Defined.

Lemma get_threshold_multiplier_Raise_witness :
  @get_threshold_multiplier binary64 [] 0.5 None = Raise KeyError
  /\ ((KeyError = KeyError /\ @nil (list float) = [])
      \/ (KeyError = Exception step_error
          /\ exists (path0 : list float) (others : list (list float)),
               [] = path0 :: others
               /\ (len path0 < resolved_step None)%Z)
      \/ (@nil (list float) <> []
          /\ (KeyError = ValueError \/ KeyError = OverflowError
              \/ KeyError = IndexError))).
Proof.
  split; [reflexivity |].
  apply (@get_threshold_multiplier_Raise binary64 [] 0.5 None KeyError).
  reflexivity.
Defined.

Lemma quantile_index_out_of_range_witness :
  b64_to_int (5 * 2) = IsInt 10
  /\ @get_threshold_multiplier binary64 example_paths 2 (Some 2%Z)
     = Raise IndexError.
Proof.
  split; [reflexivity |].
  apply (@quantile_index_out_of_range binary64
           [1; 0.5] [[1; 0.7]; [1; 0.9]; [1; 1]; [1; 2]] 2 (Some 2%Z) 5 10%Z).
  - discriminate.
  - repeat constructor; discriminate.
  - reflexivity.
  - reflexivity.
  - right. discriminate.
Defined.

Lemma multiplier_reads_prefixes_witness :
  @get_threshold_multiplier binary64 [[1; 0.5; 9]] 0.5 (Some 2%Z)
  = @get_threshold_multiplier binary64 [[1; 0.5; 0.1; 0.1]] 0.5 (Some 2%Z).
Proof.
  apply (@multiplier_reads_prefixes_only binary64
           [1; 0.5; 9] [1; 0.5; 0.1; 0.1] [] [] 0.5 2).
  - discriminate.
  - discriminate.
  - reflexivity.
Defined.

End Binary64Facts.

(* ================================================================== *)
(** * The order of the doubles and the ranked samples                  *)
(* ================================================================== *)

Module DoubleOrder.

Set Warnings "-inexact-float".

Import Rounding.
Import Binary64.

Local Open Scope Z_scope.

(** The place of a double in the order of the doubles: the two zeros share
    a place, a finite double stands by exponent and then by mantissa, on
    the side of its sign, and the infinities stand beyond every finite
    double.  (A NaN has no place; it is given that of the zeros.) *)
Definition SFplace (x : spec_float) : Z :=
  match x with
  | S754_zero _ => 0
  | S754_infinity s => if s then - 2 ^ 64 else 2 ^ 64
  | S754_nan => 0
  | S754_finite s m e =>
      let a := (e + 1075) * 2 ^ 53 + Zpos m in
      if s then - a else a
  end.

Definition place (x : float) : Z := SFplace (Prim2SF x).

Lemma valid_finite_bounds (s : bool) (m : positive) (e : Z) :
  SpecFloat.valid_binary prec emax (S754_finite s m e) = true ->
  -1074 <= e <= 971 /\ Zpos m < 2 ^ 53.
Proof.
  intros Hv. pose proof (valid_canonical _ _ _ Hv) as Hc.
  cbn [SpecFloat.valid_binary] in Hv. unfold bounded in Hv.
  apply andb_prop in Hv. destruct Hv as [_ He].
  apply Z.leb_le in He. change (emax - prec) with 971 in He.
  split; [lia |].
  apply digits_lt_pow; lia.
Qed.

Lemma SFplace_finite (s : bool) (m : positive) (e : Z) :
  SpecFloat.valid_binary prec emax (S754_finite s m e) = true ->
  let a := (e + 1075) * 2 ^ 53 + Zpos m in
  2 ^ 53 < a < 2 ^ 64.
Proof.
  intros Hv a. destruct (valid_finite_bounds _ _ _ Hv) as [He Hm].
  unfold a. change (2 ^ 64) with (2048 * 2 ^ 53).
  set (P := 2 ^ 53) in *. assert (0 < P) by reflexivity.
  clearbody P. nia.
Qed.

(** Doubles that are not NaN compare as their places do. *)
Lemma SFcompare_place (x y : spec_float) :
  SpecFloat.valid_binary prec emax x = true ->
  SpecFloat.valid_binary prec emax y = true ->
  x <> S754_nan -> y <> S754_nan ->
  SFcompare x y = Some (SFplace x ?= SFplace y).
Proof.
  intros Hvx Hvy Hx Hy.
  destruct x as [sx | sx | | sx mx ex]; [| | congruence |];
    destruct y as [sy | sy | | sy my ey]; try congruence;
    try (pose proof (SFplace_finite _ _ _ Hvx) as Hax);
    try (pose proof (SFplace_finite _ _ _ Hvy) as Hay);
    cbn [SFplace SFcompare] in *.
  - reflexivity.
  - destruct sy; reflexivity.
  - destruct sy; f_equal; symmetry;
      [apply Z.compare_gt_iff | apply Z.compare_lt_iff]; lia.
  - destruct sx; reflexivity.
  - destruct sx, sy; reflexivity.
  - destruct sx, sy; f_equal; symmetry;
      first [apply Z.compare_gt_iff; lia | apply Z.compare_lt_iff; lia].
  - destruct sx; f_equal; symmetry;
      [apply Z.compare_lt_iff | apply Z.compare_gt_iff]; lia.
  - destruct sx, sy; f_equal; symmetry;
      first [apply Z.compare_gt_iff; lia | apply Z.compare_lt_iff; lia].
  - destruct (valid_finite_bounds _ _ _ Hvx) as [_ Hmx].
    destruct (valid_finite_bounds _ _ _ Hvy) as [_ Hmy].
    change (Pos.compare_cont Eq mx my) with (Z.pos mx ?= Z.pos my).
    set (P := 2 ^ 53) in *. assert (HP : 0 < P) by reflexivity.
    clearbody P.
    destruct sx, sy; f_equal; symmetry.
    + destruct (Z.compare_spec ex ey) as [He | He | He].
      * subst ey. destruct (Z.compare_spec (Z.pos mx) (Z.pos my)) as [Hm | Hm | Hm];
          cbn [CompOpp].
        -- apply Z.compare_eq_iff. lia.
        -- apply Z.compare_gt_iff. lia.
        -- apply Z.compare_lt_iff. lia.
      * apply Z.compare_gt_iff. nia.
      * apply Z.compare_lt_iff. nia.
    + apply Z.compare_lt_iff. lia.
    + apply Z.compare_gt_iff. lia.
    + destruct (Z.compare_spec ex ey) as [He | He | He].
      * subst ey. destruct (Z.compare_spec (Z.pos mx) (Z.pos my)) as [Hm | Hm | Hm].
        -- apply Z.compare_eq_iff. lia.
        -- apply Z.compare_lt_iff. lia.
        -- apply Z.compare_gt_iff. lia.
      * apply Z.compare_lt_iff. nia.
      * apply Z.compare_gt_iff. nia.
Qed.

(** [x == x] fails on a NaN only. *)
Lemma eqb_refl_not_nan (x : float) : (x =? x)%float = true -> Prim2SF x <> S754_nan.
Proof.
  rewrite FloatAxioms.eqb_spec. intros H Hn. rewrite Hn in H. discriminate H.
Qed.

Lemma compare_place (x y : float) :
  (x =? x)%float = true -> (y =? y)%float = true ->
  SFcompare (Prim2SF x) (Prim2SF y) = Some (place x ?= place y).
Proof.
  intros Hx Hy. apply SFcompare_place.
  - apply Prim2SF_valid.
  - apply Prim2SF_valid.
  - apply eqb_refl_not_nan. exact Hx.
  - apply eqb_refl_not_nan. exact Hy.
Qed.

Lemma leb_place (x y : float) :
  (x =? x)%float = true -> (y =? y)%float = true ->
  (x <=? y)%float = (place x <=? place y).
Proof.
  intros Hx Hy. rewrite FloatAxioms.leb_spec. unfold SFleb.
  rewrite (compare_place Hx Hy). unfold Z.leb.
  destruct (place x ?= place y); reflexivity.
Qed.

Lemma ltb_place (x y : float) :
  (x =? x)%float = true -> (y =? y)%float = true ->
  (x <? y)%float = (place x <? place y).
Proof.
  intros Hx Hy. rewrite FloatAxioms.ltb_spec. unfold SFltb.
  rewrite (compare_place Hx Hy). unfold Z.ltb.
  destruct (place x ?= place y); reflexivity.
Qed.

(** ** Lists in descending order *)

(** In descending order: every element is at least its successor. *)
Definition in_descending_order (l : list float) : Prop :=
  Sorted (fun a b => (b <=? a)%float = true) l.

Lemma descending_places (l : list float) :
  Forall (fun v => (v =? v)%float = true) l ->
  in_descending_order l ->
  StronglySorted (fun a b => b <= a) (map place l).
Proof.
  intros Hn Hs. apply Sorted_StronglySorted.
  { intros a b c Hab Hbc. lia. }
  induction Hs as [| a l Hs IH Hhd]; cbn [map]; constructor.
  - apply IH. inversion Hn; assumption.
  - destruct Hhd as [| b l Hba]; cbn [map]; constructor.
    inversion Hn as [| ? ? Ha Hl]; subst. inversion Hl as [| ? ? Hb _]; subst.
    rewrite (leb_place Hb Ha) in Hba. apply Z.leb_le. exact Hba.
Qed.

(** A list of integers has one arrangement in descending order. *)
Lemma descending_unique (l1 l2 : list Z) :
  Permutation l1 l2 ->
  StronglySorted (fun a b => b <= a) l1 ->
  StronglySorted (fun a b => b <= a) l2 ->
  l1 = l2.
Proof.
  revert l2. induction l1 as [| a l1 IH]; intros l2 Hp H1 H2.
  - apply Permutation_nil in Hp. congruence.
  - destruct l2 as [| b l2].
    { apply Permutation_sym, Permutation_nil in Hp. discriminate Hp. }
    inversion H1 as [| ? ? Hs1 Hf1]; inversion H2 as [| ? ? Hs2 Hf2]; subst.
    assert (Hab : a = b).
    { assert (Hb : In b (a :: l1)).
      { eapply Permutation_in; [apply Permutation_sym; exact Hp |].
        left. reflexivity. }
      assert (Ha : In a (b :: l2)).
      { eapply Permutation_in; [exact Hp | left; reflexivity]. }
      rewrite Forall_forall in Hf1, Hf2.
      destruct Hb as [Hb | Hb]; [exact Hb |].
      destruct Ha as [Ha | Ha]; [symmetry; exact Ha |].
      specialize (Hf1 _ Hb). specialize (Hf2 _ Ha). lia. }
    subst b. f_equal. apply IH; [| assumption | assumption].
    eapply Permutation_cons_inv. exact Hp.
Qed.

(** On samples without NaN the list that [sort_reverse] builds is in
    descending order. *)
Lemma sort_reverse_in_descending_order (l : list float) :
  Forall (fun v => (v =? v)%float = true) l ->
  in_descending_order (@sort_reverse binary64 l).
Proof.
  intros Hn.
  assert (Hn' : Forall (fun v => (v =? v)%float = true)
                       (@sort_reverse binary64 l)).
  { eapply Permutation_Forall;
      [exact (@sort_reverse_perm binary64 l) | exact Hn]. }
  pose proof (@sort_reverse_sorted binary64 ltb_asym_binary64 l) as Hs.
  unfold descending in Hs. unfold in_descending_order.
  induction Hs as [| a r Hs IH Hhd]; constructor.
  - apply IH. inversion Hn'; assumption.
  - destruct Hhd as [| b r Hab]; constructor.
    inversion Hn' as [| ? ? Ha Hr]; subst. inversion Hr as [| ? ? Hb _]; subst.
    cbn [fltb binary64] in Hab.
    rewrite (ltb_place Ha Hb) in Hab. rewrite (leb_place Hb Ha).
    apply Z.leb_le. apply Z.ltb_ge in Hab. exact Hab.
Qed.

(** Doubles at the same place are equal, or are the two zeros; adding
    either to [1.0] gives the same double. *)
Lemma add_one_same_place (v w : float) :
  (v =? v)%float = true -> (w =? w)%float = true -> place v = place w ->
  (1 + v)%float = (1 + w)%float.
Proof.
  intros Hv Hw Hp. unfold place in Hp.
  pose proof (Prim2SF_valid v) as Vv. pose proof (Prim2SF_valid w) as Vw.
  apply eqb_refl_not_nan in Hv. apply eqb_refl_not_nan in Hw.
  apply Prim2SF_inj. rewrite !add_spec.
  change (Prim2SF 1) with SF_one.
  destruct (Prim2SF v) as [sv | sv | | sv mv ev]; [| | congruence |];
    destruct (Prim2SF w) as [sw | sw | | sw mw ew]; try congruence;
    try (pose proof (SFplace_finite _ _ _ Vv) as Hav);
    try (pose proof (SFplace_finite _ _ _ Vw) as Haw);
    cbn [SFplace] in *.
  - destruct sv, sw; reflexivity.
  - exfalso. destruct sw; lia.
  - exfalso. destruct sw; lia.
  - exfalso. destruct sv; lia.
  - destruct sv, sw; try reflexivity; exfalso; lia.
  - exfalso. destruct sv, sw; lia.
  - exfalso. destruct sv; lia.
  - exfalso. destruct sv, sw; lia.
  - destruct (valid_finite_bounds _ _ _ Vv) as [_ Hmv].
    destruct (valid_finite_bounds _ _ _ Vw) as [_ Hmw].
    set (P := 2 ^ 53) in *. assert (HP : 0 < P) by reflexivity.
    clearbody P.
    assert (Hs : sv = sw) by (destruct sv, sw; try reflexivity; exfalso; lia).
    subst sw.
    assert (Heq : (ev + 1075) * P + Z.pos mv = (ew + 1075) * P + Z.pos mw)
      by (destruct sv; lia).
    assert (He : ev = ew) by nia. subst ew.
    assert (Hm : mv = mw) by lia. subst mw. reflexivity.
Qed.

(** ** The sample that the multiplier is computed from *)

Open Scope float_scope.

(** C4, on the code.  For the single path [1.0, 0.5] and [alpha = 0.5] the
    sample [min(path) / path[0] - 1] is [-0.5], the index [int(1 * 0.5)] is
    0 and the multiplier of the claim is [1 / (1 + -0.5) = 2.0], which the
    call with [at_step = 2] returns; the call without [at_step] takes the
    sample on the path without its last element and returns [1.0]. *)
Theorem default_call_misses_the_quantile :
  @get_initial_drawdown binary64 [1; 0.5] = Ok (-0.5)
  /\ @sort_reverse binary64 [-0.5] = [-0.5]
  /\ @py_int binary64 (1 * 0.5) = Ok 0%Z
  /\ 1 / (1 + -0.5) = 2
  /\ @get_threshold_multiplier binary64 [[1; 0.5]] 0.5 (Some 2%Z) = Ok 2
  /\ @get_threshold_multiplier binary64 [[1; 0.5]] 0.5 None = Ok 1
  /\ (1 =? 2) = false.
Proof. repeat split; reflexivity. Qed.

(** X25.  With a given [at_step] the method selects the sample that the
    specification describes.  For every non-empty collection of [n] paths,
    every given [at_step] that passes the range check and leaves each path
    a first element, and every [alpha] for which [k = int(n * alpha)] is an
    index in range: when none of the per-path samples
    [min(path) / path[0] - 1], taken on the paths cut at [at_step], is a
    NaN, the samples have an arrangement in descending order (the one the
    method builds), and the method returns [1 / (1 + v)] for the entry [v]
    at index [k] of the samples in descending order, whichever arrangement
    in descending order is taken. *)
Theorem given_step_selects_quantile
  (path0 : list float) (others : list (list float)) (alpha : float)
  (step : Z) (nf : float) (k : Z) :
  let paths := path0 :: others in
  let samples :=
    map (fun path => @drawdown binary64 (slice_to path step)) paths in
  (step <= len path0)%Z ->
  Forall (fun path => slice_to path step <> []) paths ->
  Forall (fun v => (v =? v) = true) samples ->
  b64_of_int (len paths) = Some nf ->
  b64_to_int (nf * alpha) = IsInt k ->
  (0 <= k < len paths)%Z ->
  (Permutation samples (@sort_reverse binary64 samples)
   /\ in_descending_order (@sort_reverse binary64 samples))
  /\ forall ranked : list float,
       Permutation samples ranked ->
       in_descending_order ranked ->
       exists v : float,
         nth_error ranked (Z.to_nat k) = Some v
         /\ @get_threshold_multiplier binary64 paths alpha (Some step)
            = Ok (1 / (1 + v)).
Proof.
  intros paths samples Hstep Hne Hnan Hn Hk Hrange.
  pose proof (@sort_reverse_perm binary64 samples) as Hperm0.
  pose proof (sort_reverse_in_descending_order Hnan) as Hdesc0.
  split; [split; assumption |].
  intros ranked Hperm Hdesc.
  set (ranked0 := @sort_reverse binary64 samples) in *.
  assert (Hnan0 : Forall (fun v => (v =? v) = true) ranked0).
  { eapply Permutation_Forall; [exact Hperm0 | exact Hnan]. }
  assert (Hnan1 : Forall (fun v => (v =? v) = true) ranked).
  { eapply Permutation_Forall; [exact Hperm | exact Hnan]. }
  assert (Hplaces : map place ranked = map place ranked0).
  { apply descending_unique.
    - apply Permutation_map.
      eapply Permutation_trans; [apply Permutation_sym; exact Hperm |].
      exact Hperm0.
    - apply descending_places; assumption.
    - apply descending_places; assumption. }
  assert (Hlen : len samples = len paths) by apply len_map.
  assert (Hlen0 : len ranked0 = len paths).
  { rewrite <- Hlen. unfold len, ranked0.
    rewrite sort_reverse_length. reflexivity. }
  destruct (@getitem_nth float ranked0 k) as [v0 [Hnth0 Hget0]];
    [cbn [F binary64] in *; unfold len in *; lia |].
  pose proof (f_equal (fun l => nth_error l (Z.to_nat k)) Hplaces) as Hk'.
  cbn beta in Hk'. rewrite !nth_error_map, Hnth0 in Hk'.
  destruct (nth_error ranked (Z.to_nat k)) as [v |] eqn:Hnth;
    [| discriminate Hk'].
  cbn [option_map] in Hk'. injection Hk' as Hplace.
  exists v. split; [reflexivity |].
  assert (Hv : (v =? v) = true).
  { rewrite Forall_forall in Hnan1. apply Hnan1.
    eapply nth_error_In. exact Hnth. }
  assert (Hv0 : (v0 =? v0) = true).
  { rewrite Forall_forall in Hnan0. apply Hnan0.
    eapply nth_error_In. exact Hnth0. }
  rewrite (add_one_same_place Hv Hv0 Hplace).
  pose proof (@get_threshold_multiplier_total binary64 path0 others alpha
                (Some step) Hstep Hne) as Htotal.
  cbn [resolved_step] in Htotal.
  etransitivity; [exact Htotal |].
  apply (@threshold_from_drawdowns_value binary64 samples alpha nf k v0).
  - rewrite Hlen. exact Hn.
  - exact Hk.
  - exact Hget0.
Qed.

(** The five paths of [example_paths], cut at step 2, at [alpha = 0.5]:
    the sample at index [int(5 * 0.5) = 2] of the descending order is the
    double [0.9 - 1], and the multiplier is [1 / 0.9]. *)
Lemma given_step_selects_quantile_witness :
  exists v : float,
    nth_error [0; 0; -0.09999999999999998; -0.30000000000000004; -0.5] 2
    = Some v
    /\ @get_threshold_multiplier binary64 example_paths 0.5 (Some 2%Z)
       = Ok (1 / (1 + v))
    /\ 1 / (1 + v) = 1 / 0.9.
Proof.
  destruct (@given_step_selects_quantile
              [1; 0.5] [[1; 0.7]; [1; 0.9]; [1; 1]; [1; 2]] 0.5 2 5 2)
    as [_ Hsel].
  - discriminate.
  - repeat constructor; discriminate.
  - repeat constructor.
  - reflexivity.
  - reflexivity.
  - split; [discriminate | reflexivity].
  - destruct (Hsel [0; 0; -0.09999999999999998; -0.30000000000000004; -0.5])
      as [v [Hnth Hres]].
    + apply (Permutation_rev
               [-0.5; -0.30000000000000004; -0.09999999999999998; 0; 0]).
    + repeat constructor.
    + exists v. split; [exact Hnth |]. split; [exact Hres |].
      injection Hnth as <-. reflexivity.
Defined.

End DoubleOrder.

(* ================================================================== *)
(** * The relative error of products and quotients                     *)
(* ================================================================== *)

(** The product and the quotient of two doubles are the exact product and
    quotient, rounded to nearest.  This module follows the rounding of the
    standard library's specification ([binary_round_aux]) on the rationals:
    for operands with a mantissa of 53 digits and a result in the normal
    range the relative error of one operation is at most [2^-53].  The
    errors of the seven operations that stand between the two prices of a
    pair and their product then add up to less than [2^-50]. *)
Module RoundingError.

Import Rounding.

Local Open Scope Q_scope.

(** ** Powers of two as rationals *)

Definition pow2 (e : Z) : Q := 2 ^ e.

Lemma pow2_gt_0 (e : Z) : 0 < pow2 e.
Proof. apply Qpower_0_lt. reflexivity. Qed.

Lemma pow2_plus (a b : Z) : pow2 (a + b) == pow2 a * pow2 b.
Proof. apply Qpower_plus. discriminate. Qed.

Lemma pow2_double (e : Z) : pow2 (e + 1) == 2 * pow2 e.
Proof. rewrite pow2_plus. change (pow2 1) with 2. ring. Qed.

Lemma pow2_inject (e : Z) : (0 <= e)%Z -> pow2 e == inject_Z (2 ^ e).
Proof. intros H. unfold pow2. rewrite Zpower_Qpower by exact H. reflexivity. Qed.

Lemma pow2_mono (a b : Z) : (a <= b)%Z -> pow2 a <= pow2 b.
Proof. intros H. apply Qpower_le_compat_l; [exact H | discriminate]. Qed.

Lemma pow2_strict_mono (a b : Z) : (a < b)%Z -> pow2 a < pow2 b.
Proof.
  intros H. replace b with (a + (b - a))%Z by lia. rewrite pow2_plus.
  assert (H1 : 1 < pow2 (b - a)).
  { assert (H2 : pow2 1 <= pow2 (b - a)) by (apply pow2_mono; lia).
    change (pow2 1) with 2 in H2. lra. }
  pose proof (pow2_gt_0 a). nra.
Qed.

Lemma pow2_lt_inv (a b : Z) : pow2 a < pow2 b -> (a < b)%Z.
Proof.
  intros H. destruct (Z_lt_le_dec a b) as [Hlt | Hle]; [exact Hlt |].
  apply pow2_mono in Hle. lra.
Qed.

(** ** Where a value lies between two consecutive multiples of [2^e] *)

(** The value [x] is at [m * 2^e] or above it, below the next multiple:
    at it, in the lower half, at the middle or in the upper half. *)
Definition located (x : Q) (m e : Z) (l : location) : Prop :=
  match l with
  | loc_Exact => x == inject_Z m * pow2 e
  | loc_Inexact Lt =>
      inject_Z m * pow2 e < x /\ x < (inject_Z m + (1 # 2)) * pow2 e
  | loc_Inexact Eq => x == (inject_Z m + (1 # 2)) * pow2 e
  | loc_Inexact Gt =>
      (inject_Z m + (1 # 2)) * pow2 e < x /\ x < (inject_Z m + 1) * pow2 e
  end.

Lemma inject_Z_xO (p : positive) :
  inject_Z (Zpos p~0) == 2 * inject_Z (Zpos p).
Proof. rewrite (Pos2Z.inj_xO p), inject_Z_mult. reflexivity. Qed.

Lemma inject_Z_xI (p : positive) :
  inject_Z (Zpos p~1) == 2 * inject_Z (Zpos p) + 1.
Proof.
  rewrite (Pos2Z.inj_xI p), inject_Z_plus, inject_Z_mult. reflexivity.
Qed.

(** One shift to the right keeps the value located. *)
Lemma shr_1_located (x : Q) (mrs : shr_record) (e : Z) :
  (0 <= shr_m mrs)%Z ->
  located x (shr_m mrs) e (loc_of_shr_record mrs) ->
  located x (shr_m (shr_1 mrs)) (e + 1) (loc_of_shr_record (shr_1 mrs)).
Proof.
  destruct mrs as [m r s]. cbn [shr_m]. intros Hm.
  pose proof (pow2_gt_0 e) as HP.
  destruct m as [| [p | p |] | p]; try lia;
    destruct r, s; cbn [shr_1 shr_m loc_of_shr_record orb located];
    rewrite ?pow2_double, ?inject_Z_xO, ?inject_Z_xI;
    change (inject_Z 1) with 1; change (inject_Z 0) with 0;
    set (P := pow2 e) in *; try set (M := inject_Z (Z.pos p));
    intros H; try split; try lra.
Qed.

Lemma shr_1_nonneg (mrs : shr_record) :
  (0 <= shr_m mrs)%Z -> (0 <= shr_m (shr_1 mrs))%Z.
Proof.
  intros H. rewrite shr_1_m by exact H. apply Z.div_pos; lia.
Qed.

Lemma iter_shr_nonneg (p : positive) (mrs : shr_record) :
  (0 <= shr_m mrs)%Z -> (0 <= shr_m (SpecFloat.iter_pos shr_1 p mrs))%Z.
Proof.
  intros H. rewrite iter_shr_m by exact H.
  apply Z.div_pos; [exact H | apply Rounding.pow2_pos; lia].
Qed.

Lemma iter_shr_located (p : positive) (x : Q) (mrs : shr_record) (e : Z) :
  (0 <= shr_m mrs)%Z ->
  located x (shr_m mrs) e (loc_of_shr_record mrs) ->
  located x (shr_m (SpecFloat.iter_pos shr_1 p mrs)) (e + Zpos p)
          (loc_of_shr_record (SpecFloat.iter_pos shr_1 p mrs)).
Proof.
  revert mrs e.
  induction p as [p IH | p IH |]; intros mrs e Hm Hl;
    cbn [SpecFloat.iter_pos].
  - replace (e + Z.pos p~1)%Z with (e + 1 + Z.pos p + Z.pos p)%Z by lia.
    apply IH; [apply iter_shr_nonneg, shr_1_nonneg; exact Hm |].
    apply IH; [apply shr_1_nonneg; exact Hm |].
    apply shr_1_located; assumption.
  - replace (e + Z.pos p~0)%Z with (e + Z.pos p + Z.pos p)%Z by lia.
    apply IH; [apply iter_shr_nonneg; exact Hm |].
    apply IH; assumption.
  - apply shr_1_located; assumption.
Qed.

(** The shift that the format asks for keeps the value located. *)
Lemma shr_fexp_located (x : Q) (m e : Z) (l : location)
  (mrs' : shr_record) (e' : Z) :
  (0 <= m)%Z -> located x m e l ->
  shr_fexp prec emax m e l = (mrs', e') ->
  located x (shr_m mrs') e' (loc_of_shr_record mrs').
Proof.
  intros Hm Hl Hshr. unfold shr_fexp, shr in Hshr.
  assert (H0 : located x (shr_m (shr_record_of_loc m l)) e
                       (loc_of_shr_record (shr_record_of_loc m l))).
  { rewrite shr_m_of_loc, loc_of_shr_record_of_loc. exact Hl. }
  destruct (fexp prec emax (Zdigits2 m + e) - e)%Z as [| p | p];
    injection Hshr as <- <-; try exact H0.
  apply iter_shr_located; [rewrite shr_m_of_loc; exact Hm | exact H0].
Qed.

(** A mantissa of at least 53 digits above the subnormal range is cut to
    53 digits. *)
Lemma shr_fexp_normal (m e : Z) (l : location) (mrs' : shr_record) (e' : Z) :
  (0 < m)%Z -> (53 <= Zdigits2 m)%Z -> (-1074 <= Zdigits2 m + e - 53)%Z ->
  shr_fexp prec emax m e l = (mrs', e') ->
  e' = (Zdigits2 m + e - 53)%Z
  /\ (2 ^ 52 <= shr_m mrs' < 2 ^ 53)%Z.
Proof.
  intros Hm Hd He Hshr. unfold shr_fexp, shr in Hshr.
  rewrite fexp64_eq in Hshr.
  assert (Hdig : forall m', (0 < m')%Z -> Zdigits2 m' = 53%Z ->
                            (2 ^ 52 <= m' < 2 ^ 53)%Z).
  { intros m' Hm' Hd'. split.
    - apply digits_pow_le; lia.
    - apply digits_lt_pow; lia. }
  destruct (Z.max (Zdigits2 m + e - 53) (-1074) - e)%Z as [| p | p] eqn:Hn;
    injection Hshr as <- <-.
  - split; [lia |]. rewrite shr_m_of_loc. apply Hdig; lia.
  - split; [lia |].
    rewrite iter_shr_m by (rewrite shr_m_of_loc; lia).
    rewrite shr_m_of_loc.
    destruct (@digits_div_pow2 m (Zpos p)) as [Hq Hdq]; try lia.
    apply Hdig; lia.
  - lia.
Qed.

(** ** The error of one rounding *)

(** The unit roundoff of the format, [2^-53]. *)
Definition unit_roundoff : Q := 1 # 9007199254740992.

(** The value of a positive finite float. *)
Definition value (m : positive) (e : Z) : Q := inject_Z (Zpos m) * pow2 e.

Lemma located_bounds (x : Q) (m e : Z) (l : location) :
  located x m e l ->
  inject_Z m * pow2 e <= x /\ x < (inject_Z m + 1) * pow2 e.
Proof.
  pose proof (pow2_gt_0 e) as HP.
  destruct l as [| [ | | ]]; cbn [located]; set (P := pow2 e) in *;
    intros H; split; lra.
Qed.

(** Rounding to nearest moves the value by at most half a unit. *)
Lemma round_nearest_even_error (x : Q) (m e : Z) (l : location) :
  located x m e l ->
  let m' := round_nearest_even m l in
  (m <= m' <= m + 1)%Z
  /\ inject_Z m' * pow2 e - (1 # 2) * pow2 e <= x
  /\ x <= inject_Z m' * pow2 e + (1 # 2) * pow2 e.
Proof.
  pose proof (pow2_gt_0 e) as HP. intros Hl m'.
  split; [apply round_nearest_even_bounds |].
  unfold m'. destruct l as [| [ | | ]]; cbn [located round_nearest_even] in *;
    try destruct (Z.even m);
    rewrite ?inject_Z_plus; change (inject_Z 1) with 1;
    set (P := pow2 e) in *; split; lra.
Qed.

(** The second shift of [binary_round_aux]: a rounded mantissa of 53
    digits stays, and [2^53] becomes [2^52] at the next exponent. *)
Lemma shr_fexp_rounded (m e : Z) (mrs' : shr_record) (e' : Z) :
  (2 ^ 52 <= m <= 2 ^ 53)%Z -> (-1074 <= e)%Z ->
  shr_fexp prec emax m e loc_Exact = (mrs', e') ->
  (2 ^ 52 <= shr_m mrs' < 2 ^ 53)%Z
  /\ (e <= e' <= e + 1)%Z
  /\ inject_Z (shr_m mrs') * pow2 e' == inject_Z m * pow2 e.
Proof.
  intros Hm He Hshr. unfold shr_fexp, shr in Hshr.
  rewrite fexp64_eq in Hshr.
  destruct (Z.eq_dec m (2 ^ 53)) as [-> | Hne].
  - change (Zdigits2 (2 ^ 53)) with 54%Z in Hshr.
    replace (Z.max (54 + e - 53) (-1074) - e)%Z with 1%Z in Hshr by lia.
    cbn in Hshr. injection Hshr as <- <-. cbn [shr_m].
    split; [split; [reflexivity | reflexivity] |].
    split; [lia |].
    rewrite pow2_double.
    change (inject_Z (2 ^ 53)) with (2 * inject_Z 4503599627370496).
    ring.
  - assert (Hd : Zdigits2 m = 53%Z).
    { assert (H1 : (52 + 1 <= Zdigits2 m)%Z) by (apply digits_pow_le; lia).
      assert (H2 : (Zdigits2 m <= 53)%Z) by (apply digits_lt_pow; lia).
      lia. }
    rewrite Hd in Hshr.
    replace (Z.max (53 + e - 53) (-1074) - e)%Z with 0%Z in Hshr by lia.
    injection Hshr as <- <-. cbn [shr_record_of_loc shr_m].
    split; [lia |]. split; [lia | reflexivity].
Qed.

(** A value of the normal range that is given by a mantissa of at least 53
    digits is rounded to a normal double, with a relative error of at most
    [2^-53]. *)
Lemma binary_round_aux_error (s : bool) (x : Q) (m e : Z) (l : location) :
  (0 < m)%Z -> (53 <= Zdigits2 m)%Z -> located x m e l ->
  pow2 (-1022) <= x -> x < pow2 1023 ->
  exists (m' : positive) (e' : Z),
    binary_round_aux prec emax s m e l = S754_finite s m' e'
    /\ (2 ^ 52 <= Zpos m' < 2 ^ 53)%Z
    /\ x * (1 - unit_roundoff) <= value m' e'
    /\ value m' e' <= x * (1 + unit_roundoff).
Proof.
  intros Hm Hd Hl Hlo Hhi.
  destruct (@located_bounds _ _ _ _ Hl) as [Hx1 Hx2].
  pose proof (pow2_gt_0 e) as HP.
  set (d := Zdigits2 m) in *.
  assert (Hm1 : (2 ^ (d - 1) <= m)%Z) by (apply digits_pow_le; unfold d; lia).
  assert (Hm2 : (m < 2 ^ d)%Z) by (apply digits_lt_pow; unfold d; lia).
  assert (Hq1 : pow2 (d - 1 + e) <= inject_Z m * pow2 e).
  { rewrite pow2_plus, (@pow2_inject (d - 1)) by lia.
    apply Qmult_le_compat_r; [| lra]. rewrite <- Zle_Qle. exact Hm1. }
  assert (Hq2 : (inject_Z m + 1) * pow2 e <= pow2 (d + e)).
  { rewrite pow2_plus, (@pow2_inject d) by lia.
    apply Qmult_le_compat_r; [| lra].
    change 1 with (inject_Z 1). rewrite <- inject_Z_plus, <- Zle_Qle. lia. }
  assert (He1 : (-1022 < d + e)%Z) by (apply pow2_lt_inv; lra).
  assert (He2 : (d - 1 + e < 1023)%Z) by (apply pow2_lt_inv; lra).
  unfold binary_round_aux.
  destruct (shr_fexp prec emax m e l) as [mrs1 e1] eqn:H1.
  pose proof (@shr_fexp_located x m e l mrs1 e1 ltac:(lia) Hl H1) as Hl1.
  destruct (@shr_fexp_normal m e l mrs1 e1 Hm Hd ltac:(fold d; lia) H1)
    as [He1' Hm1'].
  fold d in He1'.
  destruct (@round_nearest_even_error _ _ _ _ Hl1) as [Hr [Hr1 Hr2]].
  destruct (@located_bounds _ _ _ _ Hl1) as [Hb1 _].
  set (m2 := round_nearest_even (shr_m mrs1) (loc_of_shr_record mrs1)) in *.
  destruct (shr_fexp prec emax m2 e1 loc_Exact) as [mrs2 e2] eqn:H2.
  destruct (@shr_fexp_rounded m2 e1 mrs2 e2 ltac:(lia) ltac:(lia) H2)
    as [Hm3 [He3 Hv3]].
  destruct (shr_m mrs2) as [| m3 | m3] eqn:Hm3eq; try lia.
  exists m3, e2.
  replace (e2 <=? emax - prec)%Z with true
    by (symmetry; apply Z.leb_le; change (emax - prec)%Z with 971%Z; lia).
  split; [reflexivity |]. split; [exact Hm3 |].
  unfold value. rewrite Hv3.
  pose proof (pow2_gt_0 e1) as HP1.
  assert (Hbig : inject_Z (2 ^ 52) * pow2 e1 <= inject_Z (shr_m mrs1) * pow2 e1).
  { apply Qmult_le_compat_r; [| lra]. rewrite <- Zle_Qle. lia. }
  change (inject_Z (2 ^ 52)) with (4503599627370496 # 1) in Hbig.
  unfold unit_roundoff.
  set (P1 := pow2 e1) in *. set (A := inject_Z m2 * P1) in *.
  set (B := inject_Z (shr_m mrs1) * P1) in *.
  split; lra.
Qed.

(** ** Products and quotients of normal doubles *)

(** The normal positive doubles: sign [+] and a mantissa of 53 digits. *)
Definition normal (x : spec_float) : Prop :=
  exists (m : positive) (e : Z),
    x = S754_finite false m e /\ (2 ^ 52 <= Zpos m < 2 ^ 53)%Z.

(** The value of a double, for the finite ones. *)
Definition SFvalue (x : spec_float) : Q :=
  match x with
  | S754_finite false m e => value m e
  | S754_finite true m e => - value m e
  | _ => 0
  end.

Lemma value_pos (m : positive) (e : Z) : 0 < value m e.
Proof.
  unfold value. apply Qmult_lt_0_compat; [| apply pow2_gt_0].
  change 0 with (inject_Z 0). rewrite <- Zlt_Qlt. lia.
Qed.

Lemma normal_value_pos (x : spec_float) : normal x -> 0 < SFvalue x.
Proof. intros [m [e [-> _]]]. apply value_pos. Qed.

Lemma normal_digits (m : positive) :
  (2 ^ 52 <= Zpos m < 2 ^ 53)%Z -> Zdigits2 (Zpos m) = 53%Z.
Proof.
  intros [H1 H2].
  assert (H3 : (52 + 1 <= Zdigits2 (Zpos m))%Z) by (apply digits_pow_le; lia).
  assert (H4 : (Zdigits2 (Zpos m) <= 53)%Z) by (apply digits_lt_pow; lia).
  lia.
Qed.

(** The product of two normal doubles, when it lies in the normal range. *)
Lemma SFmul_error (x y : spec_float) :
  normal x -> normal y ->
  pow2 (-1022) <= SFvalue x * SFvalue y -> SFvalue x * SFvalue y < pow2 1023 ->
  normal (SFmul prec emax x y)
  /\ SFvalue x * SFvalue y * (1 - unit_roundoff) <= SFvalue (SFmul prec emax x y)
  /\ SFvalue (SFmul prec emax x y) <= SFvalue x * SFvalue y * (1 + unit_roundoff).
Proof.
  intros [mx [ex [-> Hmx]]] [my [ey [-> Hmy]]] Hlo Hhi.
  cbn [SFvalue] in *. cbn [SFmul xorb].
  destruct (@binary_round_aux_error false (value mx ex * value my ey)
              (Zpos (mx * my)) (ex + ey) loc_Exact)
    as [m' [e' [Hr [Hm' [H1 H2]]]]].
  - lia.
  - assert (H : (104 + 1 <= Zdigits2 (Zpos (mx * my)))%Z); [| lia].
    apply digits_pow_le; lia.
  - cbn [located]. unfold value.
    rewrite Pos2Z.inj_mul, inject_Z_mult, pow2_plus. ring.
  - exact Hlo.
  - exact Hhi.
  - rewrite Hr. cbn [SFvalue]. split; [| split; assumption].
    exists m', e'. split; [reflexivity | exact Hm'].
Qed.

(** The quotient [a / b] of two integers lies where the remainder of the
    division says. *)
Lemma quotient_located (x : Q) (a b q r e : Z) :
  (0 < b)%Z -> (a = q * b + r)%Z -> (0 <= r < b)%Z ->
  x * inject_Z b == inject_Z a * pow2 e ->
  located x q e (new_location b r).
Proof.
  intros Hb Ha Hr Hx.
  pose proof (pow2_gt_0 e) as HP.
  assert (HB : 0 < inject_Z b).
  { change 0 with (inject_Z 0). rewrite <- Zlt_Qlt. exact Hb. }
  assert (Hx' : x * inject_Z b
                == inject_Z q * pow2 e * inject_Z b + inject_Z r * pow2 e).
  { rewrite Hx, Ha, inject_Z_plus, inject_Z_mult. ring. }
  clear Hx Ha.
  assert (Hloc : new_location b r
                 = if (r =? 0)%Z then loc_Exact
                   else loc_Inexact (2 * r ?= b)%Z).
  { unfold new_location, new_location_even, new_location_odd.
    destruct (Z.even b) eqn:Hev; [reflexivity |].
    destruct (r =? 0)%Z; [reflexivity |]. f_equal.
    assert (Hodd : Z.odd b = true) by (rewrite <- Z.negb_even, Hev; reflexivity).
    apply Z.odd_spec in Hodd. destruct Hodd as [c Hc].
    destruct (Z.compare_spec (2 * r + 1) b) as [H | H | H];
      symmetry; [apply Z.compare_lt_iff | apply Z.compare_lt_iff
                 | apply Z.compare_gt_iff]; lia. }
  rewrite Hloc. clear Hloc.
  assert (HR : 0 <= inject_Z r).
  { change 0 with (inject_Z 0). rewrite <- Zle_Qle. lia. }
  assert (HRB : inject_Z r < inject_Z b) by (rewrite <- Zlt_Qlt; lia).
  assert (Hcmp : match (2 * r ?= b)%Z with
                 | Eq => 2 * inject_Z r == inject_Z b
                 | Lt => 2 * inject_Z r < inject_Z b
                 | Gt => inject_Z b < 2 * inject_Z r
                 end).
  { change 2 with (inject_Z 2). rewrite <- inject_Z_mult.
    destruct (Z.compare_spec (2 * r) b) as [H | H | H].
    - rewrite H. reflexivity.
    - rewrite <- Zlt_Qlt. exact H.
    - rewrite <- Zlt_Qlt. exact H. }
  assert (Hzero : (r =? 0)%Z = false -> 0 < inject_Z r).
  { intros H. apply Z.eqb_neq in H. change 0 with (inject_Z 0).
    rewrite <- Zlt_Qlt. lia. }
  assert (Hzero' : (r =? 0)%Z = true -> inject_Z r == 0).
  { intros H. apply Z.eqb_eq in H. rewrite H. reflexivity. }
  unfold located.
  remember (pow2 e) as P eqn:HeqP. remember (inject_Z b) as B eqn:HeqB.
  remember (inject_Z r) as R eqn:HeqR. remember (inject_Z q) as M eqn:HeqM.
  clear HeqP HeqB HeqR HeqM.
  assert (Hscale : forall u v : Q, u * B < v * B -> u < v).
  { intros u v H. apply (Qmult_lt_r u v B HB). exact H. }
  assert (Hcancel : forall u v : Q, u * B == v * B -> u == v).
  { intros u v H. apply (Qmult_inj_r u v B); [lra | exact H]. }
  destruct (r =? 0)%Z.
  - apply Hcancel. rewrite Hx', (Hzero' eq_refl). ring.
  - specialize (Hzero eq_refl).
    assert (HRP : 0 < R * P) by (apply Qmult_lt_0_compat; assumption).
    assert (HBP : 0 < B * P) by (apply Qmult_lt_0_compat; assumption).
    assert (H3 : R * P < B * P) by (apply Qmult_lt_compat_r; assumption).
    destruct (2 * r ?= b)%Z.
    + apply Hcancel. rewrite Hx', <- Hcmp. ring.
    + assert (H2 : 2 * R * P < B * P)
        by (apply Qmult_lt_compat_r; assumption).
      split; apply Hscale; rewrite Hx'; lra.
    + assert (H2 : B * P < 2 * R * P)
        by (apply Qmult_lt_compat_r; assumption).
      split; apply Hscale; rewrite Hx'; lra.
Qed.

(** The quotient of two normal doubles, when it lies in the normal range. *)
Lemma SFdiv_error (x y : spec_float) :
  normal x -> normal y ->
  pow2 (-1021) <= SFvalue x / SFvalue y -> SFvalue x / SFvalue y < pow2 1023 ->
  normal (SFdiv prec emax x y)
  /\ SFvalue x / SFvalue y * (1 - unit_roundoff) <= SFvalue (SFdiv prec emax x y)
  /\ SFvalue (SFdiv prec emax x y) <= SFvalue x / SFvalue y * (1 + unit_roundoff).
Proof.
  intros [mx [ex [-> Hmx]]] [my [ey [-> Hmy]]] Hlo Hhi.
  cbn [SFvalue] in *. cbn [SFdiv xorb]. unfold SFdiv_core_binary.
  rewrite (normal_digits Hmx), (normal_digits Hmy), fexp64_eq.
  set (x := value mx ex / value my ey) in *.
  pose proof (value_pos my ey) as Hvy.
  pose proof (pow2_gt_0 ey) as HPy. pose proof (pow2_gt_0 (ex - ey)) as HPd.
  assert (HMy : 0 < inject_Z (Zpos my)).
  { change 0 with (inject_Z 0). rewrite <- Zlt_Qlt. lia. }
  assert (K1 : x * inject_Z (Zpos my) == inject_Z (Zpos mx) * pow2 (ex - ey)).
  { assert (Hpe : pow2 ex == pow2 (ex - ey) * pow2 ey).
    { rewrite <- pow2_plus. replace (ex - ey + ey)%Z with ex by lia.
      reflexivity. }
    unfold x, value. rewrite Hpe. field. split; lra. }
  clearbody x.
  assert (Hd : (-1021 <= ex - ey)%Z).
  { assert (H : pow2 (-1021) < pow2 (ex - ey + 1)).
    { rewrite pow2_double.
      assert (H1 : inject_Z (Zpos mx) < 2 * inject_Z (Zpos my)).
      { change 2 with (inject_Z 2).
        rewrite <- inject_Z_mult, <- Zlt_Qlt. lia. }
      assert (H2 : inject_Z (Zpos mx) * pow2 (ex - ey)
                   < 2 * inject_Z (Zpos my) * pow2 (ex - ey))
        by (apply Qmult_lt_compat_r; assumption).
      assert (H3 : x * inject_Z (Zpos my)
                   < 2 * pow2 (ex - ey) * inject_Z (Zpos my)) by lra.
      apply (proj1 (Qmult_lt_r _ _ _ HMy)) in H3. lra. }
    apply pow2_lt_inv in H. lia. }
  replace (Z.min (Z.max (53 + ex - (53 + ey) - 53) (-1074)) (ex - ey))
    with (ex - ey - 53)%Z by lia.
  replace (ex - ey - (ex - ey - 53))%Z with 53%Z by lia.
  rewrite (@div_core_shift (Zpos mx) 53 ltac:(lia)).
  pose proof (Z.div_eucl_eq (Zpos mx * 2 ^ 53) (Zpos my) ltac:(lia)) as Heucl.
  pose proof (Z.mod_pos_bound (Zpos mx * 2 ^ 53) (Zpos my) ltac:(lia)) as Hmod.
  unfold Z.modulo in Hmod.
  destruct (Z.div_eucl (Zpos mx * 2 ^ 53) (Z.pos my)) as [q r].
  assert (Hq : (2 ^ 52 <= q)%Z).
  { assert (H53 : (2 ^ 53 = 2 * 2 ^ 52)%Z) by reflexivity.
    set (T := (2 ^ 52)%Z) in *. assert (0 < T)%Z by reflexivity.
    clearbody T. nia. }
  destruct (@binary_round_aux_error false x q (ex - ey - 53)
              (new_location (Zpos my) r))
    as [m' [e' [Hr [Hm' [H1 H2]]]]].
  - lia.
  - assert (H : (52 + 1 <= Zdigits2 q)%Z); [| lia].
    apply digits_pow_le; lia.
  - apply (@quotient_located x (Zpos mx * 2 ^ 53) (Zpos my) q r).
    + lia.
    + lia.
    + exact Hmod.
    + rewrite K1, inject_Z_mult, <- (@pow2_inject 53) by lia.
      replace (ex - ey)%Z with (53 + (ex - ey - 53))%Z at 1 by lia.
      rewrite pow2_plus. ring.
  - assert (H : pow2 (-1022) <= pow2 (-1021)) by (apply pow2_mono; lia).
    lra.
  - exact Hhi.
  - rewrite Hr. cbn [SFvalue]. split; [| split; assumption].
    exists m', e'. split; [reflexivity | exact Hm'].
Qed.

(** ** Accumulated relative errors *)

(** [v] and [w] are within a factor [c] of each other. *)
Definition close (c v w : Q) : Prop := w <= v * c /\ v <= w * c.

(** The factor of one rounding, [1 / (1 - 2^-53)]. *)
Definition round_factor : Q := 9007199254740992 # 9007199254740991.

Lemma round_close (v w : Q) :
  0 < w -> w * (1 - unit_roundoff) <= v -> v <= w * (1 + unit_roundoff) ->
  close round_factor v w.
Proof.
  unfold close, round_factor, unit_roundoff. intros Hw H1 H2. split; lra.
Qed.

Lemma close_exact (v : Q) : close 1 v v.
Proof. unfold close. split; lra. Qed.

Lemma close_pos (c v w : Q) : 0 < c -> 0 < w -> close c v w -> 0 < v.
Proof.
  intros Hc Hw [H1 _].
  destruct (Qlt_le_dec 0 v) as [Hv | Hv]; [exact Hv | exfalso].
  assert (H : v * c <= 0 * c) by (apply Qmult_le_compat_r; lra).
  lra.
Qed.

Lemma close_mul (c1 c2 a a0 b b0 : Q) :
  0 < a -> 0 < a0 -> 0 < b -> 0 < b0 -> 0 < c1 -> 0 < c2 ->
  close c1 a a0 -> close c2 b b0 -> close (c1 * c2) (a * b) (a0 * b0).
Proof.
  intros Ha Ha0 Hb Hb0 Hc1 Hc2 [H1 H2] [H3 H4]. split.
  - setoid_replace (a * b * (c1 * c2)) with ((a * c1) * (b * c2)) by ring.
    apply Qmult_le_compat_nonneg; split; lra.
  - setoid_replace (a0 * b0 * (c1 * c2)) with ((a0 * c1) * (b0 * c2)) by ring.
    apply Qmult_le_compat_nonneg; split; lra.
Qed.

Lemma close_inv (c b b0 : Q) :
  0 < b -> 0 < b0 -> close c b b0 -> close c (/ b) (/ b0).
Proof.
  intros Hb Hb0 [H1 H2]. split.
  - apply Qle_shift_inv_r; [exact Hb0 |].
    setoid_replace (/ b * c * b0) with (b0 * c / b) by (field; lra).
    apply Qle_shift_div_l; [exact Hb | lra].
  - apply Qle_shift_inv_r; [exact Hb |].
    setoid_replace (/ b0 * c * b) with (b * c / b0) by (field; lra).
    apply Qle_shift_div_l; [exact Hb0 | lra].
Qed.

Lemma close_div (c1 c2 a a0 b b0 : Q) :
  0 < a -> 0 < a0 -> 0 < b -> 0 < b0 -> 0 < c1 -> 0 < c2 ->
  close c1 a a0 -> close c2 b b0 -> close (c1 * c2) (a / b) (a0 / b0).
Proof.
  intros Ha Ha0 Hb Hb0 Hc1 Hc2 H1 H2. unfold Qdiv.
  apply close_mul; try assumption.
  - apply Qinv_lt_0_compat. exact Hb.
  - apply Qinv_lt_0_compat. exact Hb0.
  - apply close_inv; assumption.
Qed.

Lemma close_trans (c1 c2 v w z : Q) :
  0 < c1 -> 0 < c2 -> close c1 v w -> close c2 w z ->
  close (c1 * c2) v z.
Proof.
  intros Hc1 Hc2 [H1 H2] [H3 H4]. split.
  - assert (H : w * c2 <= v * c1 * c2) by (apply Qmult_le_compat_r; lra).
    lra.
  - assert (H : w * c1 <= z * c2 * c1) by (apply Qmult_le_compat_r; lra).
    lra.
Qed.

(** ** Magnitudes *)

(** [v] lies between [2^-n] and [2^n]. *)
Definition within (n : Z) (v : Q) : Prop := pow2 (- n) <= v /\ v <= pow2 n.

Lemma within_pos (n : Z) (v : Q) : within n v -> 0 < v.
Proof. intros [H _]. pose proof (pow2_gt_0 (- n)). lra. Qed.

Lemma within_mul (a b : Z) (v w : Q) :
  within a v -> within b w -> within (a + b) (v * w).
Proof.
  intros [H1 H2] [H3 H4].
  pose proof (pow2_gt_0 (- a)). pose proof (pow2_gt_0 (- b)).
  split.
  - replace (- (a + b))%Z with (- a + - b)%Z by lia. rewrite pow2_plus.
    apply Qmult_le_compat_nonneg; split; lra.
  - rewrite pow2_plus. apply Qmult_le_compat_nonneg; split; lra.
Qed.

Lemma within_inv (n : Z) (v : Q) : within n v -> within n (/ v).
Proof.
  intros [H1 H2].
  pose proof (pow2_gt_0 (- n)) as Hn. pose proof (pow2_gt_0 n) as Hp.
  assert (Hv : 0 < v) by lra.
  assert (Hone : pow2 (- n) * pow2 n == 1).
  { rewrite <- pow2_plus. replace (- n + n)%Z with 0%Z by lia. reflexivity. }
  split.
  - apply Qle_shift_inv_l; [exact Hv |].
    assert (H : pow2 (- n) * v <= pow2 (- n) * pow2 n)
      by (apply Qmult_le_l; assumption).
    lra.
  - apply Qle_shift_inv_r; [exact Hv |].
    assert (H : pow2 n * pow2 (- n) <= pow2 n * v)
      by (apply Qmult_le_l; assumption).
    lra.
Qed.

Lemma within_div (a b : Z) (v w : Q) :
  within a v -> within b w -> within (a + b) (v / w).
Proof.
  intros Hv Hw. unfold Qdiv. apply within_mul; [exact Hv |].
  apply within_inv. exact Hw.
Qed.

Lemma within_close (n : Z) (c v w : Q) :
  0 < c -> c <= 2 -> within n w -> close c v w -> within (n + 1) v.
Proof.
  intros Hc Hc2 Hw Hcl. pose proof (within_pos Hw) as Hw0.
  pose proof (close_pos Hc Hw0 Hcl) as Hv0.
  destruct Hw as [H1 H2]. destruct Hcl as [H3 H4].
  split.
  - replace (- (n + 1))%Z with (- n + - 1)%Z by lia. rewrite pow2_plus.
    change (pow2 (-1)) with (1 # 2).
    assert (H : v * c <= v * 2) by (apply Qmult_le_l; assumption).
    lra.
  - rewrite pow2_double.
    assert (H : w * c <= w * 2) by (apply Qmult_le_l; assumption).
    lra.
Qed.

Lemma within_weaken (n m : Z) (v : Q) :
  (n <= m)%Z -> within n v -> within m v.
Proof.
  intros H [H1 H2].
  assert (pow2 (- m) <= pow2 (- n)) by (apply pow2_mono; lia).
  assert (pow2 n <= pow2 m) by (apply pow2_mono; lia).
  split; lra.
Qed.

Lemma within_normal_range (n : Z) (v : Q) :
  (n <= 1021)%Z -> within n v -> pow2 (-1021) <= v /\ v < pow2 1023.
Proof.
  intros H Hv. destruct (within_weaken H Hv) as [H1 H2].
  assert (pow2 1021 < pow2 1023) by (apply pow2_strict_mono; lia).
  split; [exact H1 | lra].
Qed.

(** ** Doubles computed with accumulated error *)

Open Scope float_scope.

(** The value of a double. *)
Definition val (x : float) : Q := SFvalue (Prim2SF x).

(** The double [f] is normal and positive, and its value is within the
    factor [c] of the rational [f0], of magnitude at most [2^n]. *)
Definition approx (c : Q) (n : Z) (f : float) (f0 : Q) : Prop :=
  normal (Prim2SF f)
  /\ (0 < c /\ c <= 2)%Q
  /\ within n f0
  /\ close c (val f) f0.

Lemma approx_pos (c : Q) (n : Z) (f : float) (f0 : Q) :
  approx c n f f0 -> (0 < val f /\ 0 < f0)%Q.
Proof.
  intros [Hn [_ [Hw _]]]. split.
  - apply normal_value_pos. exact Hn.
  - exact (within_pos Hw).
Qed.

Lemma round_factor_bounds : (0 < round_factor /\ round_factor <= 2)%Q.
Proof. unfold round_factor. split; lra. Qed.

Lemma approx_mul (c1 c2 : Q) (n1 n2 n : Z) (x y : float) (x0 y0 : Q) :
  approx c1 n1 x x0 -> approx c2 n2 y y0 ->
  within n (x0 * y0)%Q -> (n + 1 <= 1021)%Z ->
  (round_factor * (c1 * c2) <= 2)%Q ->
  approx (round_factor * (c1 * c2)) n (x * y) (x0 * y0)%Q.
Proof.
  intros Hx Hy Hw Hn Hc.
  destruct (approx_pos Hx) as [Hvx Hx0]. destruct (approx_pos Hy) as [Hvy Hy0].
  destruct Hx as [Nx [[Hc1 _] [_ Cx]]]. destruct Hy as [Ny [[Hc2 _] [_ Cy]]].
  destruct round_factor_bounds as [HE HE2].
  assert (Hc12 : (0 < c1 * c2)%Q) by (apply Qmult_lt_0_compat; assumption).
  assert (Hc12' : (c1 * c2 <= 2)%Q).
  { assert (H : (1 * (c1 * c2) <= round_factor * (c1 * c2))%Q).
    { apply Qmult_le_compat_r; [| lra]. unfold round_factor. lra. }
    lra. }
  pose proof (close_mul Hvx Hx0 Hvy Hy0 Hc1 Hc2 Cx Cy) as Cxy.
  pose proof (within_close Hc12 Hc12' Hw Cxy) as Wxy.
  destruct (within_normal_range Hn Wxy) as [Hlo Hhi].
  destruct (@SFmul_error (Prim2SF x) (Prim2SF y) Nx Ny) as [Nr [H1 H2]].
  - assert (H : (pow2 (-1022) <= pow2 (-1021))%Q) by (apply pow2_mono; lia).
    unfold val in *. lra.
  - exact Hhi.
  - unfold approx, val. rewrite mul_spec. unfold SF64mul.
    split; [exact Nr |].
    split; [split; [apply Qmult_lt_0_compat; assumption | exact Hc] |].
    split; [exact Hw |].
    apply close_trans with (w := (val x * val y)%Q); try assumption.
    apply round_close; [| exact H1 | exact H2].
    apply Qmult_lt_0_compat; assumption.
Qed.

Lemma approx_div (c1 c2 : Q) (n1 n2 n : Z) (x y : float) (x0 y0 : Q) :
  approx c1 n1 x x0 -> approx c2 n2 y y0 ->
  within n (x0 / y0)%Q -> (n + 1 <= 1021)%Z ->
  (round_factor * (c1 * c2) <= 2)%Q ->
  approx (round_factor * (c1 * c2)) n (x / y) (x0 / y0)%Q.
Proof.
  intros Hx Hy Hw Hn Hc.
  destruct (approx_pos Hx) as [Hvx Hx0]. destruct (approx_pos Hy) as [Hvy Hy0].
  destruct Hx as [Nx [[Hc1 _] [_ Cx]]]. destruct Hy as [Ny [[Hc2 _] [_ Cy]]].
  destruct round_factor_bounds as [HE HE2].
  assert (Hc12 : (0 < c1 * c2)%Q) by (apply Qmult_lt_0_compat; assumption).
  assert (Hc12' : (c1 * c2 <= 2)%Q).
  { assert (H : (1 * (c1 * c2) <= round_factor * (c1 * c2))%Q).
    { apply Qmult_le_compat_r; [| lra]. unfold round_factor. lra. }
    lra. }
  pose proof (close_div Hvx Hx0 Hvy Hy0 Hc1 Hc2 Cx Cy) as Cxy.
  pose proof (within_close Hc12 Hc12' Hw Cxy) as Wxy.
  destruct (within_normal_range Hn Wxy) as [Hlo Hhi].
  destruct (@SFdiv_error (Prim2SF x) (Prim2SF y) Nx Ny) as [Nr [H1 H2]].
  - exact Hlo.
  - exact Hhi.
  - unfold approx, val. rewrite div_spec. unfold SF64div.
    split; [exact Nr |].
    split; [split; [apply Qmult_lt_0_compat; assumption | exact Hc] |].
    split; [exact Hw |].
    apply close_trans with (w := (val x / val y)%Q); try assumption.
    apply round_close; [| exact H1 | exact H2].
    apply Qlt_shift_div_l; [exact Hvy | lra].
Qed.

(** ** Doubles of moderate magnitude *)

(** Between [2^-250] and [2^250]. *)
Definition moderate (x : float) : bool := (0x1p-250 <=? x) && (x <=? 0x1p250).

Lemma moderate_approx (x : float) :
  moderate x = true -> approx 1 250 x (val x).
Proof.
  unfold moderate. rewrite !FloatAxioms.leb_spec.
  change (Prim2SF 0x1p-250) with (S754_finite false 4503599627370496 (-302)).
  change (Prim2SF 0x1p250) with (S754_finite false 4503599627370496 198).
  pose proof (Prim2SF_valid x) as Hv. unfold approx, val.
  intros H. apply andb_prop in H. destruct H as [Hlo Hhi].
  destruct (Prim2SF x) as [s | s | | s m e];
    try (destruct s; discriminate); try discriminate.
  destruct s; [discriminate |].
  apply SFleb_finite_pos in Hlo. apply SFleb_finite_pos in Hhi.
  apply valid_canonical in Hv.
  assert (Hd : Zdigits2 (Zpos m) = 53%Z) by lia.
  assert (Hm : (2 ^ 52 <= Zpos m < 2 ^ 53)%Z).
  { split; [apply digits_pow_le; lia | apply digits_lt_pow; lia]. }
  assert (HM1 : (pow2 52 <= inject_Z (Zpos m))%Q).
  { rewrite pow2_inject by lia. rewrite <- Zle_Qle. lia. }
  assert (HM2 : (inject_Z (Zpos m) <= pow2 53)%Q).
  { rewrite pow2_inject by lia. rewrite <- Zle_Qle. lia. }
  pose proof (pow2_gt_0 52) as H52. pose proof (pow2_gt_0 e) as He.
  split; [exists m, e; split; [reflexivity | exact Hm] |].
  split; [split; lra |].
  split; [| apply close_exact].
  cbn [SFvalue]. unfold value, within. split.
  - change (Z.opp 250) with (52 + -302)%Z. rewrite pow2_plus.
    pose proof (pow2_gt_0 (-302)).
    assert (H1 : (pow2 (-302) <= pow2 e)%Q) by (apply pow2_mono; lia).
    apply Qmult_le_compat_nonneg; split; lra.
  - destruct Hhi as [Hlt | [-> Hle]].
    + change 250%Z with (53 + 197)%Z. rewrite pow2_plus.
      assert (H1 : (pow2 e <= pow2 197)%Q) by (apply pow2_mono; lia).
      apply Qmult_le_compat_nonneg; split; lra.
    + change 250%Z with (52 + 198)%Z. rewrite pow2_plus.
      assert (H1 : (inject_Z (Zpos m) <= pow2 52)%Q).
      { rewrite pow2_inject by lia. rewrite <- Zle_Qle. exact Hle. }
      apply Qmult_le_compat_nonneg; split; lra.
Qed.

Lemma moderate_nonzero (x : float) : moderate x = true -> (x =? 0) = false.
Proof.
  unfold moderate. rewrite FloatAxioms.eqb_spec, !FloatAxioms.leb_spec.
  change (Prim2SF 0x1p-250) with (S754_finite false 4503599627370496 (-302)).
  change (Prim2SF 0) with (S754_zero false).
  intros H. apply andb_prop in H. destruct H as [Hlo _].
  destruct (Prim2SF x) as [s | s | | s m e]; try discriminate;
    destruct s; reflexivity.
Qed.

(** A normal double whose value is within [2^-50] of 1 passes the test
    [abs(r - 1) <= 2^-50]: there are thirteen such doubles. *)
Lemma near_one (r : float) :
  normal (Prim2SF r) ->
  (1 - (1 # 1125899906842624) <= val r)%Q ->
  (val r <= 1 + (1 # 1125899906842624))%Q ->
  (abs (r - 1) <=? 0x1p-50) = true.
Proof.
  intros [m [e [Hr Hm]]] Hlo Hhi. unfold val in Hlo, Hhi.
  rewrite Hr in Hlo, Hhi. cbn [SFvalue] in Hlo, Hhi. unfold value in Hlo, Hhi.
  pose proof (pow2_gt_0 e) as He.
  assert (HM1 : (pow2 52 <= inject_Z (Zpos m))%Q).
  { rewrite pow2_inject by lia. rewrite <- Zle_Qle. lia. }
  assert (HM2 : (inject_Z (Zpos m) < pow2 53)%Q).
  { rewrite pow2_inject by lia. rewrite <- Zlt_Qlt. lia. }
  assert (He1 : (e <= -52)%Z).
  { assert (H : (pow2 (52 + e) < pow2 1)%Q).
    { rewrite pow2_plus.
      assert (H1 : (pow2 52 * pow2 e <= inject_Z (Zpos m) * pow2 e)%Q)
        by (apply Qmult_le_compat_r; lra).
      change (pow2 1) with 2%Q. lra. }
    apply pow2_lt_inv in H. lia. }
  assert (He2 : (-53 <= e)%Z).
  { assert (H : (pow2 (-1) < pow2 (53 + e))%Q).
    { rewrite pow2_plus.
      assert (H1 : (inject_Z (Zpos m) * pow2 e < pow2 53 * pow2 e)%Q)
        by (apply Qmult_lt_compat_r; lra).
      change (pow2 (-1)) with (1 # 2)%Q. lra. }
    apply pow2_lt_inv in H. lia. }
  rewrite <- (SF2Prim_Prim2SF r), Hr.
  assert (Hcases : e = (-53)%Z \/ e = (-52)%Z) by lia.
  destruct Hcases as [-> | ->].
  - change (pow2 (-53)) with (1 # 9007199254740992)%Q in Hlo.
    assert (H : (inject_Z 9007199254740984 <= inject_Z (Zpos m))%Q).
    { change (inject_Z 9007199254740984) with (9007199254740984 # 1)%Q. lra. }
    rewrite <- Zle_Qle in H.
    assert (Hc : Zpos m = 9007199254740984%Z \/ Zpos m = 9007199254740985%Z
                 \/ Zpos m = 9007199254740986%Z \/ Zpos m = 9007199254740987%Z
                 \/ Zpos m = 9007199254740988%Z \/ Zpos m = 9007199254740989%Z
                 \/ Zpos m = 9007199254740990%Z \/ Zpos m = 9007199254740991%Z)
      by lia.
    clear - Hc.
    repeat (destruct Hc as [Hc | Hc]; [injection Hc as ->; reflexivity |]).
    injection Hc as ->. reflexivity.
  - change (pow2 (-52)) with (1 # 4503599627370496)%Q in Hhi.
    assert (H : (inject_Z (Zpos m) <= inject_Z 4503599627370500)%Q).
    { change (inject_Z 4503599627370500) with (4503599627370500 # 1)%Q. lra. }
    rewrite <- Zle_Qle in H.
    assert (Hc : Zpos m = 4503599627370496%Z \/ Zpos m = 4503599627370497%Z
                 \/ Zpos m = 4503599627370498%Z \/ Zpos m = 4503599627370499%Z
                 \/ Zpos m = 4503599627370500%Z)
      by lia.
    clear - Hc.
    repeat (destruct Hc as [Hc | Hc]; [injection Hc as ->; reflexivity |]).
    injection Hc as ->. reflexivity.
Qed.

Lemma approx_within (c : Q) (n : Z) (f : float) (f0 : Q) :
  approx c n f f0 -> within n f0.
Proof. intros [_ [_ [H _]]]. exact H. Qed.

(** ** The two prices of a pair *)

Import Binary64.

Set Warnings "-inexact-float".

(** The price of [i] in [j] is computed as [xj * ti / tj / xi] and the
    price of [j] in [i] as [xi * tj / ti / xj]: seven roundings separate
    their product from 1. *)
Lemma reciprocal_product (xi xj ti tj : float) :
  moderate xi = true -> moderate xj = true ->
  moderate ti = true -> moderate tj = true ->
  (abs ((xj * ti / tj / xi) * (xi * tj / ti / xj) - 1) <=? 0x1p-50) = true.
Proof.
  intros Hxi Hxj Hti Htj.
  pose proof (moderate_approx xi Hxi) as Axi.
  pose proof (moderate_approx xj Hxj) as Axj.
  pose proof (moderate_approx ti Hti) as Ati.
  pose proof (moderate_approx tj Htj) as Atj.
  pose proof (approx_within Axi) as Wxi. pose proof (approx_within Axj) as Wxj.
  pose proof (approx_within Ati) as Wti. pose proof (approx_within Atj) as Wtj.
  pose proof (within_pos Wxi) as Pxi. pose proof (within_pos Wxj) as Pxj.
  pose proof (within_pos Wti) as Pti. pose proof (within_pos Wtj) as Ptj.
  assert (A1 : approx (round_factor * (1 * 1)) (250 + 250)
                      (xj * ti) (val xj * val ti)%Q).
  { apply (approx_mul Axj Ati);
      [apply within_mul; assumption | lia | unfold round_factor; lra]. }
  assert (A2 : approx (round_factor * (round_factor * (1 * 1) * 1))
                      (250 + 250 + 250)
                      (xj * ti / tj) (val xj * val ti / val tj)%Q).
  { apply (approx_div A1 Atj);
      [apply within_div; [apply within_mul |]; assumption | lia
      | unfold round_factor; lra]. }
  assert (A3 : approx (round_factor
                       * (round_factor * (round_factor * (1 * 1) * 1) * 1))
                      (250 + 250 + 250 + 250)
                      (xj * ti / tj / xi)
                      (val xj * val ti / val tj / val xi)%Q).
  { apply (approx_div A2 Axi);
      [apply within_div; [apply within_div; [apply within_mul |] |];
       assumption | lia | unfold round_factor; lra]. }
  assert (B1 : approx (round_factor * (1 * 1)) (250 + 250)
                      (xi * tj) (val xi * val tj)%Q).
  { apply (approx_mul Axi Atj);
      [apply within_mul; assumption | lia | unfold round_factor; lra]. }
  assert (B2 : approx (round_factor * (round_factor * (1 * 1) * 1))
                      (250 + 250 + 250)
                      (xi * tj / ti) (val xi * val tj / val ti)%Q).
  { apply (approx_div B1 Ati);
      [apply within_div; [apply within_mul |]; assumption | lia
      | unfold round_factor; lra]. }
  assert (B3 : approx (round_factor
                       * (round_factor * (round_factor * (1 * 1) * 1) * 1))
                      (250 + 250 + 250 + 250)
                      (xi * tj / ti / xj)
                      (val xi * val tj / val ti / val xj)%Q).
  { apply (approx_div B2 Axj);
      [apply within_div; [apply within_div; [apply within_mul |] |];
       assumption | lia | unfold round_factor; lra]. }
  assert (Hone : (val xj * val ti / val tj / val xi
                  * (val xi * val tj / val ti / val xj) == 1)%Q).
  { field. repeat split; lra. }
  assert (W : within 0 (val xj * val ti / val tj / val xi
                        * (val xi * val tj / val ti / val xj))%Q).
  { unfold within. rewrite Hone. change (pow2 (- 0)) with 1%Q.
    change (pow2 0) with 1%Q. split; lra. }
  destruct (approx_mul A3 B3 W ltac:(lia) ltac:(unfold round_factor; lra))
    as [Nr [_ [_ [C1 C2]]]].
  rewrite Hone in C1, C2. unfold round_factor in C1, C2.
  apply near_one; [exact Nr | lra | lra].
Qed.

(** C5, the amended claim.  For every pool, balance vector and pair of
    indices in range for which the solver returns its value [d] and the
    loop of [price_at_balance] its value [c]: when the two balances [xi],
    [xj] and the two terms [ann * xi + c] and [ann * xj + c], as the code
    computes them, are doubles between [2^-250] and [2^250], both prices
    are computed, [p] for [(i, j)] and [q] for [(j, i)], and their product
    is within [2^-50] of [1.0]: [abs(p * q - 1.0) <= 2^-50] holds in the
    arithmetic of the doubles. *)
Theorem reciprocal_prices_within_tolerance
  (tp : Stableswap_Pair binary64) (balances : list float) (i j : Z)
  (d c : pyval binary64) (xi xj ti tj : float) :
  let n := len balances in
  let ann := (_amplification tp * n)%Z in
  calculate_d tp balances default_max_iterations = Ok d ->
  c_loop d n (@sorted binary64 balances) d = Ok c ->
  getitem balances i = Ok xi ->
  getitem balances j = Ok xj ->
  (t <- @imulf binary64 ann xi ;; float_add_py t c) = Ok ti ->
  (t <- @imulf binary64 ann xj ;; float_add_py t c) = Ok tj ->
  moderate xi = true -> moderate xj = true ->
  moderate ti = true -> moderate tj = true ->
  exists p q : float,
    price_at_balance tp balances i j = Ok p
    /\ price_at_balance tp balances j i = Ok q
    /\ (abs (p * q - 1) <=? 0x1p-50) = true.
Proof.
  intros n ann Hd Hc Hxi Hxj Hti Htj Mxi Mxj Mti Mtj. subst n ann.
  exists (xj * ti / tj / xi), (xi * tj / ti / xj).
  cbn [F binary64] in *.
  set (ann := (_amplification tp * len balances)%Z) in *.
  destruct (@imulf binary64 ann xi) as [ai | ei] eqn:Hai;
    [cbn [bind] in Hti | discriminate Hti].
  destruct (@imulf binary64 ann xj) as [aj | ej] eqn:Haj;
    [cbn [bind] in Htj | discriminate Htj].
  pose proof (moderate_nonzero xi Mxi) as Zxi.
  pose proof (moderate_nonzero xj Mxj) as Zxj.
  pose proof (moderate_nonzero ti Mti) as Zti.
  pose proof (moderate_nonzero tj Mtj) as Ztj.
  split; [| split].
  - unfold price_at_balance. cbn [F binary64] in *. fold ann.
    rewrite Hd. cbn [bind]. rewrite Hc. cbn [bind].
    rewrite Hxi, Hxj. cbn [bind]. rewrite Hai. cbn [bind].
    rewrite Hti. cbn [bind]. rewrite Haj. cbn [bind].
    rewrite Htj. cbn [bind].
    unfold truediv. cbn [feqb f0 fmul fdiv binary64].
    change zero with 0. rewrite Ztj. cbn [bind]. rewrite Zxi. reflexivity.
  - unfold price_at_balance. cbn [F binary64] in *. fold ann.
    rewrite Hd. cbn [bind]. rewrite Hc. cbn [bind].
    rewrite Hxj, Hxi. cbn [bind]. rewrite Haj. cbn [bind].
    rewrite Htj. cbn [bind]. rewrite Hai. cbn [bind].
    rewrite Hti. cbn [bind].
    unfold truediv. cbn [feqb f0 fmul fdiv binary64].
    change zero with 0. rewrite Zti. cbn [bind]. rewrite Zxj. reflexivity.
  - apply reciprocal_product; assumption.
Qed.

(** For the balances [1000.0, 3000.0] at a precision of [1e-4] the solver
    returns [3993.4316430885178], the four quantities are of moderate
    size, and the two prices multiply to [1.0]. *)
Lemma reciprocal_prices_witness :
  exists p q : float,
    price_at_balance pool_4 [1000; 3000] 1 0 = Ok p
    /\ price_at_balance pool_4 [1000; 3000] 0 1 = Ok q
    /\ (abs (p * q - 1) <=? 0x1p-50) = true.
Proof.
  eapply (@reciprocal_prices_within_tolerance pool_4 [1000; 3000] 1 0);
    reflexivity.
Defined.

(** C5, the claim as stated fails.  Two balances of [1e-320] are positive
    and both prices are [0.0]: the product is [0.0], at distance 1 from
    [1.0].  For the balances [1e-160, 3e-160] the product [xj * (ann * xi
    + c)] leaves the normal range and the two prices multiply to
    [1.00000023].  For the balances [1000.0, 3000.0] at a precision of
    [1e-18] the solver returns [None] and there is no price. *)
Lemma reciprocal_prices_fail :
  price_at_balance pool_4 [1e-320; 1e-320] 1 0 = Ok 0
  /\ price_at_balance pool_4 [1e-320; 1e-320] 0 1 = Ok 0
  /\ abs (0 * 0 - 1) = 1
  /\ price_at_balance pool_4 [1e-160; 3e-160] 1 0 = Ok 0.98276684098726985
  /\ price_at_balance pool_4 [1e-160; 3e-160] 0 1 = Ok 1.0175355854719592
  /\ abs (0.98276684098726985 * 1.0175355854719592 - 1)
     = 2.3292640949357235e-07
  /\ price_at_balance pool [1000; 3000] 1 0 = Raise TypeError
  /\ price_at_balance pool [1000; 3000] 0 1 = Raise TypeError.
Proof. repeat split; reflexivity. Qed.

(** The price between two positions that hold the same balance [x] is
    computed as [x * t / t / x]: three roundings separate it from 1. *)
Lemma equal_balances_quotient (x t : float) :
  moderate x = true -> moderate t = true ->
  (abs (x * t / t / x - 1) <=? 0x1p-50) = true.
Proof.
  intros Hx Ht.
  pose proof (moderate_approx x Hx) as Ax.
  pose proof (moderate_approx t Ht) as At.
  pose proof (approx_within Ax) as Wx. pose proof (approx_within At) as Wt.
  pose proof (within_pos Wx) as Px. pose proof (within_pos Wt) as Pt.
  assert (A1 : approx (round_factor * (1 * 1)) (250 + 250)
                      (x * t) (val x * val t)%Q).
  { apply (approx_mul Ax At);
      [apply within_mul; assumption | lia | unfold round_factor; lra]. }
  assert (A2 : approx (round_factor * (round_factor * (1 * 1) * 1))
                      (250 + 250 + 250)
                      (x * t / t) (val x * val t / val t)%Q).
  { apply (approx_div A1 At);
      [apply within_div; [apply within_mul |]; assumption | lia
      | unfold round_factor; lra]. }
  assert (Hone : (val x * val t / val t / val x == 1)%Q).
  { field. split; lra. }
  assert (W : within 0 (val x * val t / val t / val x)%Q).
  { unfold within. rewrite Hone. change (pow2 (- 0)) with 1%Q.
    change (pow2 0) with 1%Q. split; lra. }
  destruct (approx_div A2 Ax W ltac:(lia) ltac:(unfold round_factor; lra))
    as [Nr [_ [_ [C1 C2]]]].
  rewrite Hone in C1, C2. unfold round_factor in C1, C2.
  apply near_one; [exact Nr | lra | lra].
Qed.

(** X23.  Two tokens with equal balances trade one for one, up to
    rounding: for every pool and balance vector for which the solver
    returns its value and the loop of [price_at_balance] its value [c],
    when the positions [i] and [j] hold the same balance [x] and [x] and
    [ann * x + c] are doubles between [2^-250] and [2^250], the price is
    computed and is within [2^-50] of [1.0]. *)
Theorem equal_balances_price_near_one
  (tp : Stableswap_Pair binary64) (balances : list float) (i j : Z)
  (d c : pyval binary64) (x t : float) :
  let n := len balances in
  let ann := (_amplification tp * n)%Z in
  calculate_d tp balances default_max_iterations = Ok d ->
  c_loop d n (@sorted binary64 balances) d = Ok c ->
  getitem balances i = Ok x ->
  getitem balances j = Ok x ->
  (a <- @imulf binary64 ann x ;; float_add_py a c) = Ok t ->
  moderate x = true -> moderate t = true ->
  exists p : float,
    price_at_balance tp balances i j = Ok p
    /\ (abs (p - 1) <=? 0x1p-50) = true.
Proof.
  intros n ann Hd Hc Hxi Hxj Ht Mx Mt. subst n ann.
  exists (x * t / t / x).
  cbn [F binary64] in *.
  set (ann := (_amplification tp * len balances)%Z) in *.
  destruct (@imulf binary64 ann x) as [a | e] eqn:Ha;
    [cbn [bind] in Ht | discriminate Ht].
  pose proof (moderate_nonzero x Mx) as Zx.
  pose proof (moderate_nonzero t Mt) as Zt.
  split.
  - unfold price_at_balance. cbn [F binary64] in *. fold ann.
    rewrite Hd. cbn [bind]. rewrite Hc. cbn [bind].
    rewrite Hxi, Hxj. cbn [bind]. rewrite Ha. cbn [bind].
    rewrite Ht. cbn [bind].
    unfold truediv. cbn [feqb f0 fmul fdiv binary64].
    change zero with 0. rewrite Zt. cbn [bind]. rewrite Zx. reflexivity.
  - apply equal_balances_quotient; assumption.
Qed.

Lemma equal_balances_witness :
  exists p : float,
    price_at_balance pool_4 [1000; 3000; 1000] 0 2 = Ok p
    /\ (abs (p - 1) <=? 0x1p-50) = true.
Proof.
  eapply (@equal_balances_price_near_one pool_4 [1000; 3000; 1000] 0 2);
    reflexivity.
Defined.

End RoundingError.

(* ================================================================== *)
(** * The request layer on an example                                  *)
(* ================================================================== *)

Module ExactFacts.

Open Scope Q_scope.

(** A pool of amplification 1, fee 0.3 %, precision 1/100, on rationals. *)
Definition exact_pool : Stableswap_Pair exact :=
  @Build_Stableswap_Pair exact 1 (3 # 1000) (1 # 100).

(** The two operations on ints in exact arithmetic. *)
Definition exact_int_truediv (a b : Z) : result Q :=
  if (b =? 0)%Z then Raise ZeroDivisionError
  else Ok (inject_Z a / inject_Z b).

Definition exact_pow10 (d : Z) : Q := / inject_Z (10 ^ (- d)).

Definition exact_ints : IntOps exact :=
  @Build_IntOps exact exact_int_truediv exact_pow10.

(** Two tokens of six decimals and their pool. *)
Definition token_a : Hydration_Token :=
  {| _id := 10%Z; _name := "USDT"; _decimals := 6%Z |}.

Definition token_b : Hydration_Token :=
  {| _id := 22%Z; _name := "USDC"; _decimals := 6%Z |}.

Definition exact_pair : @Stableswap_Pair_object exact :=
  {| _base_token := token_a;
     _quote_token := token_b;
     _account := "pool";
     _numbers := exact_pool;
     _price := None |}.

(** A node that reports the given entries for every account. *)
Definition node (entries : list (Z * option Z)) : SubstrateInterface :=
  {| query_System_Number := Ok 100%Z;
     rpc_chain_getBlockHash := fun _ => Ok (Some "0x00"%string);
     query_map_Tokens_Accounts := fun _ _ => Ok entries |}.

Lemma foreign_token_witness :
  @request_token_balances exact exact_ints
    (new_request exact_pair
       (node [(10%Z, Some 2000000%Z); (99%Z, Some 5%Z);
              (22%Z, Some 2000000%Z)])
       None)
  = Raise KeyError.
Proof.
  eapply (@foreign_token_raises_KeyError exact exact_ints _
            (Some "0x00"%string) [(10%Z, Some 2000000%Z)]
            [(22%Z, Some 2000000%Z)] 99%Z (Some 5%Z)).
  - reflexivity.
  - reflexivity.
  - vm_compute. reflexivity.
  - discriminate.
  - discriminate.
Defined.

Lemma price_needs_both_tokens_witness :
  exists (block_hash : option string) (entries : list (Z * option Z)),
    rpc_chain_getBlockHash
      (node [(22%Z, Some 2000000%Z); (10%Z, Some 2000000%Z)]) None
    = Ok block_hash
    /\ query_map_Tokens_Accounts
         (node [(22%Z, Some 2000000%Z); (10%Z, Some 2000000%Z)])
         "pool" block_hash
       = Ok entries
    /\ In 10%Z (map fst entries)
    /\ In 22%Z (map fst entries).
Proof.
  eapply (@price_needs_both_tokens exact exact_ints
            (new_request exact_pair
               (node [(22%Z, Some 2000000%Z); (10%Z, Some 2000000%Z)])
               None)).
  - discriminate.
  - vm_compute. reflexivity.
Defined.

Lemma price_of_two_entries_witness :
  fst (@request_price exact exact_ints
         (new_request exact_pair
            (node [(22%Z, Some 6000000%Z); (10%Z, Some 2000000%Z)])
            None))
  = price_at_balance exact_pool
      [2000000 # 1000000; 6000000 # 1000000] 1 0.
Proof.
  eapply (@price_of_two_entries exact exact_ints
            (new_request exact_pair
               (node [(22%Z, Some 6000000%Z); (10%Z, Some 2000000%Z)])
               None)
            (Some "0x00"%string)
            [(22%Z, Some 6000000%Z); (10%Z, Some 2000000%Z)]
            (Some 2000000%Z) (Some 6000000%Z)).
  - discriminate.
  - discriminate.
  - intros _. exists 100%Z. reflexivity.
  - reflexivity.
  - reflexivity.
  - apply perm_swap.
  - reflexivity.
  - reflexivity.
Defined.

End ExactFacts.
